(** * Proteus gripper tele-operation: the control core of
      [software/teleop_nonhaptic_filtered.py]

    A shallow embedding of [MotorControlApp]: the mirror control loop
    ([motor_control]), the monitor loop ([monitor_motors]), the two homing
    procedures ([home_trigger], [home_gripper]), the lazy controller cache
    ([initialize_controllers]) and the alpha setter ([update_alpha]).

    Python floats are IEEE binary64 numbers; they are modelled by Rocq's
    primitive floats, which are the same numbers with the same rounding.
    Coroutines are modelled in a state-and-exception monad over the
    application object; every [await] consults an environment that says what
    the motor driver answered, whether the task was cancelled at that
    suspension point, and whether the operator pressed STOP meanwhile. *)

From Stdlib Require Import PrimFloat ZArith List Bool String Lia.
From stdpp Require Import base option list gmap.
Import ListNotations.

Set Warnings "-inexact-float".
Local Open Scope Z_scope.

(** ** Data *)

(** A [moteus.Controller] object.  [obj] is the identity of the Python object
    (its allocation number), [id] the bus id of the actuator it addresses:
    1 is the trigger (leader), 2 the gripper (follower). *)
Record Controller : Type := mkController { obj : nat; id : Z }.

(** [moteus.Stream(controller)]: a diagnostic stream writes to the
    controller it was built from. *)
Record Stream : Type := mkStream { stream_controller : Controller }.

(** The reply of a query: [state.values[moteus.Register.POSITION]] and
    [state.values[moteus.Register.TORQUE]]. *)
Record Result : Type := mkResult { POSITION : float; TORQUE : float }.

(** Calls on a controller.  [set_position] carries the keyword arguments the
    source passes; [velocity] is omitted in the follower command. *)
Inductive command : Type :=
| set_stop
| query
| set_position (position : float) (velocity : option float)
               (maximum_torque : float).

Inductive button : Type := go_btn | stop_btn | hometrig_btn | homegrip_btn.

Inductive exn : Type :=
| TransportError      (* an Exception raised by a driver call *)
| CancelledError      (* asyncio cancellation: a BaseException *)
| AttributeError      (* [None.values] *)
| TypeError           (* arithmetic on [None] *)
| KeyError            (* [self.controllers[i]] on a missing key *)
| UnboundLocalError.  (* a local read before its assignment *)

(** [except Exception] catches everything but the cancellation. *)
Definition is_Exception (e : exn) : bool :=
  match e with CancelledError => false | _ => true end.

(** Calls posted to the GUI thread with [root.after(0, ...)]. *)
Inductive gui_call : Type :=
| update_positions (trigger_pos gripper_pos trigger_torque gripper_torque : float)
| showinfo (title message : string)
| showerror (title : string) (reason : exn)
| config (b : button) (enabled : bool).

(** What a coroutine does that is visible outside it, in order. *)
Inductive event : Type :=
| Call (c : Controller) (cmd : command)        (* await c.cmd(...) *)
| StreamCommand (s : Stream) (data : string)   (* await stream.command(data) *)
| Sleep (seconds : float)                      (* await asyncio.sleep(seconds) *)
| After (g : gui_call)                         (* root.after(0, g) *)
| Stdout (e : exn).                            (* print(f"Monitoring error: {e}") *)

(** The physical actuator an event reaches. *)
Definition target (ev : event) : option Z :=
  match ev with
  | Call c _ => Some (id c)
  | StreamCommand s _ => Some (id (stream_controller s))
  | _ => None
  end.

(** The fields of [MotorControlApp] set in [__init__].  [alpha_entry] is the
    text of the entry widget as [float(...)] reads it: [None] is a text that
    raises [ValueError]. *)
Record App : Type := mkApp {
  controller : Controller;
  stream : Stream;
  running : bool;
  monitoring : bool;
  homing_trigger : bool;
  homing_gripper : bool;
  controllers : gmap Z Controller;
  prevfiltpos : option float;
  alpha : float;
  alpha_entry : option float;
  enabled : button -> bool
}.

(** The local variables [c1], [c2] of the running homing coroutine. *)
Record frame : Type := mkFrame { c1 : option Controller; c2 : option Controller }.

(** The application object together with the bookkeeping of the model:
    every [Controller] constructed so far, the events so far, and the number
    of suspension points passed. *)
Record World : Type := mkWorld {
  app : App;
  locals : frame;
  heap : list Controller;
  trace : list event;
  awaits : nat
}.

(** ** The environment of a coroutine *)

Inductive reply : Type :=
| Returns (r : option Result)
| Fails.                       (* the driver raised *)

Record tick : Type := mkTick {
  answer : reply;        (* what the driver answers, if this await is a driver call *)
  cancelled : bool;      (* the task is cancelled at this suspension point *)
  stop_pressed : bool;   (* the GUI thread ran [stop_control] meanwhile *)
  alpha_pressed : option (option float)
                         (* the GUI thread ran [update_alpha] meanwhile, the
                            entry reading as given ([None]: not a number) *)
}.

Definition env : Type := nat -> tick.

(** ** Field updates *)

Definition with_running (b : bool) (a : App) : App :=
  mkApp (controller a) (stream a) b (monitoring a) (homing_trigger a)
        (homing_gripper a) (controllers a) (prevfiltpos a) (alpha a)
        (alpha_entry a) (enabled a).

Definition with_homing_trigger (b : bool) (a : App) : App :=
  mkApp (controller a) (stream a) (running a) (monitoring a) b
        (homing_gripper a) (controllers a) (prevfiltpos a) (alpha a)
        (alpha_entry a) (enabled a).

Definition with_homing_gripper (b : bool) (a : App) : App :=
  mkApp (controller a) (stream a) (running a) (monitoring a) (homing_trigger a)
        b (controllers a) (prevfiltpos a) (alpha a)
        (alpha_entry a) (enabled a).

Definition with_controllers (m : gmap Z Controller) (a : App) : App :=
  mkApp (controller a) (stream a) (running a) (monitoring a) (homing_trigger a)
        (homing_gripper a) m (prevfiltpos a) (alpha a)
        (alpha_entry a) (enabled a).

Definition with_prevfiltpos (p : option float) (a : App) : App :=
  mkApp (controller a) (stream a) (running a) (monitoring a) (homing_trigger a)
        (homing_gripper a) (controllers a) p (alpha a)
        (alpha_entry a) (enabled a).

Definition with_alpha (v : float) (a : App) : App :=
  mkApp (controller a) (stream a) (running a) (monitoring a) (homing_trigger a)
        (homing_gripper a) (controllers a) (prevfiltpos a) v
        (alpha_entry a) (enabled a).

Definition with_alpha_entry (t : option float) (a : App) : App :=
  mkApp (controller a) (stream a) (running a) (monitoring a) (homing_trigger a)
        (homing_gripper a) (controllers a) (prevfiltpos a) (alpha a)
        t (enabled a).

Definition button_eqb (x y : button) : bool :=
  match x, y with
  | go_btn, go_btn | stop_btn, stop_btn
  | hometrig_btn, hometrig_btn | homegrip_btn, homegrip_btn => true
  | _, _ => false
  end.

(** [b.config(state=...)] *)
Definition with_button (b : button) (st : bool) (a : App) : App :=
  mkApp (controller a) (stream a) (running a) (monitoring a) (homing_trigger a)
        (homing_gripper a) (controllers a) (prevfiltpos a) (alpha a)
        (alpha_entry a) (fun x => if button_eqb x b then st else enabled a x).

Definition with_app (f : App -> App) (w : World) : World :=
  mkWorld (f (app w)) (locals w) (heap w) (trace w) (awaits w).

Definition with_locals (l : frame) (w : World) : World :=
  mkWorld (app w) l (heap w) (trace w) (awaits w).

Definition emit (ev : event) (w : World) : World :=
  mkWorld (app w) (locals w) (heap w) (trace w ++ [ev]) (awaits w).

(** ** Coroutines *)

(** How a block of statements ends: it falls through with a value, it
    executes [return], it raises, or the model's iteration budget ran out
    while the coroutine was still inside its loop. *)
Inductive ctl (A : Type) : Type :=
| Val (a : A)
| Ret
| Exn (e : exn)
| Running.

Arguments Val {A} a.
Arguments Ret {A}.
Arguments Exn {A} e.
Arguments Running {A}.

Definition M (A : Type) : Type := env -> World -> ctl A * World.

Definition ret {A} (a : A) : M A := fun _ w => (Val a, w).

Definition bind {A B} (m : M A) (k : A -> M B) : M B :=
  fun E w =>
    match m E w with
    | (Val a, w') => k a E w'
    | (Ret, w') => (Ret, w')
    | (Exn e, w') => (Exn e, w')
    | (Running, w') => (Running, w')
    end.

Declare Scope py_scope.
Delimit Scope py_scope with py.
Notation "'let!' x ':=' m 'in' k" := (bind m (fun x => k))
  (at level 10, x pattern, m at level 100, k at level 200) : py_scope.
Notation "m '>>' k" := (bind m (fun _ => k))
  (at level 90, right associativity) : py_scope.
Local Open Scope py_scope.

Definition return_ {A} : M A := fun _ w => (Ret, w).
Definition raise {A} (e : exn) : M A := fun _ w => (Exn e, w).
Definition still_running {A} : M A := fun _ w => (Running, w).

Definition gets {A} (f : App -> A) : M A := fun _ w => (Val (f (app w)), w).
Definition modify (f : App -> App) : M unit := fun _ w => (Val tt, with_app f w).
Definition post (g : gui_call) : M unit := fun _ w => (Val tt, emit (After g) w).
Definition print (e : exn) : M unit := fun _ w => (Val tt, emit (Stdout e) w).

(** [stop_control]: the STOP button. *)
Definition stop_control_app (a : App) : App :=
  with_button stop_btn false (with_button go_btn true (with_running false a)).

(** [update_alpha] (l.102-116) as the GUI thread runs it on the entry text
    [typed]: a number in the unit interval becomes the coefficient, anything
    else is replaced in the entry by the coefficient in force. *)
Definition update_alpha_app (typed : option float) (a : App) : App :=
  match typed with
  | Some new_alpha =>
      if ((0 <=? new_alpha) && (new_alpha <=? 1))%float
      then with_alpha new_alpha (with_alpha_entry typed a)
      else with_alpha_entry (Some (alpha a)) a
  | None => with_alpha_entry (Some (alpha a)) a
  end.

(** Passing a suspension point: the event is logged, the GUI thread may
    have pressed STOP or run [update_alpha] meanwhile, and the task may be
    cancelled there.  A coroutine is followed on its own: what the other
    coroutines of the event loop do while it is suspended is not part of
    this. *)
Definition suspend (ev : event) (w : World) (t : tick) : World :=
  let w1 := mkWorld (app w) (locals w) (heap w) (trace w ++ [ev]) (S (awaits w)) in
  let w2 := if stop_pressed t then with_app stop_control_app w1 else w1 in
  match alpha_pressed t with
  | Some typed => with_app (update_alpha_app typed) w2
  | None => w2
  end.

(** [await] of a call that goes to the driver. *)
Definition await_call (ev : event) : M (option Result) :=
  fun E w =>
    let t := E (awaits w) in
    let w' := suspend ev w t in
    if cancelled t then (Exn CancelledError, w')
    else match answer t with
         | Returns r => (Val r, w')
         | Fails => (Exn TransportError, w')
         end.

(** [await asyncio.sleep(seconds)]: only a cancellation makes it raise. *)
Definition sleep (seconds : float) : M unit :=
  fun E w =>
    let t := E (awaits w) in
    let w' := suspend (Sleep seconds) w t in
    if cancelled t then (Exn CancelledError, w') else (Val tt, w').

(** [try: body finally: final].  The final block runs however the body
    ended; if the final block itself does not fall through, its own ending
    replaces the body's. *)
Definition try_finally {A} (body : M A) (final : M unit) : M A :=
  fun E w =>
    match body E w with
    | (Running, w') => (Running, w')
    | (r, w') =>
        match final E w' with
        | (Val _, w'') => (r, w'')
        | (Ret, w'') => (Ret, w'')
        | (Exn e, w'') => (Exn e, w'')
        | (Running, w'') => (Running, w'')
        end
    end.

(** [try: body except Exception as e: handler e]. *)
Definition try_except {A} (body : M A) (handler : exn -> M A) : M A :=
  fun E w =>
    match body E w with
    | (Exn e, w') => if is_Exception e then handler e E w' else (Exn e, w')
    | r => r
    end.

(** The end of a coroutine: [return] gives [None] to the caller. *)
Definition coroutine (body : M unit) : M unit :=
  fun E w =>
    match body E w with
    | (Ret, w') => (Val tt, w')
    | r => r
    end.

(** ** [MotorControlApp] *)

(** [moteus.Controller(id=i)]: a new object. *)
Definition new_Controller (i : Z) : M Controller :=
  fun _ w =>
    let c := mkController (length (heap w)) i in
    (Val c, mkWorld (app w) (locals w) (heap w ++ [c]) (trace w) (awaits w)).

(** [self.controllers[i]] *)
Definition getitem (i : Z) : M Controller :=
  let! cs := gets controllers in
  match cs !! i with
  | Some c => ret c
  | None => raise KeyError
  end.

(** One [if i not in self.controllers: ...] block of
    [initialize_controllers]. *)
Definition ensure_controller (i : Z) : M unit :=
  let! cs := gets controllers in
  match cs !! i with
  | Some _ => ret tt
  | None =>
      let! c := new_Controller i in
      modify (fun a => with_controllers (<[i := c]> (controllers a)) a) >>
      let! ci := getitem i in
      await_call (Call ci set_stop) >>
      ret tt
  end.

Definition initialize_controllers : M (Controller * Controller) :=
  ensure_controller 1 >>
  ensure_controller 2 >>
  let! k1 := getitem 1 in
  let! k2 := getitem 2 in
  ret (k1, k2).

(** [state.values[moteus.Register.POSITION]] *)
Definition values_POSITION (state : option Result) : M float :=
  match state with
  | Some r => ret (POSITION r)
  | None => raise AttributeError
  end.

(** [self.alpha * self.prevfiltpos + (1 - self.alpha) * position] *)
Definition filter_step (a prev position : float) : float :=
  (a * prev + (1 - a) * position)%float.

(** One pass through the body of the [while self.running:] loop. *)
Definition control_iteration (k1 k2 : Controller) : M unit :=
  let! state1 := await_call (Call k1 (set_position nan (Some nan) 0.015)) in
  let! position := values_POSITION state1 in
  let! a := gets alpha in
  let! prev := gets prevfiltpos in
  match prev with
  | None => raise TypeError
  | Some prev =>
      let filtered := filter_step a prev position in
      await_call (Call k2 (set_position (7 - filtered) None 0.1)) >>
      modify (with_prevfiltpos (Some position)) >>
      sleep (1 / 1000)
  end.

(** The [while self.running:] loop of [motor_control]; [n] bounds the number
    of iterations the model follows. *)
Fixpoint control_loop (n : nat) (k1 k2 : Controller) : M unit :=
  let! r := gets running in
  if r then
    match n with
    | O => still_running
    | S n' => control_iteration k1 k2 >> control_loop n' k1 k2
    end
  else ret tt.

(** The [finally:] block of [motor_control]. *)
Definition control_finally (k1 k2 : Controller) : M unit :=
  await_call (Call k1 set_stop) >>
  await_call (Call k2 set_stop) >>
  ret tt.

Definition motor_control (n : nat) : M unit :=
  coroutine (
    let! ks := initialize_controllers in
    let '(k1, k2) := ks in
    let! state1 := await_call (Call k1 query) in
    let! p := values_POSITION state1 in
    modify (with_prevfiltpos (Some p)) >>
    try_finally (control_loop n k1 k2) (control_finally k1 k2)).

(** The body of the [try:] in one iteration of [monitor_motors]. *)
Definition monitor_try : M unit :=
  let! ks := initialize_controllers in
  let '(k1, k2) := ks in
  let! state1 := await_call (Call k1 query) in
  let! state2 := await_call (Call k2 query) in
  match state1, state2 with
  | Some s1, Some s2 =>
      post (update_positions (POSITION s1) (POSITION s2) (TORQUE s1) (TORQUE s2))
  | _, _ => ret tt
  end >>
  sleep (1 / 1000).

Definition monitor_iteration : M unit :=
  try_except monitor_try (fun e => print e >> sleep 1.0).

Fixpoint monitor_motors (n : nat) : M unit :=
  let! m := gets monitoring in
  if m then
    match n with
    | O => still_running
    | S n' => monitor_iteration >> monitor_motors n'
    end
  else ret tt.

(** Reading and binding the locals of a homing coroutine. *)
Definition local_c1 : M Controller :=
  fun _ w => match c1 (locals w) with
             | Some c => (Val c, w)
             | None => (Exn UnboundLocalError, w)
             end.

Definition local_c2 : M Controller :=
  fun _ w => match c2 (locals w) with
             | Some c => (Val c, w)
             | None => (Exn UnboundLocalError, w)
             end.

(** [c1, c2 = await self.initialize_controllers()] *)
Definition bind_locals : M unit :=
  let! ks := initialize_controllers in
  fun _ w => (Val tt, with_locals (mkFrame (Some (fst ks)) (Some (snd ks))) w).

(** A coroutine starts with no local bound. *)
Definition enter : M unit :=
  fun _ w => (Val tt, with_locals (mkFrame None None) w).

(** [await self.stream.command(data)] *)
Definition stream_command (data : string) : M unit :=
  let! s := gets stream in
  await_call (StreamCommand s data) >> ret tt.

(** [state and state.values[moteus.Register.TORQUE] < bound] *)
Definition torque_below (state : option Result) (bound : float) : bool :=
  match state with
  | Some r => (TORQUE r <? bound)%float
  | None => false
  end.

(** [state and state.values[moteus.Register.TORQUE] > bound] *)
Definition torque_above (state : option Result) (bound : float) : bool :=
  match state with
  | Some r => (bound <? TORQUE r)%float
  | None => false
  end.

(** The [while self.homing_trigger:] loop of [home_trigger]; the value is
    [homing__trigger_success]. *)
Fixpoint trigger_seek (n : nat) : M bool :=
  let! h := gets homing_trigger in
  if h then
    match n with
    | O => still_running
    | S n' =>
        let! k1 := local_c1 in
        let! state := await_call (Call k1 (set_position nan (Some (-0.5)%float) 0.03)) in
        if torque_below state (-0.02)%float then
          stream_command "d exact 0" >>
          sleep 0.1 >>
          ret true
        else
          sleep 0.01 >>
          trigger_seek n'
    end
  else ret false.

Definition home_trigger (n : nat) : M unit :=
  coroutine (
    enter >>
    try_finally
      (try_except
         (let! h := gets homing_trigger in
          if h then return_
          else
            modify (with_homing_trigger true) >>
            modify (with_button hometrig_btn false) >>
            bind_locals >>
            let! k1 := local_c1 in
            await_call (Call k1 set_stop) >>
            sleep 0.1 >>
            let! success := trigger_seek n in
            if success then post (showinfo "Success" "Trigger homing completed")
            else ret tt)
         (fun e => post (showerror "Error" e)))
      (modify (with_homing_trigger false) >>
       post (config hometrig_btn true) >>
       let! k1 := local_c1 in
       await_call (Call k1 set_stop) >>
       ret tt)).

(** The [while self.homing_gripper:] loop of [home_gripper]; the value is
    [homing__gripper_success]. *)
Fixpoint gripper_seek (n : nat) : M bool :=
  let! h := gets homing_gripper in
  if h then
    match n with
    | O => still_running
    | S n' =>
        let! k2 := local_c2 in
        let! state := await_call (Call k2 (set_position nan (Some 0.5%float) 0.05)) in
        if torque_above state 0.03%float then
          stream_command "d exact 7" >>
          sleep 0.1 >>
          ret true
        else
          sleep 0.01 >>
          gripper_seek n'
    end
  else ret false.

Definition home_gripper (n : nat) : M unit :=
  coroutine (
    enter >>
    try_finally
      (try_except
         (let! h := gets homing_gripper in
          if h then return_
          else
            modify (with_homing_gripper true) >>
            modify (with_button homegrip_btn false) >>
            bind_locals >>
            let! k2 := local_c2 in
            await_call (Call k2 set_stop) >>
            sleep 0.1 >>
            let! success := gripper_seek n in
            if success then post (showinfo "Success" "Gripper homing completed")
            else ret tt)
         (fun e => post (showerror "Error" e)))
      (modify (with_homing_gripper false) >>
       post (config homegrip_btn true) >>
       let! k2 := local_c2 in
       await_call (Call k2 set_stop) >>
       ret tt)).

(** [update_alpha]: [float(self.alpha_entry.get())] is the entry's content;
    [None] takes the [except ValueError] branch. *)
Definition update_alpha : M unit :=
  let! txt := gets alpha_entry in
  match txt with
  | Some new_alpha =>
      if ((0 <=? new_alpha) && (new_alpha <=? 1))%float
      then modify (with_alpha new_alpha)
      else let! a := gets alpha in modify (with_alpha_entry (Some a))
  | None => let! a := gets alpha in modify (with_alpha_entry (Some a))
  end.

Definition stop_control : M unit := modify stop_control_app.

(** [start_control]: the coroutine it schedules is followed for [n]
    iterations of its loop. *)
Definition start_control (n : nat) : M unit :=
  let! r := gets running in
  if r then ret tt
  else
    modify (with_running true) >>
    modify (with_button go_btn false) >>
    modify (with_button stop_btn true) >>
    motor_control n.

(** [__init__]: the application object of a fresh session.  The only
    controller built here is the one the diagnostic stream writes to. *)
Definition init : World :=
  let c := mkController 0 2 in
  mkWorld
    (mkApp c (mkStream c) false true false false ∅ None 0.95%float
           (Some 0.95%float) (fun b => negb (button_eqb b stop_btn)))
    (mkFrame None None) [c] [] 0.

(** What can happen in a session after [__init__]: the operator's buttons
    and the progress of the background coroutines. *)
Inductive action : Type :=
| PressGo (n : nat)                  (* GO, the loop followed for n iterations *)
| PressStop
| PressQuit
| PressUpdateAlpha (typed : option float)
| PressHomeTrigger (n : nat)
| PressHomeGripper (n : nat)
| Monitor (n : nat).                 (* n iterations of the monitor loop *)

Definition perform (a : action) : M unit :=
  match a with
  | PressGo n => start_control n
  | PressStop => stop_control
  | PressQuit => stop_control
  | PressUpdateAlpha typed => modify (with_alpha_entry typed) >> update_alpha
  | PressHomeTrigger n => home_trigger n
  | PressHomeGripper n => home_gripper n
  | Monitor n => monitor_motors n
  end.

(** The world after a list of actions, whatever way each one ended. *)
Definition session (E : env) (acts : list action) (w : World) : World :=
  fold_left (fun w a => snd (perform a E w)) acts w.

(** ** Observations on a run *)

(** The events issued since an earlier world. *)
Definition since (w0 w : World) : list event :=
  drop (length (trace w0)) (trace w).

Definition is_stop_on (i : Z) (ev : event) : bool :=
  match ev with
  | Call c set_stop => Z.eqb (id c) i
  | _ => false
  end.

Definition is_query (ev : event) : bool :=
  match ev with
  | Call _ query => true
  | _ => false
  end.

Definition is_call (ev : event) : bool :=
  match ev with
  | Call _ _ => true
  | _ => false
  end.

Definition is_stream_command (ev : event) : bool :=
  match ev with
  | StreamCommand _ _ => true
  | _ => false
  end.

(** A probe of a homing procedure: a [set_position] command. *)
Definition is_probe (ev : event) : bool :=
  match ev with
  | Call _ (set_position _ _ _) => true
  | _ => false
  end.

Definition count (p : event -> bool) (evs : list event) : nat :=
  length (List.filter p evs).

(** The number of [Controller] objects constructed for bus id [i]. *)
Definition handles_for (i : Z) (w : World) : nat :=
  length (List.filter (fun c => Z.eqb (id c) i) (heap w)).

(** The bus ids [initialize_controllers] has not cached yet, in the order it
    handles them. *)
Definition missing (w : World) : list Z :=
  List.filter (fun i => match controllers (app w) !! i with
                        | None => true
                        | Some _ => false
                        end) [1; 2].

(** Environments given by a finite script of ticks and a default. *)
Definition script (l : list tick) (d : tick) : env := fun n => nth n l d.

Definition answers (p torque : float) : tick :=
  mkTick (Returns (Some (mkResult p torque))) false false None.

Definition driver_fails : tick := mkTick Fails false false None.

(** The unit-interval test of [update_alpha]: [0 <= v <= 1] on floats. *)
Definition in_unit_interval (v : float) : bool :=
  ((0 <=? v) && (v <=? 1))%float.

(** [self.alpha] after a suspension point at which the GUI thread did what
    [t] says, when it was [a] before: [update_alpha] stores a typed number
    that passes the unit-interval test and nothing else. *)
Definition alpha_after (t : tick) (a : float) : float :=
  match alpha_pressed t with
  | Some (Some v) => if in_unit_interval v then v else a
  | _ => a
  end.

(** The world after [n] iterations of the monitor loop. *)
Definition after_polls (n : nat) (E : env) (w : World) : World :=
  Nat.iter n (fun w => snd (monitor_iteration E w)) w.

(** ** Notions used in the statements *)

Definition preserves {A} (I : World -> Prop) (m : M A) : Prop :=
  forall E w, I w -> I (snd (m E w)).

(** The part of the world the loops do not write, except through
    [initialize_controllers] and the filter update. *)
Definition core (w : World)
  : bool * option float * gmap Z Controller * list Controller :=
  (monitoring (app w), prevfiltpos (app w), controllers (app w), heap w).

(** A write to the flags, the buttons, alpha or its entry. *)
Definition keeps_core (f : App -> App) : Prop :=
  forall a, monitoring (f a) = monitoring a /\
            prevfiltpos (f a) = prevfiltpos a /\
            controllers (f a) = controllers a.

(** A property that no suspension point, posted call, local binding or
    flag write can break. *)
Record stable (I : World -> Prop) : Prop := mkStable {
  stable_suspend : forall ev w t, I w -> I (suspend ev w t);
  stable_emit : forall ev w, I w -> I (emit ev w);
  stable_locals : forall l w, I w -> I (with_locals l w);
  stable_flags : forall f w, keeps_core f -> I w -> I (with_app f w)
}.

(** So is having grown the trace by a given prefix. *)
Definition issued_since (w0 : World) (pre : list event) (w : World) : Prop :=
  exists evs, trace w = trace w0 ++ pre ++ evs.

Definition cached_count (i : Z) (w : World) : nat :=
  match controllers (app w) !! i with
  | Some _ => 1
  | None => 0
  end.

(** Besides the controller of the diagnostic stream, which [__init__] builds
    for bus id 2, a controller exists exactly for every cached id, and the
    cache maps an id to a controller of that id. *)
Definition handle_inv (w : World) : Prop :=
  (forall i, handles_for i w = ((if Z.eqb i 2 then 1 else 0) + cached_count i w)%nat) /\
  (forall i c, controllers (app w) !! i = Some c -> id c = i).




(** A cached controller stays the cached controller of its id. *)
Definition caches (i : Z) (c : Controller) (w : World) : Prop :=
  controllers (app w) !! i = Some c.

(** The environment in which every driver call answers with the given
    position and torque, nothing is cancelled and STOP is not pressed. *)
Definition always (t : tick) : env := fun _ => t.
Definition calm (p torque : float) : env := always (answers p torque).


(** The trigger (resp. gripper) homing procedure after two polls without a
    torque crossing: it is inside its loop, seeking. *)
Definition seeking_trigger : World := snd (home_trigger 2 (calm 0 0) init).
Definition seeking_gripper : World := snd (home_gripper 2 (calm 0 0) init).

Definition pressed_stop : tick := mkTick (Returns None) false true None.

(** Alpha 0.5; the leader reads 0 at the seeding query, then 1 in both
    iterations; STOP is pressed during the second sleep. *)
Definition step_input : env :=
  script [answers 0 0; answers 0 0;                 (* set_stop, set_stop *)
          answers 0 0;                              (* seeding query: 0 *)
          answers 1 0; answers 0 0; answers 0 0;    (* first iteration: 1 *)
          answers 1 0; answers 0 0; pressed_stop]   (* second iteration: 1 *)
         (answers 0 0).

(** A session at the head of the mirror loop: after the first monitor
    iteration alpha was set to 0.5 and GO pressed, and the seeding query
    answered 0.  Six suspension points have been passed. *)
Definition seeded : World :=
  session (calm 0 0) [Monitor 1; PressUpdateAlpha (Some 0.5%float); PressGo 0] init.

(** The ticks [l] for the suspension points that follow those of [seeded]. *)
Definition next (l : list tick) : env :=
  script (repeat (answers 0 0) 6 ++ l) (answers 0 0).

(** The leader reads 1; while it is read, 0.25 is typed into the alpha
    entry and confirmed. *)
Definition retuned : env :=
  next [mkTick (Returns (Some (mkResult 1 0))) false false (Some (Some 0.25%float))].

Definition follower_command (ev : event) : bool :=
  is_probe ev && match target ev with Some 2 => true | _ => false end.

(** The session after the first monitor iteration: both controllers are
    cached and have been stopped once. *)
Definition launched : World := session (calm 0 0) [Monitor 1] init.

(** After the launch (five suspension points), GO: the seeding query
    answers, the leader's hold command fails inside the loop, and so does the
    leader's stop command in the [finally:] block. *)
Definition leader_unreachable : env :=
  script [answers 0 0; answers 0 0; answers 0 0; answers 0 0; answers 0 0;
          answers 0 0; driver_fails; driver_fails]
         (answers 0 0).

(** The trigger's torque is -0.025 on the third poll. *)
Definition trigger_hits_stop : env :=
  script [answers 0 0; answers 0 0;   (* set_stop, set_stop *)
          answers 0 0; answers 0 0;   (* set_stop, sleep *)
          answers 0 0; answers 0 0;   (* first poll, sleep *)
          answers 0 0; answers 0 0;   (* second poll, sleep *)
          answers 0 (-0.025)]         (* third poll *)
         (answers 0 0).

(** The gripper's torque is 0.035 on the second poll. *)
Definition gripper_hits_stop : env :=
  script [answers 0 0; answers 0 0;
          answers 0 0; answers 0 0;
          answers 0 0; answers 0 0;
          answers 0 0.035]
         (answers 0 0).

(** The events the loop can issue: the leader's hold command, a follower
    command at some target [7 - x], and the control period's sleep. *)
Definition loop_event (k1 k2 : Controller) (ev : event) : Prop :=
  ev = Call k1 (set_position nan (Some nan) 0.015) \/
  (exists x, ev = Call k2 (set_position (7 - x) None 0.1)) \/
  ev = Sleep (1 / 1000).

(** The [try:] body of the iteration raised an [Exception]. *)
Definition poll_failed (E : env) (w : World) : bool :=
  match fst (monitor_try E w) with
  | Exn e => is_Exception e
  | _ => false
  end.

(** Without a cancellation, a block ends by falling through or by raising
    an [Exception]. *)
Definition clean {A} (r : ctl A) : Prop :=
  match r with
  | Val _ => True
  | Exn e => is_Exception e = true
  | _ => False
  end.

Definition tame {A} (m : M A) : Prop :=
  forall E w, (forall k, cancelled (E k) = false) -> clean (fst (m E w)).

(** The controllers [initialize_controllers] constructs for the given ids,
    the first one with allocation number [h]. *)
Fixpoint new_controllers (h : nat) (ids : list Z) : list Controller :=
  match ids with
  | [] => []
  | i :: ids' => mkController h i :: new_controllers (S h) ids'
  end.

Definition is_stop (ev : event) : bool :=
  match ev with
  | Call _ set_stop => true
  | _ => false
  end.

(** The await returns: the task is not cancelled there and the driver
    does not raise. *)
Definition returns_normally (t : tick) : bool :=
  negb (cancelled t) &&
  match answer t with
  | Returns _ => true
  | Fails => false
  end.

(** The world after [ensure_controller i] has created and stopped the
    controller of id [i]. *)
Definition created (i : Z) (E : env) (w : World) : World :=
  suspend (Call (mkController (length (heap w)) i) set_stop)
    (mkWorld (with_controllers
                (<[i := mkController (length (heap w)) i]> (controllers (app w)))
                (app w))
             (locals w) (heap w ++ [mkController (length (heap w)) i])
             (trace w) (awaits w))
    (E (awaits w)).

(** No stop command follows a telemetry query. *)
Fixpoint stops_before_queries (evs : list event) : bool :=
  match evs with
  | [] => true
  | ev :: rest =>
      if is_query ev then forallb (fun e => negb (is_stop e)) rest
      else stops_before_queries rest
  end.

(** What a stretch of the monitor loop from [w] to [w'] does with the
    controllers: every stop command it sends goes to bus id 1 or 2 and comes
    with an id entering the cache, so that an id gets one stop command when
    its controller is created and none when it was cached; what is cached
    stays cached; no stop command follows a query, and a query is sent only
    with both controllers cached. *)
Definition tracks (w w' : World) : Prop :=
  exists evs,
    trace w' = trace w ++ evs /\
    (forall i, (cached_count i w + count (is_stop_on i) evs)%nat
               = cached_count i w') /\
    (forall i c, controllers (app w) !! i = Some c ->
                 controllers (app w') !! i = Some c) /\
    count is_stop evs
    = (count (is_stop_on 1) evs + count (is_stop_on 2) evs)%nat /\
    stops_before_queries evs = true /\
    (existsb is_query evs = true ->
     cached_count 1 w' = 1%nat /\ cached_count 2 w' = 1%nat).

(** The leader's stop command raises when its controller is created; the
    driver answers from then on. *)
Definition stop_fails_first : env := script [driver_fails] (answers 0 0).

(** ** Notions used in the further properties *)

(** The shape of a session's world that the coroutines rely on and keep:
    the diagnostic stream is the one [__init__] built, the cache maps a bus
    id to a controller of that id, the locals [c1], [c2] of a homing
    coroutine hold controllers of ids 1 and 2, the filter coefficient lies
    in the unit interval, and the monitoring flag is set. *)
Definition well_formed (s : Stream) (w : World) : Prop :=
  stream (app w) = s /\
  (forall i c, controllers (app w) !! i = Some c -> id c = i) /\
  (forall c, c1 (locals w) = Some c -> id c = 1) /\
  (forall c, c2 (locals w) = Some c -> id c = 2) /\
  in_unit_interval (alpha (app w)) = true /\
  monitoring (app w) = true.

(** A block run from a well-formed world leaves a well-formed world, issues
    only events that satisfy [P], and, when it falls through, yields a value
    that satisfies [Q]. *)
Definition obeys (s : Stream) (P : event -> Prop) {A} (Q : A -> Prop)
    (m : M A) : Prop :=
  forall E w, well_formed s w ->
    well_formed s (snd (m E w)) /\
    (exists evs, trace (snd (m E w)) = trace w ++ evs /\ Forall P evs) /\
    (forall a, fst (m E w) = Val a -> Q a).

(** A write that leaves the stream, the cache, the filter coefficient and
    the monitoring flag alone. *)
Definition keeps_handles (f : App -> App) : Prop :=
  forall a, stream (f a) = stream a /\ controllers (f a) = controllers a /\
            alpha (f a) = alpha a /\ monitoring (f a) = monitoring a.

(** The commands the application sends, by the actuator they go to: the
    leader (bus id 1) gets its hold command and the trigger's homing probe,
    the follower (bus id 2) its mirror command and the gripper's homing
    probe; the reference commands go through the given stream. *)
Definition permitted (s : Stream) (ev : event) : Prop :=
  match ev with
  | Call c (set_position p v t) =>
      (id c = 1 /\ p = nan /\ v = Some nan /\ t = 0.015%float) \/
      (id c = 2 /\ (exists x, p = (7 - x)%float) /\ v = None /\ t = 0.1%float) \/
      (id c = 1 /\ p = nan /\ v = Some (-0.5)%float /\ t = 0.03%float) \/
      (id c = 2 /\ p = nan /\ v = Some 0.5%float /\ t = 0.05%float)
  | Call c _ => id c = 1 \/ id c = 2
  | StreamCommand s' data =>
      s' = s /\ (data = "d exact 0"%string \/ data = "d exact 7"%string)
  | _ => True
  end.

(** The events of a pure observer: queries, stop commands at controller
    creation, and what goes to the display. *)
Definition observing (ev : event) : Prop :=
  match ev with
  | Call _ (set_position _ _ _) => False
  | StreamCommand _ _ => False
  | _ => True
  end.

(** A motion command within the 0.1 torque cap. *)
Definition within_torque_cap (ev : event) : Prop :=
  match ev with
  | Call _ (set_position _ _ t) => (t <=? 0.1)%float = true
  | _ => True
  end.

(** A reference command that goes to bus id 2. *)
Definition reference_to_gripper (ev : event) : Prop :=
  match ev with
  | StreamCommand s _ => id (stream_controller s) = 2
  | _ => True
  end.

(** The loop has been left: the model did not run out of iterations. *)
Definition left_loop {A} (r : ctl A) : bool :=
  match r with
  | Running => false
  | _ => true
  end.

(** The world after one pass of the mirror loop in which the leader
    answered with [r], the history held [prev], and nothing raised; the
    coefficient is the one in force when the leader's reply arrives. *)
Definition after_iteration (k1 k2 : Controller) (E : env) (w : World)
    (r : Result) (prev : float) : World :=
  let w1 := suspend (Call k1 (set_position nan (Some nan) 0.015)) w (E (awaits w)) in
  let filtered :=
    filter_step (alpha_after (E (awaits w)) (alpha (app w))) prev (POSITION r) in
  let w2 := suspend (Call k2 (set_position (7 - filtered) None 0.1)) w1
                    (E (S (awaits w))) in
  suspend (Sleep (1 / 1000)) (with_app (with_prevfiltpos (Some (POSITION r))) w2)
          (E (S (S (awaits w)))).

(** What the mirror loop sends for the leader readings [ps] under the
    coefficient [a], starting from the reading [q] before them: the target
    for a reading [p] is [7 - (a * q + (1 - a) * p)], computed from [p] and
    the reading before it. *)
Fixpoint mirror_events (k1 k2 : Controller) (a q : float) (ps : list float)
    : list event :=
  match ps with
  | [] => []
  | p :: ps' =>
      Call k1 (set_position nan (Some nan) 0.015)
      :: Call k2 (set_position (7 - (a * q + (1 - a) * p)) None 0.1)
      :: Sleep (1 / 1000)
      :: mirror_events k1 k2 a p ps'
  end.

(** The leader reads 1 in the first pass and 2 in the second. *)
Definition climbing : env :=
  next [answers 1 0; answers 0 0; answers 0 0; answers 2 0].

(** One pass with the leader reading 1, STOP pressed during its sleep. *)
Definition stopped_in_sleep : env :=
  next [answers 1 0; answers 0 0; pressed_stop].

(** The leader's command raises in the first pass, and so does its stop
    command. *)
Definition leader_lost : env := next [driver_fails; driver_fails].

(** The leader answers with position 1 while STOP is being pressed. *)
Definition pressed_stop_reading : tick :=
  mkTick (Returns (Some (mkResult 1 0))) false true None.

(** The probe commands of the two homing procedures. *)
Definition trigger_probe (c : Controller) : event :=
  Call c (set_position nan (Some (-0.5)%float) 0.03).

Definition gripper_probe (c : Controller) : event :=
  Call c (set_position nan (Some 0.5%float) 0.05).

(** The telemetry an await of a driver call gets at a tick. *)
Definition reading (t : tick) : option Result :=
  match answer t with
  | Returns r => r
  | Fails => None
  end.

(** The world after [k] polls of a homing loop that found no torque
    crossing: each is a probe followed by the 10 ms sleep. *)
Fixpoint after_quiet_polls (k : nat) (probe : event) (E : env) (w : World)
    : World :=
  match k with
  | O => w
  | S k' =>
      after_quiet_polls k' probe E
        (suspend (Sleep 0.01) (suspend probe w (E (awaits w))) (E (S (awaits w))))
  end.

(** [k] polls without crossing, as events. *)
Fixpoint quiet_polls (k : nat) (probe : event) : list event :=
  match k with
  | O => []
  | S k' => probe :: Sleep 0.01 :: quiet_polls k' probe
  end.

(** The world in which a homing procedure starts to seek: flag set, button
    disabled, locals bound, the actuator stopped and the pause slept. *)
Definition seeking_from (flag : App -> App) (btn : button) (k1 k2 k : Controller)
    (E : env) (w : World) : World :=
  suspend (Sleep 0.1)
    (suspend (Call k set_stop)
       (with_locals (mkFrame (Some k1) (Some k2))
          (with_app (with_button btn false)
             (with_app flag (with_locals (mkFrame None None) w))))
       (E (awaits w)))
    (E (S (awaits w))).

(** The [try:] block and the [finally:] block of [home_gripper] from the
    loop on. *)
Definition gripper_homing_rest (n : nat) : M unit :=
  try_finally
    (try_except
       (let! success := gripper_seek n in
        if success then post (showinfo "Success" "Gripper homing completed")
        else ret tt)
       (fun e => post (showerror "Error" e)))
    (modify (with_homing_gripper false) >>
     post (config homegrip_btn true) >>
     let! k := local_c2 in
     await_call (Call k set_stop) >> ret tt).


(** The [try:] block and the [finally:] block of [home_trigger] from the
    loop on. *)
Definition trigger_homing_rest (n : nat) : M unit :=
  try_finally
    (try_except
       (let! success := trigger_seek n in
        if success then post (showinfo "Success" "Trigger homing completed")
        else ret tt)
       (fun e => post (showerror "Error" e)))
    (modify (with_homing_trigger false) >>
     post (config hometrig_btn true) >>
     let! k := local_c1 in
     await_call (Call k set_stop) >> ret tt).


(** Environments that answer with zero telemetry everywhere but at one
    await: there the torque reads [torque], the driver raises, or the task
    is cancelled. *)
Definition crossing_at (i : nat) (torque : float) : env :=
  fun j => if Nat.eqb j i then answers 0 torque else answers 0 0.

Definition failing_at (i : nat) : env :=
  fun j => if Nat.eqb j i then driver_fails else answers 0 0.

Definition cancelled_at (i : nat) : env :=
  fun j => if Nat.eqb j i then mkTick (Returns None) true false None else answers 0 0.


(** * [MotorController] of [software/open_close.py]

    The velocity-mode driver of the stand-alone open/close interface: one
    controller (bus id 2), a [running] flag, the coroutines [_run] and
    [_stop].  The driver, the events and the environment are those above.
    One [_run] is followed; [stop_pressed] at a suspension point of it now
    says that [stop()] scheduled [_stop] and the event loop ran it there.
    A second [_run], which another press of Open or Close would schedule
    beside the first, is not part of the model. *)
Module OpenClose.

Record MotorController : Type := mkMotorController {
  controller : Controller;
  running : bool
}.

(** The object with the bookkeeping of the model: the events so far and the
    suspension points [_run] has passed. *)
Record Session : Type := mkSession {
  motor : MotorController;
  issued : list event;
  passed : nat
}.

(** [MotorController.__init__] *)
Definition fresh : Session :=
  mkSession (mkMotorController (mkController 0 2) false) [] 0.

Definition set_running (b : bool) (s : Session) : Session :=
  mkSession (mkMotorController (controller (motor s)) b) (issued s) (passed s).

Definition log (ev : event) (s : Session) : Session :=
  mkSession (motor s) (issued s ++ [ev]) (passed s).

(** [_stop], run by the event loop while [_run] is suspended: it clears the
    flag and sends the stop command. *)
Definition _stop (s : Session) : Session :=
  log (Call (controller (motor s)) set_stop) (set_running false s).

(** Passing a suspension point of [_run]. *)
Definition pass (ev : event) (s : Session) (t : tick) : Session :=
  let s1 := mkSession (motor s) (issued s ++ [ev]) (S (passed s)) in
  if stop_pressed t then _stop s1 else s1.

Definition C (A : Type) : Type := env -> Session -> ctl A * Session.

Definition seq {A B} (m : C A) (k : A -> C B) : C B :=
  fun E s =>
    match m E s with
    | (Val a, s') => k a E s'
    | (Ret, s') => (Ret, s')
    | (Exn e, s') => (Exn e, s')
    | (Running, s') => (Running, s')
    end.

Notation "'do!' x ':=' m 'in' k" := (seq m (fun x => k))
  (at level 10, x pattern, m at level 100, k at level 200).

Definition unit_ {A} (a : A) : C A := fun _ s => (Val a, s).
Definition assign_running (b : bool) : C unit := fun _ s => (Val tt, set_running b s).
Definition read_running : C bool := fun _ s => (Val (running (motor s)), s).
Definition self_controller : C Controller := fun _ s => (Val (controller (motor s)), s).

Definition await (ev : event) : C (option Result) :=
  fun E s =>
    let t := E (passed s) in
    let s' := pass ev s t in
    if cancelled t then (Exn CancelledError, s')
    else match answer t with
         | Returns r => (Val r, s')
         | Fails => (Exn TransportError, s')
         end.

Definition asleep (seconds : float) : C unit :=
  fun E s =>
    let t := E (passed s) in
    let s' := pass (Sleep seconds) s t in
    if cancelled t then (Exn CancelledError, s') else (Val tt, s').

(** The motion command of [_run]. *)
Definition motion (c : Controller) (velocity max_torque : float) : event :=
  Call c (set_position nan (Some velocity) max_torque).

(** The [while self.running:] loop of [_run], followed for [n] iterations. *)
Fixpoint run_loop (n : nat) (velocity max_torque : float) : C unit :=
  do! r := read_running in
  if r then
    match n with
    | O => fun _ s => (Running, s)
    | S n' =>
        do! c := self_controller in
        do! _ := await (motion c velocity max_torque) in
        do! _ := asleep (1 / 300) in
        run_loop n' velocity max_torque
    end
  else unit_ tt.

Definition _run (n : nat) (velocity max_torque : float) : C unit :=
  do! _ := assign_running false in
  do! c := self_controller in
  do! _ := await (Call c set_stop) in
  do! _ := asleep 0.02 in
  do! _ := assign_running true in
  run_loop n velocity max_torque.

(** [k] completed iterations of the loop, as events. *)
Fixpoint cycles (k : nat) (c : Controller) (velocity max_torque : float)
    : list event :=
  match k with
  | O => []
  | S k' => motion c velocity max_torque :: Sleep (1 / 300)
            :: cycles k' c velocity max_torque
  end.

(** The events since an earlier state. *)
Definition new_events (s0 s : Session) : list event :=
  drop (length (issued s0)) (issued s).

(** A computation only adds events. *)
Definition extends {A} (m : C A) : Prop :=
  forall E s, exists evs, issued (snd (m E s)) = issued s ++ evs.

(** Environments for the instances. *)
Definition quiet : tick := mkTick (Returns None) false false None.
Definition failing : tick := mkTick Fails false false None.
Definition stopping : tick := mkTick (Returns None) false true None.

(** The await number [i] behaves as [t], the others are quiet. *)
Definition quiet_but (i : nat) (t : tick) : env :=
  fun j => if Nat.eqb j i then t else quiet.
End OpenClose.
(** * Properties *)

(** ** Properties of the world that a coroutine keeps *)

(** The cases of what the GUI thread did at a suspension point. *)
Ltac suspend_cases t :=
  let v := fresh "v" in
  unfold suspend, update_alpha_app;
  destruct (stop_pressed t); destruct (alpha_pressed t) as [[v|]|];
  try destruct ((0 <=? v)%float && (v <=? 1)%float)%bool.

(** A property of the core alone is stable. *)
Lemma stable_of_core (I : World -> Prop) :
  (forall w w', core w' = core w -> I w -> I w') -> stable I.
Proof.
  intros Hc. split.
  - intros ev w t H. apply (Hc w); [|exact H].
    suspend_cases t; reflexivity.
  - intros ev w H. apply (Hc w); [reflexivity|exact H].
  - intros l w H. apply (Hc w); [reflexivity|exact H].
  - intros f w Hf H. apply (Hc w); [|exact H].
    unfold core; simpl. destruct (Hf (app w)) as (-> & -> & ->). reflexivity.
Qed.

Lemma suspend_trace ev w t : trace (suspend ev w t) = trace w ++ [ev].
Proof. suspend_cases t; reflexivity. Qed.

(** What [suspend] leaves alone. *)
Lemma suspend_awaits ev w t : awaits (suspend ev w t) = S (awaits w).
Proof. suspend_cases t; reflexivity. Qed.

Lemma suspend_locals ev w t : locals (suspend ev w t) = locals w.
Proof. suspend_cases t; reflexivity. Qed.

Lemma suspend_heap ev w t : heap (suspend ev w t) = heap w.
Proof. suspend_cases t; reflexivity. Qed.

Lemma suspend_controllers ev w t :
  controllers (app (suspend ev w t)) = controllers (app w).
Proof. suspend_cases t; reflexivity. Qed.

Lemma suspend_prevfiltpos ev w t :
  prevfiltpos (app (suspend ev w t)) = prevfiltpos (app w).
Proof. suspend_cases t; reflexivity. Qed.

(** The coefficient after the GUI thread ran at tick [t], from the
    coefficient [a] before: what [update_alpha] leaves in [self.alpha]. *)
Lemma suspend_alpha ev w t :
  alpha (app (suspend ev w t)) = alpha_after t (alpha (app w)).
Proof. unfold alpha_after, in_unit_interval. suspend_cases t; reflexivity. Qed.

Lemma suspend_alpha_kept ev w t :
  alpha_pressed t = None -> alpha (app (suspend ev w t)) = alpha (app w).
Proof. intros H. rewrite suspend_alpha. unfold alpha_after. rewrite H. reflexivity. Qed.

Lemma alpha_after_unit t a :
  in_unit_interval a = true -> in_unit_interval (alpha_after t a) = true.
Proof.
  intros H. unfold alpha_after. destruct (alpha_pressed t) as [[v|]|]; try exact H.
  destruct (in_unit_interval v) eqn:Hv; [exact Hv|exact H].
Qed.

Lemma suspend_core ev w t : core (suspend ev w t) = core w.
Proof. suspend_cases t; reflexivity. Qed.

Lemma suspend_monitoring ev w t :
  monitoring (app (suspend ev w t)) = monitoring (app w).
Proof. suspend_cases t; reflexivity. Qed.

Lemma suspend_homing_trigger ev w t :
  homing_trigger (app (suspend ev w t)) = homing_trigger (app w).
Proof. suspend_cases t; reflexivity. Qed.

Lemma suspend_homing_gripper ev w t :
  homing_gripper (app (suspend ev w t)) = homing_gripper (app w).
Proof. suspend_cases t; reflexivity. Qed.

Lemma suspend_stream ev w t : stream (app (suspend ev w t)) = stream (app w).
Proof. suspend_cases t; reflexivity. Qed.


Lemma stable_issued_since w0 pre : stable (issued_since w0 pre).
Proof.
  split.
  - intros ev w t [evs H]. exists (evs ++ [ev]).
    rewrite suspend_trace, H, <- !app_assoc. reflexivity.
  - intros ev w [evs H]. exists (evs ++ [ev]). simpl.
    rewrite H, <- !app_assoc. reflexivity.
  - intros l w H. exact H.
  - intros f w _ H. exact H.
Qed.

Section Preservation.
Context (I : World -> Prop).
Hypothesis I_stable : stable I.

Lemma preserves_ret {A} (a : A) : preserves I (ret a).
Proof. intros E w H; exact H. Qed.

Lemma preserves_raise {A} (e : exn) : preserves I (@raise A e).
Proof. intros E w H; exact H. Qed.

Lemma preserves_return {A} : preserves I (@return_ A).
Proof. intros E w H; exact H. Qed.

Lemma preserves_still_running {A} : preserves I (@still_running A).
Proof. intros E w H; exact H. Qed.

Lemma preserves_gets {A} (f : App -> A) : preserves I (gets f).
Proof. intros E w H; exact H. Qed.

Lemma preserves_bind {A B} (m : M A) (k : A -> M B) :
  preserves I m -> (forall a, preserves I (k a)) -> preserves I (bind m k).
Proof.
  intros Hm Hk E w H. unfold bind.
  specialize (Hm E w H). destruct (m E w) as [[a| |e|] w']; simpl in *; auto.
  apply Hk; exact Hm.
Qed.

Lemma preserves_try_finally {A} (body : M A) (final : M unit) :
  preserves I body -> preserves I final -> preserves I (try_finally body final).
Proof.
  intros Hb Hf E w H. unfold try_finally.
  specialize (Hb E w H). destruct (body E w) as [r w']; simpl in *.
  specialize (Hf E w' Hb).
  destruct r; destruct (final E w') as [[[]| |e'|] w'']; simpl in *; auto.
Qed.

Lemma preserves_try_except {A} (body : M A) (handler : exn -> M A) :
  preserves I body -> (forall e, preserves I (handler e)) ->
  preserves I (try_except body handler).
Proof.
  intros Hb Hh E w H. unfold try_except.
  specialize (Hb E w H). destruct (body E w) as [[a| |e|] w']; simpl in *; auto.
  destruct (is_Exception e); simpl; auto. apply Hh; exact Hb.
Qed.

Lemma preserves_coroutine (body : M unit) :
  preserves I body -> preserves I (coroutine body).
Proof.
  intros Hb E w H. unfold coroutine.
  specialize (Hb E w H). destruct (body E w) as [[a| |e|] w']; simpl in *; auto.
Qed.

Lemma preserves_suspend ev w t : I w -> I (suspend ev w t).
Proof. apply (stable_suspend I I_stable). Qed.

(** The same rules for a property established on the way. *)
Lemma after_bind {A B} (m : M A) (k : A -> M B) E w :
  I (snd (m E w)) -> (forall a, preserves I (k a)) -> I (snd (bind m k E w)).
Proof.
  intros Hm Hk. unfold bind.
  destruct (m E w) as [[a| |e|] w']; simpl in *; auto. apply Hk; exact Hm.
Qed.

Lemma after_try_except {A} (body : M A) (handler : exn -> M A) E w :
  I (snd (body E w)) -> (forall e, preserves I (handler e)) ->
  I (snd (try_except body handler E w)).
Proof.
  intros Hb Hh. unfold try_except.
  destruct (body E w) as [[a| |e|] w']; simpl in *; auto.
  destruct (is_Exception e); simpl; auto. apply Hh; exact Hb.
Qed.

Lemma preserves_await_call ev : preserves I (await_call ev).
Proof.
  intros E w H. unfold await_call.
  destruct (cancelled _); [|destruct (answer _)]; simpl;
    apply preserves_suspend; exact H.
Qed.

Lemma preserves_sleep s : preserves I (sleep s).
Proof.
  intros E w H. unfold sleep.
  destruct (cancelled _); simpl; apply preserves_suspend; exact H.
Qed.

Lemma preserves_post g : preserves I (post g).
Proof. intros E w H. apply (stable_emit I I_stable); exact H. Qed.

Lemma preserves_print e : preserves I (print e).
Proof. intros E w H. apply (stable_emit I I_stable); exact H. Qed.

Lemma preserves_enter : preserves I enter.
Proof. intros E w H. apply (stable_locals I I_stable); exact H. Qed.

Lemma preserves_local_c1 : preserves I local_c1.
Proof. intros E w H. unfold local_c1. destruct (c1 _); exact H. Qed.

Lemma preserves_local_c2 : preserves I local_c2.
Proof. intros E w H. unfold local_c2. destruct (c2 _); exact H. Qed.

(** Writes to the flags, the buttons, alpha and its entry. *)
Lemma preserves_modify (f : App -> App) :
  keeps_core f -> preserves I (modify f).
Proof. intros Hf E w H. apply (stable_flags I I_stable); assumption. Qed.

Lemma preserves_getitem i : preserves I (getitem i).
Proof.
  apply preserves_bind; [apply preserves_gets|].
  intros cs. destruct (cs !! i); [apply preserves_ret|apply preserves_raise].
Qed.

Lemma preserves_stream_command data : preserves I (stream_command data).
Proof.
  apply preserves_bind; [apply preserves_gets|]. intros s.
  apply preserves_bind; [apply preserves_await_call|]. intros _.
  apply preserves_ret.
Qed.

Lemma preserves_stop_control : preserves I stop_control.
Proof. apply preserves_modify. intros a; repeat split. Qed.

Lemma preserves_update_alpha : preserves I update_alpha.
Proof.
  apply preserves_bind; [apply preserves_gets|].
  intros [v|].
  - destruct (_ && _)%bool.
    + apply preserves_modify; intros a; repeat split.
    + apply preserves_bind; [apply preserves_gets|]. intros a0.
      apply preserves_modify; intros a; repeat split.
  - apply preserves_bind; [apply preserves_gets|]. intros a0.
    apply preserves_modify; intros a; repeat split.
Qed.

(** From here on: [I] survives the lazy creation of a controller. *)
Hypothesis I_ensure : forall i, preserves I (ensure_controller i).

Lemma preserves_initialize_controllers : preserves I initialize_controllers.
Proof.
  apply preserves_bind; [apply I_ensure|]. intros _.
  apply preserves_bind; [apply I_ensure|]. intros _.
  apply preserves_bind; [apply preserves_getitem|]. intros k1.
  apply preserves_bind; [apply preserves_getitem|]. intros k2.
  apply preserves_ret.
Qed.

Lemma preserves_bind_locals : preserves I bind_locals.
Proof.
  apply preserves_bind; [apply preserves_initialize_controllers|].
  intros ks E w H. apply (stable_locals I I_stable); exact H.
Qed.

Lemma preserves_monitor_try : preserves I monitor_try.
Proof.
  apply preserves_bind; [apply preserves_initialize_controllers|].
  intros [k1 k2].
  apply preserves_bind; [apply preserves_await_call|]. intros s1.
  apply preserves_bind; [apply preserves_await_call|]. intros s2.
  apply preserves_bind; [|intros _; apply preserves_sleep].
  destruct s1, s2; solve [apply preserves_post | apply preserves_ret].
Qed.

Lemma preserves_monitor_iteration : preserves I monitor_iteration.
Proof.
  apply preserves_try_except; [apply preserves_monitor_try|].
  intros e. apply preserves_bind; [apply preserves_print|].
  intros _. apply preserves_sleep.
Qed.

Lemma preserves_monitor_motors n : preserves I (monitor_motors n).
Proof.
  induction n as [|n IH]; simpl;
    (apply preserves_bind; [apply preserves_gets|]); intros [];
    try apply preserves_ret; try apply preserves_still_running.
  apply preserves_bind; [apply preserves_monitor_iteration|].
  intros _; exact IH.
Qed.

Lemma preserves_trigger_seek n : preserves I (trigger_seek n).
Proof.
  induction n as [|n IH]; simpl;
    (apply preserves_bind; [apply preserves_gets|]); intros [];
    try apply preserves_ret; try apply preserves_still_running.
  apply preserves_bind; [apply preserves_local_c1|]. intros k1.
  apply preserves_bind; [apply preserves_await_call|]. intros st.
  destruct (torque_below _ _).
  - apply preserves_bind; [apply preserves_stream_command|]. intros _.
    apply preserves_bind; [apply preserves_sleep|]. intros _.
    apply preserves_ret.
  - apply preserves_bind; [apply preserves_sleep|]. intros _. exact IH.
Qed.

Lemma preserves_gripper_seek n : preserves I (gripper_seek n).
Proof.
  induction n as [|n IH]; simpl;
    (apply preserves_bind; [apply preserves_gets|]); intros [];
    try apply preserves_ret; try apply preserves_still_running.
  apply preserves_bind; [apply preserves_local_c2|]. intros k2.
  apply preserves_bind; [apply preserves_await_call|]. intros st.
  destruct (torque_above _ _).
  - apply preserves_bind; [apply preserves_stream_command|]. intros _.
    apply preserves_bind; [apply preserves_sleep|]. intros _.
    apply preserves_ret.
  - apply preserves_bind; [apply preserves_sleep|]. intros _. exact IH.
Qed.

Lemma preserves_home_trigger n : preserves I (home_trigger n).
Proof.
  apply preserves_coroutine.
  apply preserves_bind; [apply preserves_enter|]. intros _.
  apply preserves_try_finally.
  - apply preserves_try_except; [|intros e; apply preserves_post].
    apply preserves_bind; [apply preserves_gets|]. intros [].
    { apply preserves_return. }
    apply preserves_bind;
      [apply preserves_modify; intros a; repeat split|]. intros _.
    apply preserves_bind;
      [apply preserves_modify; intros a; repeat split|]. intros _.
    apply preserves_bind; [apply preserves_bind_locals|]. intros _.
    apply preserves_bind; [apply preserves_local_c1|]. intros k1.
    apply preserves_bind; [apply preserves_await_call|]. intros _.
    apply preserves_bind; [apply preserves_sleep|]. intros _.
    apply preserves_bind; [apply preserves_trigger_seek|]. intros [].
    + apply preserves_post.
    + apply preserves_ret.
  - apply preserves_bind;
      [apply preserves_modify; intros a; repeat split|]. intros _.
    apply preserves_bind; [apply preserves_post|]. intros _.
    apply preserves_bind; [apply preserves_local_c1|]. intros k1.
    apply preserves_bind; [apply preserves_await_call|]. intros _.
    apply preserves_ret.
Qed.

Lemma preserves_home_gripper n : preserves I (home_gripper n).
Proof.
  apply preserves_coroutine.
  apply preserves_bind; [apply preserves_enter|]. intros _.
  apply preserves_try_finally.
  - apply preserves_try_except; [|intros e; apply preserves_post].
    apply preserves_bind; [apply preserves_gets|]. intros [].
    { apply preserves_return. }
    apply preserves_bind;
      [apply preserves_modify; intros a; repeat split|]. intros _.
    apply preserves_bind;
      [apply preserves_modify; intros a; repeat split|]. intros _.
    apply preserves_bind; [apply preserves_bind_locals|]. intros _.
    apply preserves_bind; [apply preserves_local_c2|]. intros k2.
    apply preserves_bind; [apply preserves_await_call|]. intros _.
    apply preserves_bind; [apply preserves_sleep|]. intros _.
    apply preserves_bind; [apply preserves_gripper_seek|]. intros [].
    + apply preserves_post.
    + apply preserves_ret.
  - apply preserves_bind;
      [apply preserves_modify; intros a; repeat split|]. intros _.
    apply preserves_bind; [apply preserves_post|]. intros _.
    apply preserves_bind; [apply preserves_local_c2|]. intros k2.
    apply preserves_bind; [apply preserves_await_call|]. intros _.
    apply preserves_ret.
Qed.

(** Every action but GO. *)
Lemma preserves_perform_but_go a :
  (forall n, a <> PressGo n) -> preserves I (perform a).
Proof.
  intros Hgo. destruct a as [n| | |typed|n|n|n]; simpl.
  - destruct (Hgo n); reflexivity.
  - apply preserves_stop_control.
  - apply preserves_stop_control.
  - apply preserves_bind; [|intros _; apply preserves_update_alpha].
    apply preserves_modify; intros a; repeat split.
  - apply preserves_home_trigger.
  - apply preserves_home_gripper.
  - apply preserves_monitor_motors.
Qed.

(** From here on: [I] survives the writes of the filter history, which
    all store a position. *)
Hypothesis I_prev :
  forall p w, I w -> I (with_app (with_prevfiltpos (Some p)) w).

Lemma preserves_set_prevfiltpos p :
  preserves I (modify (with_prevfiltpos (Some p))).
Proof. intros E w H. apply I_prev; exact H. Qed.

Lemma preserves_control_iteration k1 k2 : preserves I (control_iteration k1 k2).
Proof.
  apply preserves_bind; [apply preserves_await_call|]. intros st.
  apply preserves_bind;
    [destruct st; [apply preserves_ret|apply preserves_raise]|]. intros p.
  apply preserves_bind; [apply preserves_gets|]. intros a.
  apply preserves_bind; [apply preserves_gets|]. intros [prev|].
  - apply preserves_bind; [apply preserves_await_call|]. intros _.
    apply preserves_bind; [apply preserves_set_prevfiltpos|]. intros _.
    apply preserves_sleep.
  - apply preserves_raise.
Qed.

Lemma preserves_control_loop n k1 k2 : preserves I (control_loop n k1 k2).
Proof.
  induction n as [|n IH]; simpl;
    (apply preserves_bind; [apply preserves_gets|]); intros [];
    try apply preserves_ret; try apply preserves_still_running.
  apply preserves_bind; [apply preserves_control_iteration|].
  intros _; exact IH.
Qed.

Lemma preserves_motor_control n : preserves I (motor_control n).
Proof.
  apply preserves_coroutine.
  apply preserves_bind; [apply preserves_initialize_controllers|].
  intros [k1 k2].
  apply preserves_bind; [apply preserves_await_call|]. intros st.
  apply preserves_bind;
    [destruct st; [apply preserves_ret|apply preserves_raise]|]. intros p.
  apply preserves_bind; [apply preserves_set_prevfiltpos|]. intros _.
  apply preserves_try_finally; [apply preserves_control_loop|].
  apply preserves_bind; [apply preserves_await_call|]. intros _.
  apply preserves_bind; [apply preserves_await_call|]. intros _.
  apply preserves_ret.
Qed.

Lemma preserves_start_control n : preserves I (start_control n).
Proof.
  apply preserves_bind; [apply preserves_gets|]. intros [].
  { apply preserves_ret. }
  apply preserves_bind;
    [apply preserves_modify; intros a; repeat split|]. intros _.
  apply preserves_bind;
    [apply preserves_modify; intros a; repeat split|]. intros _.
  apply preserves_bind;
    [apply preserves_modify; intros a; repeat split|]. intros _.
  apply preserves_motor_control.
Qed.

Lemma preserves_perform a : preserves I (perform a).
Proof.
  destruct a as [n| | |typed|n|n|n];
    try (apply preserves_perform_but_go; intros m; discriminate).
  apply preserves_start_control.
Qed.

Lemma preserves_session E acts w : I w -> I (session E acts w).
Proof.
  revert w. induction acts as [|a acts IH]; intros w H; simpl; [exact H|].
  apply IH. apply preserves_perform; exact H.
Qed.
End Preservation.

(** ** The alpha setter *)

(** C8.  [update_alpha] never touches the filter history; it stores the
    typed value as the new coefficient exactly when the text parses as a
    number [v] with [0 <= v <= 1], and keeps the old coefficient when the
    value is outside the unit interval or the text does not parse. *)
Theorem update_alpha_validates (E : env) (w : World) :
  let w' := snd (update_alpha E w) in
  prevfiltpos (app w') = prevfiltpos (app w) /\
  alpha (app w') =
    match alpha_entry (app w) with
    | Some v => if in_unit_interval v then v else alpha (app w)
    | None => alpha (app w)
    end.
Proof.
  unfold update_alpha, in_unit_interval, bind, gets, modify; simpl.
  destruct (alpha_entry (app w)) as [v|]; simpl; [|split; reflexivity].
  destruct ((0 <=? v)%float && (v <=? 1)%float)%bool; simpl; split; reflexivity.
Qed.

(** Not-a-number and infinity parse as floats and are rejected by the
    range test. *)
Example update_alpha_rejects_nan :
  alpha (app (snd (perform (PressUpdateAlpha (Some nan))
                           (script [] driver_fails) init))) = 0.95%float.
Proof. reflexivity. Qed.

Example update_alpha_accepts_half :
  alpha (app (snd (perform (PressUpdateAlpha (Some 0.5%float))
                           (script [] driver_fails) init))) = 0.5%float.
Proof. reflexivity. Qed.

(** What the GUI thread does to the application at a suspension point when
    the operator confirms a typed alpha is what [update_alpha] does between
    coroutines. *)
Lemma update_alpha_app_performs typed E w :
  perform (PressUpdateAlpha typed) E w
  = (Val tt, with_app (update_alpha_app typed) w).
Proof.
  unfold perform, update_alpha, update_alpha_app, bind, modify, gets.
  cbn [with_app app alpha_entry with_alpha_entry fst snd].
  destruct typed as [v|]; [|reflexivity].
  destruct ((0 <=? v)%float && (v <=? 1)%float)%bool; reflexivity.
Qed.

(** ** The controller cache *)

Lemma handle_inv_init : handle_inv init.
Proof.
  split.
  - intros i. unfold cached_count.
    change (controllers (app init)) with (∅ : gmap Z Controller).
    rewrite lookup_empty.
    change (handles_for i init)
      with (length (if Z.eqb 2 i then [mkController 0 2] else [])).
    destruct (Z.eqb_spec 2 i) as [<-|Hne]; [reflexivity|].
    destruct (Z.eqb_spec i 2) as [->|_]; [congruence|reflexivity].
  - intros i c H. simpl in H. rewrite lookup_empty in H. discriminate.
Qed.

Lemma handle_inv_core w w' : core w' = core w -> handle_inv w -> handle_inv w'.
Proof.
  unfold core, handle_inv, handles_for, cached_count.
  intros H [H1 H2]. injection H as _ _ Hc Hh. rewrite Hc, Hh. split; assumption.
Qed.

Lemma ensure_controller_world i E w :
  snd (ensure_controller i E w) =
    match controllers (app w) !! i with
    | Some _ => w
    | None =>
        let c := mkController (length (heap w)) i in
        suspend (Call c set_stop)
          (mkWorld (with_controllers (<[i := c]> (controllers (app w))) (app w))
                   (locals w) (heap w ++ [c]) (trace w) (awaits w))
          (E (awaits w))
    end.
Proof.
  unfold ensure_controller, bind, gets; simpl.
  destruct (controllers (app w) !! i) as [c|] eqn:Hc; simpl; [reflexivity|].
  unfold getitem, bind, gets; simpl. rewrite lookup_insert_eq; simpl.
  unfold await_call; simpl.
  destruct (cancelled _); [reflexivity|]. destruct (answer _); reflexivity.
Qed.

Lemma handle_inv_ensure i : preserves handle_inv (ensure_controller i).
Proof.
  intros E w [H1 H2]. rewrite ensure_controller_world.
  destruct (controllers (app w) !! i) as [c|] eqn:Hc; [split; assumption|].
  simpl. apply (handle_inv_core
    (mkWorld (with_controllers
                (<[i := mkController (length (heap w)) i]> (controllers (app w)))
                (app w))
             (locals w) (heap w ++ [mkController (length (heap w)) i])
             (trace w) (awaits w))).
  { apply suspend_core. }
  split.
  - intros j. specialize (H1 j). unfold handles_for, cached_count in *; simpl.
    rewrite List.filter_app, length_app, H1; simpl.
    destruct (Z.eqb_spec i j) as [->|Hne].
    + rewrite lookup_insert_eq, Hc. simpl. lia.
    + rewrite lookup_insert_ne by exact Hne. simpl. lia.
  - intros j c; simpl. destruct (Z.eq_dec i j) as [->|Hne].
    + rewrite lookup_insert_eq. intros [= <-]. reflexivity.
    + rewrite lookup_insert_ne by exact Hne. apply H2.
Qed.

Lemma handle_inv_prev p w : handle_inv w -> handle_inv (with_app (with_prevfiltpos p) w).
Proof. intros [H1 H2]. split; assumption. Qed.

Lemma caches_core i c w w' : core w' = core w -> caches i c w -> caches i c w'.
Proof. unfold core, caches. intros H. injection H as _ _ -> _. auto. Qed.

Lemma caches_ensure i c j : preserves (caches i c) (ensure_controller j).
Proof.
  intros E w H. rewrite ensure_controller_world.
  destruct (controllers (app w) !! j) as [c'|] eqn:Hc; [exact H|].
  simpl. unfold caches in *. rewrite suspend_controllers. simpl.
  rewrite lookup_insert_ne; auto; intros ->; congruence.
Qed.

Lemma caches_prev i c p w : caches i c w -> caches i c (with_app (with_prevfiltpos p) w).
Proof. auto. Qed.

(** C7, as stated, fails: after the first monitor iteration two controller
    objects exist for bus id 2, the one [__init__] builds for the diagnostic
    stream and the one [initialize_controllers] caches. *)
Lemma two_handles_for_gripper :
  ~ (forall i, (handles_for i (session (calm 0 0) [Monitor 1] init) <= 1)%nat).
Proof.
  intros H. specialize (H 2).
  assert (Hc : handles_for 2 (session (calm 0 0) [Monitor 1] init) = 2%nat)
    by (vm_compute; reflexivity).
  rewrite Hc in H. lia.
Qed.

(** C7, amended.  Throughout a session the cache [self.controllers] is
    filled lazily and holds at most one controller per bus id: a controller
    object exists for an id exactly when the id is cached, except for the one
    extra object [__init__] builds eagerly for id 2 (the diagnostic stream's);
    so there is at most one object for id 1 and at most two for id 2.  A
    cached controller addresses the id it is cached under, and every later
    use finds the same object. *)
Theorem controller_cache_lazy_and_stable (E : env) (acts : list action) :
  let w := session E acts init in
  (forall i, handles_for i w
             = ((if Z.eqb i 2 then 1 else 0) + cached_count i w)%nat) /\
  (handles_for 1 w <= 1)%nat /\
  (handles_for 2 w <= 2)%nat /\
  (forall i c, controllers (app w) !! i = Some c ->
     id c = i /\
     forall E' acts', controllers (app (session E' acts' w)) !! i = Some c).
Proof.
  intros w.
  assert (Hinv : handle_inv w).
  { apply (preserves_session handle_inv (stable_of_core _ handle_inv_core)
                               handle_inv_ensure
                               (fun p => handle_inv_prev (Some p))).
    exact handle_inv_init. }
  destruct Hinv as [H1 H2].
  split; [exact H1|]. split; [|split].
  - rewrite H1. unfold cached_count. simpl.
    destruct (controllers (app w) !! 1); lia.
  - rewrite H1. unfold cached_count. simpl.
    destruct (controllers (app w) !! 2); lia.
  - intros i c Hc. split; [apply H2; exact Hc|].
    intros E' acts'.
    apply (preserves_session (caches i c) (stable_of_core _ (caches_core i c))
                             (caches_ensure i c)
                             (fun p => caches_prev i c (Some p))).
    exact Hc.
Qed.

(** ** The filter history *)




(** ** Following a coroutine step by step *)

Lemma bind_Val {A B} (m : M A) (k : A -> M B) E w a w' :
  m E w = (Val a, w') -> bind m k E w = k a E w'.
Proof. intros H. unfold bind. rewrite H. reflexivity. Qed.

Lemma bind_Exn {A B} (m : M A) (k : A -> M B) E w e w' :
  m E w = (Exn e, w') -> bind m k E w = (Exn e, w').
Proof. intros H. unfold bind. rewrite H. reflexivity. Qed.

Lemma bind_Ret {A B} (m : M A) (k : A -> M B) E w w' :
  m E w = (Ret, w') -> bind m k E w = (Ret, w').
Proof. intros H. unfold bind. rewrite H. reflexivity. Qed.

Lemma bind_Running {A B} (m : M A) (k : A -> M B) E w w' :
  m E w = (Running, w') -> bind m k E w = (Running, w').
Proof. intros H. unfold bind. rewrite H. reflexivity. Qed.

Lemma bind_gets {A B} (f : App -> A) (k : A -> M B) E w :
  bind (gets f) k E w = k (f (app w)) E w.
Proof. reflexivity. Qed.

Lemma bind_modify {B} (f : App -> App) (k : unit -> M B) E w :
  bind (modify f) k E w = k tt E (with_app f w).
Proof. reflexivity. Qed.

Lemma bind_ret {A B} (a : A) (k : A -> M B) E w :
  bind (ret a) k E w = k a E w.
Proof. reflexivity. Qed.

Lemma bind_post {B} g (k : unit -> M B) E w :
  bind (post g) k E w = k tt E (emit (After g) w).
Proof. reflexivity. Qed.

Lemma bind_print {B} e (k : unit -> M B) E w :
  bind (print e) k E w = k tt E (emit (Stdout e) w).
Proof. reflexivity. Qed.


Lemma await_call_returns ev E w r :
  cancelled (E (awaits w)) = false -> answer (E (awaits w)) = Returns r ->
  await_call ev E w = (Val r, suspend ev w (E (awaits w))).
Proof. intros Hc Ha. unfold await_call. rewrite Hc, Ha. reflexivity. Qed.

Lemma await_call_fails ev E w :
  cancelled (E (awaits w)) = false -> answer (E (awaits w)) = Fails ->
  await_call ev E w = (Exn TransportError, suspend ev w (E (awaits w))).
Proof. intros Hc Ha. unfold await_call. rewrite Hc, Ha. reflexivity. Qed.

Lemma await_call_cancelled ev E w :
  cancelled (E (awaits w)) = true ->
  await_call ev E w = (Exn CancelledError, suspend ev w (E (awaits w))).
Proof. intros Hc. unfold await_call. rewrite Hc. reflexivity. Qed.

Lemma sleep_done s E w :
  cancelled (E (awaits w)) = false ->
  sleep s E w = (Val tt, suspend (Sleep s) w (E (awaits w))).
Proof. intros Hc. unfold sleep. rewrite Hc. reflexivity. Qed.

Lemma sleep_cancelled s E w :
  cancelled (E (awaits w)) = true ->
  sleep s E w = (Exn CancelledError, suspend (Sleep s) w (E (awaits w))).
Proof. intros Hc. unfold sleep. rewrite Hc. reflexivity. Qed.

(** With both controllers cached, [initialize_controllers] only reads. *)
Lemma ensure_cached i c E w :
  controllers (app w) !! i = Some c -> ensure_controller i E w = (Val tt, w).
Proof.
  intros H. unfold ensure_controller. rewrite bind_gets, H. reflexivity.
Qed.

Lemma getitem_cached i c E w :
  controllers (app w) !! i = Some c -> getitem i E w = (Val c, w).
Proof. intros H. unfold getitem. rewrite bind_gets, H. reflexivity. Qed.

Lemma initialize_controllers_cached E w k1 k2 :
  controllers (app w) !! 1 = Some k1 ->
  controllers (app w) !! 2 = Some k2 ->
  initialize_controllers E w = (Val (k1, k2), w).
Proof.
  intros H1 H2. unfold initialize_controllers.
  rewrite (bind_Val _ _ _ _ _ _ (ensure_cached _ _ _ _ H1)).
  rewrite (bind_Val _ _ _ _ _ _ (ensure_cached _ _ _ _ H2)).
  rewrite (bind_Val _ _ _ _ _ _ (getitem_cached _ _ _ _ H1)).
  rewrite (bind_Val _ _ _ _ _ _ (getitem_cached _ _ _ _ H2)).
  reflexivity.
Qed.















(** ** Re-entering a homing procedure *)

(** The [return] of the entry guard sits inside the [try:], so the
    [finally:] block runs: it clears the flag, re-enables the button, and
    then reads the local [c1], which this invocation never bound. *)
Lemma home_trigger_reentry n E w :
  homing_trigger (app w) = true ->
  home_trigger n E w =
    (Exn UnboundLocalError,
     emit (After (config hometrig_btn true))
          (with_app (with_homing_trigger false)
                    (with_locals (mkFrame None None) w))).
Proof.
  intros H. unfold home_trigger, coroutine, try_finally, try_except, enter, bind.
  cbn [gets app with_locals]. rewrite H. reflexivity.
Qed.

Lemma home_gripper_reentry n E w :
  homing_gripper (app w) = true ->
  home_gripper n E w =
    (Exn UnboundLocalError,
     emit (After (config homegrip_btn true))
          (with_app (with_homing_gripper false)
                    (with_locals (mkFrame None None) w))).
Proof.
  intros H. unfold home_gripper, coroutine, try_finally, try_except, enter, bind.
  cbn [gets app with_locals]. rewrite H. reflexivity.
Qed.

(** C5: the code does not do this.  A second [home_trigger] while the first
    is seeking issues no actuator command, but it does not return quietly:
    it clears [homing_trigger], posts the re-enabling of the button and ends
    with [UnboundLocalError]; the seeking loop of the first invocation then
    finds its flag cleared and stops without success.  [home_gripper] does
    the same with [homing_gripper]. *)
Theorem home_reentry_clears_flag :
  (homing_trigger (app seeking_trigger) = true /\
   let r := home_trigger 5 (calm 0 0) seeking_trigger in
   fst r = Exn UnboundLocalError /\
   homing_trigger (app (snd r)) = false /\
   since seeking_trigger (snd r) = [After (config hometrig_btn true)] /\
   fst (trigger_seek 5 (calm 0 0) (snd r)) = Val false) /\
  (homing_gripper (app seeking_gripper) = true /\
   let r := home_gripper 5 (calm 0 0) seeking_gripper in
   fst r = Exn UnboundLocalError /\
   homing_gripper (app (snd r)) = false /\
   since seeking_gripper (snd r) = [After (config homegrip_btn true)] /\
   fst (gripper_seek 5 (calm 0 0) (snd r)) = Val false).
Proof. vm_compute. repeat split; reflexivity. Qed.

(** ** The filter of the mirror loop *)

(** C2: the code does not do this.  After an update the loop stores the raw
    position, not the filtered one, as [prevfiltpos]: with alpha 0.5, seed 0
    and readings 1, 1 the history after the first update is 1 (the filtered
    value is 0.5), and the second follower target is 7 - 1 = 6, where the
    recurrence [filtered = alpha * previous_filtered + (1 - alpha) * raw]
    gives 0.75 and the target 6.25. *)
Theorem filter_history_is_raw_position :
  let go n := session step_input [PressUpdateAlpha (Some 0.5%float); PressGo n] init in
  prevfiltpos (app (go 0%nat)) = Some 0%float /\
  prevfiltpos (app (go 1%nat)) = Some 1%float /\
  filter_step 0.5 0 1 = 0.5%float /\
  List.filter follower_command (trace (go 5%nat))
    = [Call (mkController 2 2) (set_position 6.5 None 0.1);
       Call (mkController 2 2) (set_position 6 None 0.1)] /\
  filter_step 0.5 (filter_step 0.5 0 1) 1 = 0.75%float /\
  (7 - filter_step 0.5 (filter_step 0.5 0 1) 1 =? 6)%float = false.
Proof. vm_compute. repeat split; reflexivity. Qed.

(** ** Leaving the mirror loop *)

(** C1: the code does not do this.  When the loop is left by an exception
    and the leader's [set_stop] in the [finally:] block raises as well, the
    block is abandoned before the follower's [set_stop]: the follower gets
    no stop command. *)
Theorem follower_not_stopped_when_leader_stop_raises :
  let r := perform (PressGo 5) leader_unreachable launched in
  fst r = Exn TransportError /\
  since launched (snd r)
    = [Call (mkController 1 1) query;
       Call (mkController 1 1) (set_position nan (Some nan) 0.015);
       Call (mkController 1 1) set_stop] /\
  count (is_stop_on 2) (since launched (snd r)) = 0%nat.
Proof. vm_compute. repeat split; reflexivity. Qed.

(** ** Homing *)

(** C4: the code does not do this for the leader.  Homing the trigger
    succeeds on the third poll and issues one reference command, [d exact 0],
    and no probe after it; but the command goes through [self.stream], which
    [__init__] builds on [moteus.Controller(id=2)], so it reaches the gripper
    (bus id 2) and the trigger (bus id 1) gets none.  Homing the gripper
    issues its one [d exact 7] to bus id 2, as claimed. *)
Theorem trigger_reference_sent_to_gripper :
  (let r := perform (PressHomeTrigger 5) trigger_hits_stop init in
   fst r = Val tt /\
   count is_probe (trace (snd r)) = 3%nat /\
   List.filter is_stream_command (trace (snd r))
     = [StreamCommand (mkStream (mkController 0 2)) "d exact 0"] /\
   map target (List.filter is_stream_command (trace (snd r))) = [Some 2] /\
   last (List.filter is_call (trace (snd r))) = Some (Call (mkController 1 1) set_stop) /\
   In (After (showinfo "Success" "Trigger homing completed")) (trace (snd r))) /\
  (let r := perform (PressHomeGripper 5) gripper_hits_stop init in
   fst r = Val tt /\
   count is_probe (trace (snd r)) = 2%nat /\
   List.filter is_stream_command (trace (snd r))
     = [StreamCommand (mkStream (mkController 0 2)) "d exact 7"] /\
   map target (List.filter is_stream_command (trace (snd r))) = [Some 2] /\
   In (After (showinfo "Success" "Gripper homing completed")) (trace (snd r))).
Proof.
  vm_compute. repeat split; try reflexivity.
  all: repeat (first [left; reflexivity | right]).
Qed.

(** ** The commands of the mirror loop *)

Lemma since_app w w' evs : trace w' = trace w ++ evs -> since w w' = evs.
Proof. intros H. unfold since. rewrite H. apply drop_app_length. Qed.

Ltac split_ticks :=
  repeat (match goal with
          | |- context [if ?b then _ else _] => destruct b
          | |- context [match answer ?t with _ => _ end] => destruct (answer t)
          | |- context [match ?r with Some _ => _ | None => _ end] => destruct r
          end;
          cbn [fst snd app prevfiltpos with_app with_prevfiltpos trace];
          rewrite ?suspend_prevfiltpos, ?suspend_trace).

Lemma control_iteration_events k1 k2 E w :
  exists evs, trace (snd (control_iteration k1 k2 E w)) = trace w ++ evs /\
              Forall (loop_event k1 k2) evs.
Proof.
  unfold control_iteration, bind, await_call, sleep, values_POSITION,
    gets, modify, ret, raise.
  split_ticks; cbn [trace with_app]; rewrite ?suspend_trace, <- ?app_assoc;
    (eexists; split; [reflexivity|]);
    repeat (apply Forall_cons_2;
            [first [left; reflexivity
                   |right; left; eexists; reflexivity
                   |right; right; reflexivity]|]);
    apply Forall_nil_2.
Qed.

Lemma control_loop_events n k1 k2 E w :
  exists evs, trace (snd (control_loop n k1 k2 E w)) = trace w ++ evs /\
              Forall (loop_event k1 k2) evs.
Proof.
  revert w. induction n as [|n IH]; intros w; simpl; rewrite bind_gets;
    destruct (running (app w));
    try (exists []; rewrite app_nil_r; split; [reflexivity|apply Forall_nil_2]).
  destruct (control_iteration_events k1 k2 E w) as (evs & Ht & Hevs).
  unfold bind. destruct (control_iteration k1 k2 E w) as [[[]| |e|] w1];
    simpl in *; try (exists evs; split; assumption).
  destruct (IH w1) as (evs' & Ht' & Hevs').
  exists (evs ++ evs'). rewrite Ht', Ht, app_assoc. split; [reflexivity|].
  apply Forall_app; split; assumption.
Qed.

(** With the leader's reply in hand, the pass commands the follower.  The
    target is 7 minus the value of l.177, computed from [self.alpha] and
    [self.prevfiltpos] as they are when the reply has arrived. *)
Lemma control_iteration_commands k1 k2 E w r prev :
  cancelled (E (awaits w)) = false ->
  answer (E (awaits w)) = Returns (Some r) ->
  prevfiltpos (app w) = Some prev ->
  let a := alpha_after (E (awaits w)) (alpha (app w)) in
  exists rest,
    trace (snd (control_iteration k1 k2 E w)) =
      trace w ++
      Call k1 (set_position nan (Some nan) 0.015)
      :: Call k2 (set_position (7 - (a * prev + (1 - a) * POSITION r)) None 0.1)
      :: rest.
Proof.
  intros Hc Ha Hp a. unfold control_iteration.
  rewrite (bind_Val _ _ _ _ _ _ (await_call_returns _ _ _ _ Hc Ha)).
  cbn [values_POSITION]. rewrite bind_ret, !bind_gets.
  rewrite suspend_prevfiltpos, suspend_alpha, Hp. fold a.
  unfold bind, await_call, sleep, modify, filter_step.
  split_ticks; cbn [trace with_app]; rewrite ?suspend_trace, <- ?app_assoc;
    eexists; reflexivity.
Qed.

(** At the head of every pass entered with [running] set, the loop sends
    the leader its hold command with [maximum_torque=0.015], and, once the
    leader has answered with position [p], commands the follower to
    [7 - (alpha * prevfiltpos + (1 - alpha) * p)] with [maximum_torque=0.1],
    [alpha] being the coefficient in force when the reply arrives and
    [prevfiltpos] the stored history.  No other command is issued inside the
    loop: every event of the loop is one of these two commands or the sleep
    of the control period. *)
Theorem mirror_loop_commands (n : nat) (E : env) (w : World)
    (k1 k2 : Controller) (r : Result) (prev : float) :
  running (app w) = true ->
  cancelled (E (awaits w)) = false ->
  answer (E (awaits w)) = Returns (Some r) ->
  prevfiltpos (app w) = Some prev ->
  let a := alpha_after (E (awaits w)) (alpha (app w)) in
  (exists rest,
     since w (snd (control_loop (S n) k1 k2 E w)) =
       Call k1 (set_position nan (Some nan) 0.015)
       :: Call k2 (set_position (7 - (a * prev + (1 - a) * POSITION r)) None 0.1)
       :: rest) /\
  Forall (loop_event k1 k2) (since w (snd (control_loop (S n) k1 k2 E w))).
Proof.
  intros Hr Hc Ha Hp a. split.
  - destruct (control_iteration_commands k1 k2 E w r prev Hc Ha Hp) as (rest & Ht).
    fold a in Ht.
    simpl. rewrite bind_gets, Hr. unfold bind.
    destruct (control_iteration k1 k2 E w) as [[[]| |e|] w1]; simpl in *;
      try (exists rest; apply since_app; exact Ht).
    destruct (control_loop_events n k1 k2 E w1) as (evs & Ht' & _).
    exists (rest ++ evs). apply since_app. rewrite Ht', Ht, <- app_assoc.
    reflexivity.
  - destruct (control_loop_events (S n) k1 k2 E w) as (evs & Ht & Hevs).
    rewrite (since_app _ _ _ Ht). exact Hevs.
Qed.

(** A pass in which the coefficient is changed while the leader is read:
    the history is 0, the reading 1, and 0.25 is typed and confirmed during
    the await; the target is 7 - (0.25 * 0 + 0.75 * 1) = 6.25. *)
Lemma mirror_loop_commands_witness :
  exists rest,
    since seeded
      (snd (control_loop 1 (mkController 1 1) (mkController 2 2) retuned seeded))
    = Call (mkController 1 1) (set_position nan (Some nan) 0.015)
      :: Call (mkController 2 2) (set_position 6.25 None 0.1)
      :: rest.
Proof.
  exact (proj1 (mirror_loop_commands 0 retuned seeded
                  (mkController 1 1) (mkController 2 2) (mkResult 1 0) 0%float
                  eq_refl eq_refl eq_refl eq_refl)).
Defined.

(** C3: the code does not do this from the second pass on.  With alpha 0.5,
    seed 0 and the leader reading 1 in both passes, the loop sends the
    leader its hold command with torque cap 0.015 and the follower a target
    with torque cap 0.1 in every pass, as claimed; the first target is
    7 - 0.5 = 6.5, seven minus the filtered position.  The second target is
    6: seven minus [0.5 * 1 + 0.5 * 1], computed from the raw reading the
    first pass stored, where the filtered leader position is
    [0.5 * 0.5 + 0.5 * 1 = 0.75] and the claimed target 6.25. *)
Theorem follower_target_misses_filtered_position :
  let w0 := session step_input [PressUpdateAlpha (Some 0.5%float)] init in
  let w := session step_input [PressUpdateAlpha (Some 0.5%float); PressGo 5] init in
  since w0 w
  = [Call (mkController 1 1) set_stop;
     Call (mkController 2 2) set_stop;
     Call (mkController 1 1) query;
     Call (mkController 1 1) (set_position nan (Some nan) 0.015);
     Call (mkController 2 2) (set_position 6.5 None 0.1);
     Sleep (1 / 1000);
     Call (mkController 1 1) (set_position nan (Some nan) 0.015);
     Call (mkController 2 2) (set_position 6 None 0.1);
     Sleep (1 / 1000);
     Call (mkController 1 1) set_stop;
     Call (mkController 2 2) set_stop] /\
  (7 - (0.5 * 0 + (1 - 0.5) * 1) = 6.5)%float /\
  (0.5 * (0.5 * 0 + (1 - 0.5) * 1) + (1 - 0.5) * 1 = 0.75)%float /\
  (7 - 0.75 = 6.25)%float /\
  (6.25 =? 6)%float = false.
Proof. vm_compute. repeat split; reflexivity. Qed.

(** ** The monitor loop under query failures *)

Lemma tame_bind {A B} (m : M A) (k : A -> M B) :
  tame m -> (forall a, tame (k a)) -> tame (bind m k).
Proof.
  intros Hm Hk E w HE. unfold bind. specialize (Hm E w HE).
  destruct (m E w) as [[a| |e|] w']; simpl in *; auto. apply Hk; exact HE.
Qed.

Lemma tame_await_call ev : tame (await_call ev).
Proof.
  intros E w HE. unfold await_call. rewrite HE.
  destruct (answer _); simpl; auto.
Qed.

Lemma tame_sleep s : tame (sleep s).
Proof. intros E w HE. unfold sleep. rewrite HE. exact Logic.I. Qed.

Lemma tame_getitem i : tame (getitem i).
Proof.
  intros E w HE. unfold getitem. rewrite bind_gets.
  destruct (_ !! i); simpl; auto.
Qed.

Lemma tame_ensure_controller i : tame (ensure_controller i).
Proof.
  intros E w HE. unfold ensure_controller. rewrite bind_gets.
  destruct (_ !! i); [exact Logic.I|].
  unfold new_Controller. unfold bind at 1. rewrite bind_modify.
  apply tame_bind; [apply tame_getitem| |exact HE].
  intros c. apply tame_bind; [apply tame_await_call|]. intros _ E' w' _. exact Logic.I.
Qed.

Lemma tame_initialize_controllers : tame initialize_controllers.
Proof.
  unfold initialize_controllers.
  apply tame_bind; [apply tame_ensure_controller|intros _].
  apply tame_bind; [apply tame_ensure_controller|intros _].
  apply tame_bind; [apply tame_getitem|intros k1].
  apply tame_bind; [apply tame_getitem|intros k2].
  intros E w _. exact Logic.I.
Qed.

Lemma tame_monitor_try : tame monitor_try.
Proof.
  unfold monitor_try.
  apply tame_bind; [apply tame_initialize_controllers|intros [k1 k2]].
  apply tame_bind; [apply tame_await_call|intros s1].
  apply tame_bind; [apply tame_await_call|intros s2].
  apply tame_bind; [|intros _; apply tame_sleep].
  destruct s1, s2; intros E w _; exact Logic.I.
Qed.

(** Without a cancellation an iteration always falls through to the next
    test of [self.monitoring]. *)
Lemma monitor_iteration_falls_through E w :
  (forall k, cancelled (E k) = false) -> fst (monitor_iteration E w) = Val tt.
Proof.
  intros HE. unfold monitor_iteration, try_except.
  pose proof (tame_monitor_try E w HE) as Hc.
  destruct (monitor_try E w) as [[[]| |e|] w1]; simpl in *;
    try reflexivity; try contradiction.
  rewrite Hc, bind_print. unfold sleep. rewrite HE. reflexivity.
Qed.

Lemma monitoring_core b w w' :
  core w' = core w -> monitoring (app w) = b -> monitoring (app w') = b.
Proof. unfold core. intros H. injection H as -> _ _ _. auto. Qed.

Lemma monitoring_ensure b i :
  preserves (fun w => monitoring (app w) = b) (ensure_controller i).
Proof.
  intros E w H. rewrite ensure_controller_world.
  destruct (controllers (app w) !! i); [exact H|].
  simpl. rewrite suspend_monitoring. exact H.
Qed.

Lemma monitoring_kept E w :
  monitoring (app (snd (monitor_iteration E w))) = monitoring (app w).
Proof.
  apply (preserves_monitor_iteration
           (fun w' => monitoring (app w') = monitoring (app w))
           (stable_of_core _ (monitoring_core _)) (monitoring_ensure _)).
  reflexivity.
Qed.

Lemma after_polls_S n E w :
  after_polls n E (snd (monitor_iteration E w)) = after_polls (S n) E w.
Proof.
  unfold after_polls. induction n as [|n IH]; simpl; [reflexivity|].
  rewrite IH. reflexivity.
Qed.

Lemma monitoring_after_polls n E w :
  monitoring (app (after_polls n E w)) = monitoring (app w).
Proof.
  induction n as [|n IH]; [reflexivity|].
  change (after_polls (S n) E w)
    with (snd (monitor_iteration E (after_polls n E w))).
  rewrite monitoring_kept. exact IH.
Qed.

(** The loop is still running after any number of iterations. *)
Lemma monitor_motors_keeps_running n E w :
  monitoring (app w) = true ->
  (forall k, cancelled (E k) = false) ->
  monitor_motors n E w = (Running, after_polls n E w).
Proof.
  intros Hm HE. revert w Hm.
  induction n as [|n IH]; intros w Hm; cbn [monitor_motors];
    rewrite bind_gets, Hm; [reflexivity|].
  pose proof (monitor_iteration_falls_through E w HE) as Hv.
  destruct (monitor_iteration E w) as [r w1] eqn:Hit. simpl in Hv. subst r.
  rewrite (bind_Val _ _ _ _ _ _ Hit).
  rewrite IH.
  - rewrite <- after_polls_S, Hit. reflexivity.
  - change w1 with (snd (Val tt, w1)). rewrite <- Hit, monitoring_kept. exact Hm.
Qed.

(** The trace only grows. *)
Lemma issued_since_ensure w0 pre i :
  preserves (issued_since w0 pre) (ensure_controller i).
Proof.
  intros E w [evs H]. rewrite ensure_controller_world.
  destruct (controllers (app w) !! i); [exists evs; exact H|].
  simpl. eexists. rewrite suspend_trace. simpl. rewrite H, <- !app_assoc.
  reflexivity.
Qed.

Lemma issued_since_refl w : issued_since w [] w.
Proof. exists []. rewrite !app_nil_r. reflexivity. Qed.

(** A failed poll is reported and followed by the one-second backoff. *)
Lemma failed_poll_backs_off E w :
  (forall k, cancelled (E k) = false) ->
  poll_failed E w = true ->
  exists evs e,
    since w (snd (monitor_iteration E w)) = evs ++ [Stdout e; Sleep 1].
Proof.
  intros HE Hf. unfold poll_failed in Hf.
  pose proof (preserves_monitor_try (issued_since w [])
                (stable_issued_since w []) (issued_since_ensure w []) E w
                (issued_since_refl w)) as [evs Hevs].
  unfold monitor_iteration, try_except.
  destruct (monitor_try E w) as [[[]| |e|] w1]; simpl in *; try discriminate.
  rewrite Hf, bind_print. unfold sleep; rewrite HE; simpl.
  exists evs, e. apply since_app.
  rewrite suspend_trace. simpl. rewrite Hevs, <- !app_assoc. reflexivity.
Qed.

Lemma await_call_world ev E w :
  snd (await_call ev E w) = suspend ev w (E (awaits w)).
Proof.
  unfold await_call. destruct (cancelled _); [reflexivity|].
  destruct (answer _); reflexivity.
Qed.

(** Every iteration starts by calling the driver. *)
Lemma monitor_iteration_calls_driver E w :
  exists c cmd rest,
    since w (snd (monitor_iteration E w)) = Call c cmd :: rest.
Proof.
  assert (Hwrap : forall c cmd,
             issued_since w [Call c cmd] (snd (monitor_try E w)) ->
             exists c cmd rest,
               since w (snd (monitor_iteration E w)) = Call c cmd :: rest).
  { intros c cmd Htry.
    pose proof (stable_issued_since w [Call c cmd]) as St.
    assert (Hit : issued_since w [Call c cmd] (snd (monitor_iteration E w))).
    { unfold monitor_iteration.
      apply (after_try_except (issued_since w [Call c cmd])); [exact Htry|].
      intros e.
      apply preserves_bind; [apply preserves_print, St|intros _].
      apply preserves_sleep, St. }
    destruct Hit as [evs H]. exists c, cmd, evs. apply since_app. exact H. }
  assert (Hnow : forall c cmd w1 t,
             trace w1 = trace w ->
             issued_since w [Call c cmd] (suspend (Call c cmd) w1 t)).
  { intros c cmd w1 t H. exists []. rewrite suspend_trace, H. reflexivity. }
  assert (Htail : forall c cmd k2 s1,
    preserves (issued_since w [Call c cmd])
      (let! state2 := await_call (Call k2 query) in
       match s1, state2 with
       | Some s1, Some s2 =>
           post (update_positions (POSITION s1) (POSITION s2) (TORQUE s1) (TORQUE s2))
       | _, _ => ret tt
       end >> sleep (1 / 1000))).
  { intros c cmd k2 s1.
    pose proof (stable_issued_since w [Call c cmd]) as St.
    apply preserves_bind; [apply preserves_await_call, St|intros s2].
    apply preserves_bind; [|intros _; apply preserves_sleep, St].
    destruct s1, s2; solve [apply preserves_post, St | apply preserves_ret]. }
  assert (Hpoll : forall c cmd ks,
    preserves (issued_since w [Call c cmd])
      (let '(k1, k2) := ks in
       let! state1 := await_call (Call k1 query) in
       let! state2 := await_call (Call k2 query) in
       match state1, state2 with
       | Some s1, Some s2 =>
           post (update_positions (POSITION s1) (POSITION s2) (TORQUE s1) (TORQUE s2))
       | _, _ => ret tt
       end >> sleep (1 / 1000))).
  { intros c cmd [k1 k2].
    apply preserves_bind;
      [apply preserves_await_call, stable_issued_since|intros s1].
    apply Htail. }
  assert (Hfresh : forall i,
             controllers (app w) !! i = None ->
             issued_since w [Call (mkController (length (heap w)) i) set_stop]
                          (snd (ensure_controller i E w))).
  { intros i Hi. rewrite ensure_controller_world, Hi. apply Hnow. reflexivity. }
  destruct (controllers (app w) !! 1) as [k1|] eqn:H1;
    [destruct (controllers (app w) !! 2) as [k2|] eqn:H2|].
  - (* both cached: the first call is the leader's query *)
    apply (Hwrap k1 query). unfold monitor_try.
    rewrite (bind_Val _ _ _ _ _ _ (initialize_controllers_cached _ _ _ _ H1 H2)).
    cbv beta iota.
    apply (after_bind (issued_since w [Call k1 query]));
      [|intros s1; apply Htail].
    rewrite await_call_world. apply Hnow. reflexivity.
  - (* the gripper's controller is created and stopped first *)
    apply (Hwrap (mkController (length (heap w)) 2) set_stop).
    unfold monitor_try.
    apply (after_bind (issued_since w [Call (mkController (length (heap w)) 2) set_stop]));
      [|intros ks; apply Hpoll].
    unfold initialize_controllers.
    rewrite (bind_Val _ _ _ _ _ _ (ensure_cached _ _ _ _ H1)).
    apply (after_bind (issued_since w [Call (mkController (length (heap w)) 2) set_stop]));
      [apply Hfresh; exact H2|]. intros _.
    apply preserves_bind; [apply preserves_getitem|intros ?].
    apply preserves_bind; [apply preserves_getitem|intros ?].
    apply preserves_ret.
  - (* the trigger's controller is created and stopped first *)
    apply (Hwrap (mkController (length (heap w)) 1) set_stop).
    unfold monitor_try.
    apply (after_bind (issued_since w [Call (mkController (length (heap w)) 1) set_stop]));
      [|intros ks; apply Hpoll].
    unfold initialize_controllers.
    apply (after_bind (issued_since w [Call (mkController (length (heap w)) 1) set_stop]));
      [apply Hfresh; exact H1|]. intros _.
    apply preserves_bind; [apply issued_since_ensure|intros _].
    apply preserves_bind; [apply preserves_getitem|intros ?].
    apply preserves_bind; [apply preserves_getitem|intros ?].
    apply preserves_ret.
Qed.

(** C9.  Query failures never end the monitor loop.  As long as the task
    is not cancelled, after [N] consecutive iterations whose [try:] body
    raised, the loop is still running with [self.monitoring] set; each
    failed iteration printed the error and slept the one-second backoff as
    its last step; and iteration [N+1] is carried out, starting with a call
    to the driver. *)
Theorem monitor_survives_failures (N : nat) (E : env) (w : World) :
  monitoring (app w) = true ->
  (forall k, cancelled (E k) = false) ->
  (forall j, (j < N)%nat -> poll_failed E (after_polls j E w) = true) ->
  monitor_motors N E w = (Running, after_polls N E w) /\
  monitoring (app (after_polls N E w)) = true /\
  (forall j, (j < N)%nat ->
     exists evs e,
       since (after_polls j E w) (after_polls (S j) E w)
         = evs ++ [Stdout e; Sleep 1]) /\
  monitor_motors (S N) E w = (Running, after_polls (S N) E w) /\
  exists c cmd rest,
    since (after_polls N E w) (after_polls (S N) E w) = Call c cmd :: rest.
Proof.
  intros Hm HE Hfail. repeat split.
  - apply monitor_motors_keeps_running; assumption.
  - rewrite monitoring_after_polls. exact Hm.
  - intros j Hj. apply failed_poll_backs_off; [exact HE|]. apply Hfail, Hj.
  - apply monitor_motors_keeps_running; assumption.
  - apply monitor_iteration_calls_driver.
Qed.

(** Three polls of a driver that always raises. *)
Lemma monitor_survives_failures_witness :
  monitor_motors 3 (always driver_fails) init
    = (Running, after_polls 3 (always driver_fails) init) /\
  exists c cmd rest,
    since (after_polls 3 (always driver_fails) init)
          (after_polls 4 (always driver_fails) init) = Call c cmd :: rest.
Proof.
  assert (Hf : forall j, (j < 3)%nat ->
             poll_failed (always driver_fails)
                         (after_polls j (always driver_fails) init) = true).
  { intros [|[|[|j]]] Hj; try reflexivity. lia. }
  destruct (monitor_survives_failures 3 (always driver_fails) init
              eq_refl (fun _ => eq_refl) Hf) as (H1 & _ & _ & _ & H5).
  split; [exact H1|exact H5].
Defined.

(** ** The stop command at controller creation *)

Lemma returns_normally_inv t :
  returns_normally t = true ->
  cancelled t = false /\ exists r, answer t = Returns r.
Proof.
  unfold returns_normally. destruct (cancelled t); [discriminate|].
  destruct (answer t) as [r|]; [eauto|discriminate].
Qed.

Lemma ensure_missing_returns i E w :
  controllers (app w) !! i = None ->
  returns_normally (E (awaits w)) = true ->
  ensure_controller i E w =
    (Val tt,
     suspend (Call (mkController (length (heap w)) i) set_stop)
       (mkWorld (with_controllers
                   (<[i := mkController (length (heap w)) i]> (controllers (app w)))
                   (app w))
                (locals w) (heap w ++ [mkController (length (heap w)) i])
                (trace w) (awaits w))
       (E (awaits w))).
Proof.
  intros Hi Ht. apply returns_normally_inv in Ht as (Hc & r & Ha).
  unfold ensure_controller. rewrite bind_gets, Hi.
  unfold new_Controller. unfold bind at 1. rewrite bind_modify.
  erewrite (bind_Val (getitem i));
    [|apply (getitem_cached i (mkController (length (heap w)) i));
      cbn [app with_app controllers with_controllers]; apply lookup_insert_eq].
  erewrite (bind_Val (await_call _));
    [|apply (await_call_returns _ _ _ r); [exact Hc|exact Ha]].
  reflexivity.
Qed.

Lemma created_trace i E w :
  trace (created i E w)
  = trace w ++ [Call (mkController (length (heap w)) i) set_stop].
Proof. unfold created. rewrite suspend_trace. reflexivity. Qed.

Lemma created_heap i E w :
  heap (created i E w) = heap w ++ [mkController (length (heap w)) i].
Proof. unfold created. rewrite suspend_heap. reflexivity. Qed.

Lemma created_controllers i E w :
  controllers (app (created i E w))
  = <[i := mkController (length (heap w)) i]> (controllers (app w)).
Proof. unfold created. rewrite suspend_controllers. reflexivity. Qed.

Lemma created_monitoring i E w :
  monitoring (app (created i E w)) = monitoring (app w).
Proof. unfold created. rewrite suspend_monitoring. reflexivity. Qed.

Lemma created_awaits i E w : awaits (created i E w) = S (awaits w).
Proof. unfold created. rewrite suspend_awaits. reflexivity. Qed.

Lemma ensure_creates i E w :
  controllers (app w) !! i = None ->
  returns_normally (E (awaits w)) = true ->
  ensure_controller i E w = (Val tt, created i E w).
Proof. apply ensure_missing_returns. Qed.

Lemma initialize_controllers_returns (E : env) (w1 : World) k1 k2 :
  controllers (app w1) !! 1 = Some k1 ->
  controllers (app w1) !! 2 = Some k2 ->
  (let! k1 := getitem 1 in let! k2 := getitem 2 in ret (k1, k2)) E w1
  = (Val (k1, k2), w1).
Proof.
  intros H1 H2.
  rewrite (bind_Val _ _ _ _ _ _ (getitem_cached _ _ _ _ H1)).
  rewrite (bind_Val _ _ _ _ _ _ (getitem_cached _ _ _ _ H2)).
  reflexivity.
Qed.

Lemma initialize_controllers_creates E w :
  (forall j, (j < length (missing w))%nat ->
     returns_normally (E (awaits w + j)%nat) = true) ->
  exists k1 k2 w1,
    initialize_controllers E w = (Val (k1, k2), w1) /\
    trace w1 = trace w ++
      map (fun c => Call c set_stop) (new_controllers (length (heap w)) (missing w)) /\
    heap w1 = heap w ++ new_controllers (length (heap w)) (missing w) /\
    controllers (app w1) !! 1 = Some k1 /\
    controllers (app w1) !! 2 = Some k2 /\
    monitoring (app w1) = monitoring (app w) /\
    Forall (fun c => controllers (app w1) !! id c = Some c)
           (new_controllers (length (heap w)) (missing w)).
Proof.
  unfold missing. cbn [List.filter].
  destruct (controllers (app w) !! 1) as [k1|] eqn:H1;
    destruct (controllers (app w) !! 2) as [k2|] eqn:H2;
    cbn [length new_controllers map]; intros HE.
  - exists k1, k2, w. rewrite (initialize_controllers_cached _ _ _ _ H1 H2).
    rewrite !app_nil_r. repeat split; auto.
  - assert (Ht : returns_normally (E (awaits w)) = true).
    { specialize (HE 0%nat). rewrite Nat.add_0_r in HE. apply HE. lia. }
    assert (G1 : controllers (app (created 2 E w)) !! 1 = Some k1).
    { rewrite created_controllers, lookup_insert_ne; [exact H1|discriminate]. }
    assert (G2 : controllers (app (created 2 E w)) !! 2
                 = Some (mkController (length (heap w)) 2)).
    { rewrite created_controllers. apply lookup_insert_eq. }
    exists k1, (mkController (length (heap w)) 2), (created 2 E w).
    split; [|split; [|split; [|split; [|split; [|split]]]]].
    + unfold initialize_controllers.
      rewrite (bind_Val _ _ _ _ _ _ (ensure_cached _ _ _ _ H1)).
      rewrite (bind_Val _ _ _ _ _ _ (ensure_creates _ _ _ H2 Ht)).
      apply initialize_controllers_returns; assumption.
    + apply created_trace.
    + apply created_heap.
    + exact G1.
    + exact G2.
    + apply created_monitoring.
    + apply Forall_cons_2; [exact G2|apply Forall_nil_2].
  - assert (Ht : returns_normally (E (awaits w)) = true).
    { specialize (HE 0%nat). rewrite Nat.add_0_r in HE. apply HE. lia. }
    assert (G1 : controllers (app (created 1 E w)) !! 1
                 = Some (mkController (length (heap w)) 1)).
    { rewrite created_controllers. apply lookup_insert_eq. }
    assert (G2 : controllers (app (created 1 E w)) !! 2 = Some k2).
    { rewrite created_controllers, lookup_insert_ne; [exact H2|discriminate]. }
    exists (mkController (length (heap w)) 1), k2, (created 1 E w).
    split; [|split; [|split; [|split; [|split; [|split]]]]].
    + unfold initialize_controllers.
      rewrite (bind_Val _ _ _ _ _ _ (ensure_creates _ _ _ H1 Ht)).
      rewrite (bind_Val _ _ _ _ _ _ (ensure_cached _ _ _ _ G2)).
      apply initialize_controllers_returns; assumption.
    + apply created_trace.
    + apply created_heap.
    + exact G1.
    + exact G2.
    + apply created_monitoring.
    + apply Forall_cons_2; [exact G1|apply Forall_nil_2].
  - assert (Ht1 : returns_normally (E (awaits w)) = true).
    { specialize (HE 0%nat). rewrite Nat.add_0_r in HE. apply HE. lia. }
    assert (Ht2 : returns_normally (E (awaits (created 1 E w))) = true).
    { rewrite created_awaits. specialize (HE 1%nat).
      rewrite Nat.add_1_r in HE. apply HE. lia. }
    assert (Hlen : length (heap (created 1 E w)) = S (length (heap w))).
    { rewrite created_heap, length_app. simpl. lia. }
    assert (F2 : controllers (app (created 1 E w)) !! 2 = None).
    { rewrite created_controllers, lookup_insert_ne; [exact H2|discriminate]. }
    assert (G1 : controllers (app (created 2 E (created 1 E w))) !! 1
                 = Some (mkController (length (heap w)) 1)).
    { rewrite created_controllers, lookup_insert_ne by discriminate.
      rewrite created_controllers. apply lookup_insert_eq. }
    assert (G2 : controllers (app (created 2 E (created 1 E w))) !! 2
                 = Some (mkController (S (length (heap w))) 2)).
    { rewrite created_controllers, Hlen. apply lookup_insert_eq. }
    exists (mkController (length (heap w)) 1),
           (mkController (S (length (heap w))) 2),
           (created 2 E (created 1 E w)).
    split; [|split; [|split; [|split; [|split; [|split]]]]].
    + unfold initialize_controllers.
      rewrite (bind_Val _ _ _ _ _ _ (ensure_creates _ _ _ H1 Ht1)).
      rewrite (bind_Val _ _ _ _ _ _ (ensure_creates _ _ _ F2 Ht2)).
      apply initialize_controllers_returns; assumption.
    + rewrite created_trace, created_trace, Hlen, <- app_assoc. reflexivity.
    + rewrite created_heap, Hlen, created_heap, <- app_assoc. reflexivity.
    + exact G1.
    + exact G2.
    + rewrite !created_monitoring. reflexivity.
    + apply Forall_cons_2; [exact G1|].
      apply Forall_cons_2; [exact G2|apply Forall_nil_2].
Qed.

(** With both controllers cached an iteration of the monitor loop starts
    with the leader's query, issues no stop command and creates nothing. *)
Lemma monitor_iteration_cached E w k1 k2 :
  controllers (app w) !! 1 = Some k1 ->
  controllers (app w) !! 2 = Some k2 ->
  exists rest,
    trace (snd (monitor_iteration E w)) = trace w ++ Call k1 query :: rest /\
    Forall (fun ev => is_stop ev = false) rest /\
    controllers (app (snd (monitor_iteration E w))) = controllers (app w) /\
    heap (snd (monitor_iteration E w)) = heap w.
Proof.
  intros H1 H2. unfold monitor_iteration, monitor_try, try_except.
  rewrite (bind_Val _ _ _ _ _ _ (initialize_controllers_cached _ _ _ _ H1 H2)).
  cbv beta iota.
  unfold bind, await_call, sleep, post, print, ret.
  split_ticks; cbn [fst snd is_Exception];
    repeat progress
      (cbn [trace heap app controllers emit with_app fst snd];
       rewrite ?suspend_trace, ?suspend_heap, ?suspend_controllers).
  all: rewrite <- ?app_assoc; eexists; (split; [reflexivity|]).
  all: split; [|split; reflexivity].
  all: repeat (apply Forall_cons_2; [reflexivity|]); apply Forall_nil_2.
Qed.

Lemma monitor_motors_cached n E w k1 k2 :
  controllers (app w) !! 1 = Some k1 ->
  controllers (app w) !! 2 = Some k2 ->
  exists rest,
    trace (snd (monitor_motors n E w)) = trace w ++ rest /\
    Forall (fun ev => is_stop ev = false) rest /\
    controllers (app (snd (monitor_motors n E w))) = controllers (app w) /\
    heap (snd (monitor_motors n E w)) = heap w.
Proof.
  revert w. induction n as [|n IH]; intros w H1 H2; cbn [monitor_motors];
    rewrite bind_gets; destruct (monitoring (app w));
    try (exists []; rewrite app_nil_r; repeat split; apply Forall_nil_2).
  destruct (monitor_iteration_cached E w k1 k2 H1 H2) as (rest & Ht & Hf & Hc & Hh).
  unfold bind. destruct (monitor_iteration E w) as [[[]| |e|] w1]; simpl in *;
    try (exists (Call k1 query :: rest); repeat split; try assumption;
         apply Forall_cons_2; [reflexivity|assumption]).
  rewrite <- Hc in H1, H2.
  destruct (IH w1 H1 H2) as (rest' & Ht' & Hf' & Hc' & Hh').
  exists ((Call k1 query :: rest) ++ rest'). repeat split.
  - rewrite Ht', Ht, <- app_assoc. reflexivity.
  - apply Forall_app; split; [|exact Hf'].
    apply Forall_cons_2; [reflexivity|exact Hf].
  - rewrite Hc'. exact Hc.
  - rewrite Hh'. exact Hh.
Qed.

Lemma monitor_iteration_after_init E w w1 k1 k2 :
  initialize_controllers E w = (Val (k1, k2), w1) ->
  controllers (app w1) !! 1 = Some k1 ->
  controllers (app w1) !! 2 = Some k2 ->
  monitor_iteration E w = monitor_iteration E w1.
Proof.
  intros Hi H1 H2. unfold monitor_iteration, monitor_try, try_except.
  rewrite (bind_Val _ _ _ _ _ _ Hi).
  rewrite (bind_Val _ _ _ _ _ _ (initialize_controllers_cached _ _ _ _ H1 H2)).
  reflexivity.
Qed.

Lemma new_controllers_ids h ids : map id (new_controllers h ids) = ids.
Proof.
  revert h. induction ids as [|i ids IH]; intros h; simpl; [reflexivity|].
  rewrite IH. reflexivity.
Qed.

(** When the monitor loop starts an iteration with a controller not yet
    cached and the stop commands it then issues return, it creates the
    missing controllers, one per missing id, and sends each of them exactly
    one [set_stop] before the first telemetry query; everything the loop
    does afterwards, in this and in all later iterations, contains no
    [set_stop] at all. *)
Lemma monitor_first_iteration_creates (n : nat) (E : env) (w : World) :
  monitoring (app w) = true ->
  (forall j, (j < length (missing w))%nat ->
     returns_normally (E (awaits w + j)%nat) = true) ->
  let w' := snd (monitor_motors (S n) E w) in
  let fresh := new_controllers (length (heap w)) (missing w) in
  map id fresh = missing w /\
  heap w' = heap w ++ fresh /\
  Forall (fun c => controllers (app w') !! id c = Some c) fresh /\
  exists k1 rest,
    since w w' = map (fun c => Call c set_stop) fresh ++ Call k1 query :: rest /\
    controllers (app w') !! 1 = Some k1 /\
    Forall (fun ev => is_stop ev = false) rest.
Proof.
  intros Hm HE w' fresh. split; [apply new_controllers_ids|].
  destruct (initialize_controllers_creates E w HE)
    as (k1 & k2 & w1 & Hi & Ht & Hh & H1 & H2 & Hmon & Hfresh).
  fold fresh in Ht, Hh, Hfresh.
  destruct (monitor_iteration_cached E w1 k1 k2 H1 H2)
    as (rest & Ht2 & Hf2 & Hc2 & Hh2).
  assert (Hw' : w' = snd (bind monitor_iteration (fun _ => monitor_motors n) E w1)).
  { unfold w'. cbn [monitor_motors]. rewrite bind_gets, Hm.
    unfold bind. rewrite (monitor_iteration_after_init E w w1 k1 k2 Hi H1 H2).
    reflexivity. }
  rewrite Hw'. unfold bind.
  destruct (monitor_iteration E w1) as [[[]| |e|] w2]; simpl in *.
  2-4: (split; [congruence|]); (split; [rewrite Hc2; exact Hfresh|]);
       exists k1, rest; (split; [apply since_app; rewrite Ht2, Ht, <- app_assoc;
                                 reflexivity|]);
       (split; [rewrite Hc2; exact H1|exact Hf2]).
  assert (G1 : controllers (app w2) !! 1 = Some k1) by (rewrite Hc2; exact H1).
  assert (G2 : controllers (app w2) !! 2 = Some k2) by (rewrite Hc2; exact H2).
  destruct (monitor_motors_cached n E w2 k1 k2 G1 G2)
    as (rest' & Ht3 & Hf3 & Hc3 & Hh3).
  split; [congruence|]. split; [rewrite Hc3, Hc2; exact Hfresh|].
  exists k1, (rest ++ rest'). split; [|split].
  - apply since_app. rewrite Ht3, Ht2, Ht, <- !app_assoc. reflexivity.
  - rewrite Hc3. exact G1.
  - apply Forall_app; split; assumption.
Qed.

(** *** Counting the stop commands *)

Lemma count_app p (a b : list event) :
  count p (a ++ b) = (count p a + count p b)%nat.
Proof. unfold count. rewrite List.filter_app, length_app. reflexivity. Qed.

Lemma count_no_stop p (evs : list event) :
  (forall ev, p ev = true -> is_stop ev = true) ->
  Forall (fun ev => is_stop ev = false) evs -> count p evs = 0%nat.
Proof.
  intros Hp H. induction H as [|ev evs Hev _ IH]; [reflexivity|].
  unfold count in *. cbn [List.filter].
  destruct (p ev) eqn:Hx; [|exact IH].
  apply Hp in Hx. congruence.
Qed.

Lemma is_stop_on_stop i ev : is_stop_on i ev = true -> is_stop ev = true.
Proof. destruct ev as [c [| |x v t]|s d|x|g|e]; simpl; congruence. Qed.

Lemma no_stop_of_count (evs : list event) :
  count is_stop evs = 0%nat -> Forall (fun ev => is_stop ev = false) evs.
Proof.
  unfold count. induction evs as [|ev evs IH]; intros H; [apply Forall_nil_2|].
  cbn [List.filter] in H. destruct (is_stop ev) eqn:Hx; [discriminate H|].
  apply Forall_cons_2; [exact Hx|apply IH, H].
Qed.

Lemma stops_before_queries_quiet (evs : list event) :
  Forall (fun ev => is_stop ev = false) evs -> stops_before_queries evs = true.
Proof.
  intros H. induction H as [|ev evs Hev Hevs IH]; [reflexivity|].
  cbn [stops_before_queries]. destruct (is_query ev); [|exact IH].
  apply forallb_forall. intros e He. rewrite Forall_forall in Hevs.
  rewrite (Hevs e) by (apply list_elem_of_In; exact He). reflexivity.
Qed.

Lemma stops_before_queries_app_quiet (a b : list event) :
  stops_before_queries a = true ->
  Forall (fun ev => is_stop ev = false) b ->
  stops_before_queries (a ++ b) = true.
Proof.
  intros Ha Hb. induction a as [|ev a IH]; [apply stops_before_queries_quiet, Hb|].
  cbn [stops_before_queries List.app] in *. destruct (is_query ev); [|apply IH, Ha].
  rewrite forallb_app, Ha. cbn [andb].
  apply forallb_forall. intros e He. rewrite Forall_forall in Hb.
  rewrite (Hb e) by (apply list_elem_of_In; exact He). reflexivity.
Qed.

Lemma stops_before_queries_app_creating (a b : list event) :
  existsb is_query a = false ->
  stops_before_queries (a ++ b) = stops_before_queries b.
Proof.
  intros Ha. induction a as [|ev a IH]; [reflexivity|].
  cbn [existsb stops_before_queries List.app] in *.
  apply orb_false_iff in Ha as [H1 H2]. rewrite H1. apply IH, H2.
Qed.

Lemma cached_count_le i w : (cached_count i w <= 1)%nat.
Proof. unfold cached_count. destruct (controllers (app w) !! i); lia. Qed.

Lemma cached_count_stable i w w' :
  (forall c, controllers (app w) !! i = Some c ->
             controllers (app w') !! i = Some c) ->
  cached_count i w = 1%nat -> cached_count i w' = 1%nat.
Proof.
  unfold cached_count. intros H.
  destruct (controllers (app w) !! i) as [c|]; [|discriminate].
  rewrite (H c eq_refl). reflexivity.
Qed.

Lemma tracks_refl w : tracks w w.
Proof.
  exists []. rewrite app_nil_r.
  repeat split; auto; try discriminate;
    try (intros i; unfold count; simpl; lia).
Qed.

Lemma tracks_trans w1 w2 w3 : tracks w1 w2 -> tracks w2 w3 -> tracks w1 w3.
Proof.
  intros (e1 & T1 & C1 & K1 & S1 & B1 & Q1) (e2 & T2 & C2 & K2 & S2 & B2 & Q2).
  exists (e1 ++ e2). split; [rewrite T2, T1, app_assoc; reflexivity|].
  split; [intros i; rewrite count_app, <- C2, <- C1; lia|].
  split; [intros i c H; apply K2, K1, H|].
  split; [rewrite !count_app, S1, S2; lia|].
  split.
  - destruct (existsb is_query e1) eqn:Hq.
    + destruct (Q1 eq_refl) as [G1 G2].
      apply stops_before_queries_app_quiet; [exact B1|].
      apply no_stop_of_count. rewrite S2.
      pose proof (C2 1) as X1. pose proof (C2 2) as X2.
      pose proof (cached_count_le 1 w3). pose proof (cached_count_le 2 w3). lia.
    + rewrite stops_before_queries_app_creating by exact Hq. exact B2.
  - rewrite existsb_app. intros H. apply orb_true_iff in H as [H|H].
    + destruct (Q1 H) as [G1 G2].
      split; [apply (cached_count_stable 1 w2)|apply (cached_count_stable 2 w2)];
        auto.
    + apply Q2, H.
Qed.

(** A stretch that sends no stop command and leaves the cache alone, and
    sends queries only with both controllers cached. *)
Lemma tracks_observing w w' evs :
  trace w' = trace w ++ evs ->
  controllers (app w') = controllers (app w) ->
  Forall (fun ev => is_stop ev = false) evs ->
  (existsb is_query evs = true ->
   cached_count 1 w = 1%nat /\ cached_count 2 w = 1%nat) ->
  tracks w w'.
Proof.
  intros Ht Hc Hs Hq. exists evs. split; [exact Ht|].
  assert (Z : forall i, count (is_stop_on i) evs = 0%nat)
    by (intros i; apply count_no_stop; [apply is_stop_on_stop|exact Hs]).
  assert (Z' : count is_stop evs = 0%nat) by (apply count_no_stop; auto).
  split; [intros i; rewrite Z; unfold cached_count; rewrite Hc; lia|].
  split; [intros i c; rewrite Hc; auto|].
  split; [rewrite Z', !Z; reflexivity|].
  split; [apply stops_before_queries_quiet, Hs|].
  unfold cached_count in *. rewrite Hc. exact Hq.
Qed.

(** One block of [initialize_controllers]. *)
Lemma tracks_ensure_controller i E w :
  i = 1 \/ i = 2 -> tracks w (snd (ensure_controller i E w)).
Proof.
  intros Hi. rewrite ensure_controller_world.
  destruct (controllers (app w) !! i) as [c|] eqn:Hc; [apply tracks_refl|].
  cbv zeta. exists [Call (mkController (length (heap w)) i) set_stop].
  split; [rewrite suspend_trace; reflexivity|].
  split; [|split; [|split; [|split]]].
  - intros j. unfold cached_count, count. rewrite suspend_controllers.
    cbn [app with_controllers controllers List.filter is_stop_on id].
    destruct (Z.eqb_spec i j) as [->|Hne].
    + rewrite lookup_insert_eq, Hc. reflexivity.
    + rewrite lookup_insert_ne by exact Hne.
      destruct (controllers (app w) !! j); simpl; lia.
  - intros j c' H. rewrite suspend_controllers.
    cbn [app with_controllers controllers].
    rewrite lookup_insert_ne; [exact H|]. intros ->. congruence.
  - unfold count. cbn [List.filter is_stop is_stop_on id].
    destruct Hi as [-> | ->]; reflexivity.
  - reflexivity.
  - discriminate.
Qed.

Lemma getitem_missing i E w :
  controllers (app w) !! i = None -> getitem i E w = (Exn KeyError, w).
Proof. intros H. unfold getitem. rewrite bind_gets, H. reflexivity. Qed.

(** [initialize_controllers] ends after the first or the second block, and
    returns only what it finds in the cache. *)
Lemma initialize_controllers_outcome E w :
  (snd (initialize_controllers E w) = snd (ensure_controller 1 E w) \/
   snd (initialize_controllers E w)
   = snd (ensure_controller 2 E (snd (ensure_controller 1 E w)))) /\
  (forall k1 k2, fst (initialize_controllers E w) = Val (k1, k2) ->
     controllers (app (snd (initialize_controllers E w))) !! 1 = Some k1 /\
     controllers (app (snd (initialize_controllers E w))) !! 2 = Some k2).
Proof.
  unfold initialize_controllers, bind.
  destruct (ensure_controller 1 E w) as [[[]| |e|] w1]; cbn [fst snd];
    try (split; [left; reflexivity|discriminate]).
  destruct (ensure_controller 2 E w1) as [[[]| |e|] w2]; cbn [fst snd];
    try (split; [right; reflexivity|discriminate]).
  destruct (controllers (app w2) !! 1) as [c1'|] eqn:H1;
    [rewrite (getitem_cached _ _ _ _ H1)|rewrite (getitem_missing _ _ _ H1)];
    cbn [fst snd]; [|split; [right; reflexivity|discriminate]].
  destruct (controllers (app w2) !! 2) as [c2'|] eqn:H2;
    [rewrite (getitem_cached _ _ _ _ H2)|rewrite (getitem_missing _ _ _ H2)];
    cbn [fst snd]; [|split; [right; reflexivity|discriminate]].
  cbn [ret fst snd]. split; [right; reflexivity|].
  intros k1 k2 [= <- <-]. auto.
Qed.

Lemma tracks_initialize_controllers E w :
  tracks w (snd (initialize_controllers E w)).
Proof.
  destruct (initialize_controllers_outcome E w) as [[-> | ->] _].
  - apply tracks_ensure_controller. left; reflexivity.
  - eapply tracks_trans; apply tracks_ensure_controller; auto.
Qed.

Lemma cached_count_cached i c w :
  controllers (app w) !! i = Some c -> cached_count i w = 1%nat.
Proof. unfold cached_count. intros ->. reflexivity. Qed.

(** One iteration of the monitor loop. *)
Lemma tracks_monitor_iteration E w : tracks w (snd (monitor_iteration E w)).
Proof.
  pose proof (tracks_initialize_controllers E w) as Hi.
  destruct (initialize_controllers_outcome E w) as [_ Hv].
  destruct (initialize_controllers E w) as [[[k1 k2]| |e|] w1] eqn:Hr;
    cbn [fst snd] in *.
  - destruct (Hv k1 k2 eq_refl) as [H1 H2].
    rewrite (monitor_iteration_after_init E w w1 k1 k2 Hr H1 H2).
    apply (tracks_trans _ w1); [exact Hi|].
    destruct (monitor_iteration_cached E w1 k1 k2 H1 H2)
      as (rest & Ht & Hf & Hc & _).
    apply (tracks_observing _ _ (Call k1 query :: rest) Ht Hc).
    + apply Forall_cons_2; [reflexivity|exact Hf].
    + intros _. split; eapply cached_count_cached; eassumption.
  - unfold monitor_iteration, monitor_try, try_except.
    rewrite (bind_Ret _ _ _ _ _ Hr). exact Hi.
  - unfold monitor_iteration, monitor_try, try_except.
    rewrite (bind_Exn _ _ _ _ _ _ Hr).
    destruct (is_Exception e); [|exact Hi].
    apply (tracks_trans _ w1); [exact Hi|].
    apply (tracks_observing _ _ [Stdout e; Sleep 1]).
    + unfold bind, print, sleep. destruct (cancelled _); cbn [snd];
        rewrite suspend_trace; cbn [trace emit]; rewrite <- app_assoc; reflexivity.
    + unfold bind, print, sleep. destruct (cancelled _); cbn [snd];
        rewrite suspend_controllers; reflexivity.
    + repeat (apply Forall_cons_2; [reflexivity|]). apply Forall_nil_2.
    + discriminate.
  - unfold monitor_iteration, monitor_try, try_except.
    rewrite (bind_Running _ _ _ _ _ Hr). exact Hi.
Qed.

Lemma tracks_monitor_motors n E w : tracks w (snd (monitor_motors n E w)).
Proof.
  revert w. induction n as [|n IH]; intros w; cbn [monitor_motors];
    rewrite bind_gets; destruct (monitoring (app w)); try apply tracks_refl.
  pose proof (tracks_monitor_iteration E w) as H1.
  unfold bind. destruct (monitor_iteration E w) as [[[]| |e|] w1];
    cbn [snd] in *; try exact H1.
  eapply tracks_trans; [exact H1|apply IH].
Qed.

(** C10, as stated, fails: when the stop command of the leader's new
    controller raises, the first iteration ends there.  The follower's
    handle was not cached when that iteration began, yet the iteration
    neither creates it nor sends it a stop command; the second iteration
    does, so a later iteration issues [set_stop] again. *)
Lemma second_iteration_stops_gripper :
  let w1 := after_polls 1 stop_fails_first init in
  let w2 := after_polls 2 stop_fails_first init in
  controllers (app init) !! 2 = None /\
  since init w1
  = [Call (mkController 1 1) set_stop; Stdout TransportError; Sleep 1] /\
  controllers (app w1) !! 2 = None /\
  since w1 w2
  = [Call (mkController 2 2) set_stop;
     Call (mkController 1 1) query;
     Call (mkController 2 2) query;
     After (update_positions 0 0 0 0);
     Sleep (1 / 1000)] /\
  count is_stop (since w1 w2) = 1%nat.
Proof. vm_compute. repeat split; reflexivity. Qed.

(** C10, amended.  Whatever the driver does, the monitor loop sends a stop
    command only to a controller it has just created: over any number of
    iterations an actuator gets exactly one [set_stop] when its handle
    enters the cache and none when the handle was cached before, so never
    more than one; a cached handle stays the cached handle; and no
    [set_stop] follows a telemetry query.  When the stop commands return,
    all of this happens in the first iteration: it creates the missing
    controllers, one per missing id, sends each of them its [set_stop]
    before the first telemetry query, and nothing the loop does afterwards,
    in this and in all later iterations, is a [set_stop]. *)
Theorem monitor_stops_once_at_creation (n : nat) (E : env) (w : World) :
  let w' := snd (monitor_motors (S n) E w) in
  (forall i, (cached_count i w + count (is_stop_on i) (since w w'))%nat
             = cached_count i w') /\
  (forall i, (count (is_stop_on i) (since w w') <= 1)%nat) /\
  (forall i, cached_count i w = 1%nat ->
             count (is_stop_on i) (since w w') = 0%nat) /\
  count is_stop (since w w')
  = (count (is_stop_on 1) (since w w') + count (is_stop_on 2) (since w w'))%nat /\
  (forall i c, controllers (app w) !! i = Some c ->
               controllers (app w') !! i = Some c) /\
  stops_before_queries (since w w') = true /\
  (monitoring (app w) = true ->
   (forall j, (j < length (missing w))%nat ->
      returns_normally (E (awaits w + j)%nat) = true) ->
   let fresh := new_controllers (length (heap w)) (missing w) in
   map id fresh = missing w /\
   heap w' = heap w ++ fresh /\
   Forall (fun c => controllers (app w') !! id c = Some c) fresh /\
   exists k1 rest,
     since w w' = map (fun c => Call c set_stop) fresh ++ Call k1 query :: rest /\
     controllers (app w') !! 1 = Some k1 /\
     Forall (fun ev => is_stop ev = false) rest).
Proof.
  intros w'.
  destruct (tracks_monitor_motors (S n) E w) as (evs & Ht & Hc & Hk & Hs & Hb & _).
  fold w' in Ht, Hc, Hk. rewrite (since_app _ _ _ Ht).
  split; [exact Hc|]. split; [|split; [|split; [|split; [|split]]]].
  - intros i. pose proof (Hc i). pose proof (cached_count_le i w'). lia.
  - intros i Hi. pose proof (Hc i). pose proof (cached_count_le i w'). lia.
  - exact Hs.
  - exact Hk.
  - exact Hb.
  - intros Hm HE. rewrite <- (since_app _ _ _ Ht).
    apply (monitor_first_iteration_creates n E w Hm HE).
Qed.

(** Three iterations after the launch with a driver that answers: both
    actuators are stopped, then queried.  And with the leader's stop command
    raising: one stop command each all the same, the follower's an
    iteration later. *)
Lemma monitor_stops_once_at_creation_witness :
  (exists k1 rest,
     since init (snd (monitor_motors 3 (calm 0 0) init))
       = [Call (mkController 1 1) set_stop; Call (mkController 2 2) set_stop]
         ++ Call k1 query :: rest /\
     controllers (app (snd (monitor_motors 3 (calm 0 0) init))) !! 1 = Some k1 /\
     Forall (fun ev => is_stop ev = false) rest) /\
  (forall i, (count (is_stop_on i)
                (since init (snd (monitor_motors 3 stop_fails_first init))) <= 1)%nat).
Proof.
  split.
  - exact (proj2 (proj2 (proj2
             (proj2 (proj2 (proj2 (proj2 (proj2 (proj2
                (monitor_stops_once_at_creation 2 (calm 0 0) init))))))
                eq_refl (fun _ _ => eq_refl))))).
  - exact (proj1 (proj2 (monitor_stops_once_at_creation 2 stop_fails_first init))).
Defined.

(** ** What the coroutines send, and to whom *)

Lemma well_formed_suspend s ev w t :
  well_formed s w -> well_formed s (suspend ev w t).
Proof.
  intros (Hs & Hc & H1 & H2 & Ha & Hm). unfold well_formed.
  rewrite suspend_stream, suspend_controllers, suspend_locals, suspend_alpha,
    suspend_monitoring.
  pose proof (alpha_after_unit t _ Ha). auto 7.
Qed.

Lemma grows_nil (P : event -> Prop) (w : World) :
  exists evs, trace w = trace w ++ evs /\ Forall P evs.
Proof. exists []. rewrite app_nil_r. split; [reflexivity|apply Forall_nil_2]. Qed.

Lemma grows_one (P : event -> Prop) (w w' : World) ev :
  trace w' = trace w ++ [ev] -> P ev ->
  exists evs, trace w' = trace w ++ evs /\ Forall P evs.
Proof.
  intros H Hp. exists [ev]. split; [exact H|].
  apply Forall_cons_2; [exact Hp|apply Forall_nil_2].
Qed.

Section Discipline.
Context (s : Stream) (P : event -> Prop).

Lemma obeys_ret {A} (Q : A -> Prop) (a : A) : Q a -> obeys s P Q (ret a).
Proof.
  intros Hq E w Hw. split; [exact Hw|]. split; [apply grows_nil|].
  intros a' [= <-]. exact Hq.
Qed.

Lemma obeys_raise {A} (Q : A -> Prop) e : obeys s P Q (raise e).
Proof.
  intros E w Hw. split; [exact Hw|]. split; [apply grows_nil|].
  intros a' [=].
Qed.

Lemma obeys_return {A} (Q : A -> Prop) : obeys s P Q return_.
Proof.
  intros E w Hw. split; [exact Hw|]. split; [apply grows_nil|].
  intros a' [=].
Qed.

Lemma obeys_still_running {A} (Q : A -> Prop) : obeys s P Q still_running.
Proof.
  intros E w Hw. split; [exact Hw|]. split; [apply grows_nil|].
  intros a' [=].
Qed.

Lemma obeys_gets {A} (Q : A -> Prop) (f : App -> A) :
  (forall w, well_formed s w -> Q (f (app w))) -> obeys s P Q (gets f).
Proof.
  intros Hq E w Hw. split; [exact Hw|]. split; [apply grows_nil|].
  intros a' [= <-]. apply Hq, Hw.
Qed.

Lemma obeys_weaken {A} (Q Q' : A -> Prop) (m : M A) :
  obeys s P Q m -> (forall a, Q a -> Q' a) -> obeys s P Q' m.
Proof.
  intros Hm Hq E w Hw. destruct (Hm E w Hw) as (H1 & H2 & H3).
  split; [exact H1|]. split; [exact H2|]. intros a Ha. apply Hq, H3, Ha.
Qed.

Lemma obeys_bind {A B} (Q : A -> Prop) (R : B -> Prop) (m : M A) (k : A -> M B) :
  obeys s P Q m -> (forall a, Q a -> obeys s P R (k a)) ->
  obeys s P R (bind m k).
Proof.
  intros Hm Hk E w Hw. destruct (Hm E w Hw) as (H1 & (evs & Ht & Hf) & H3).
  unfold bind. destruct (m E w) as [[a| |e|] w1]; simpl in *;
    try (split; [exact H1|]; split; [exists evs; split; assumption|];
         intros a' [=]).
  destruct (Hk a (H3 a eq_refl) E w1 H1) as (K1 & (evs' & Ht' & Hf') & K3).
  split; [exact K1|]. split; [|exact K3].
  exists (evs ++ evs'). rewrite Ht', Ht, app_assoc. split; [reflexivity|].
  apply Forall_app; split; assumption.
Qed.

Lemma obeys_try_finally {A} (Q : A -> Prop) (body : M A) (final : M unit) :
  obeys s P Q body -> obeys s P (fun _ => True) final ->
  obeys s P Q (try_finally body final).
Proof.
  intros Hb Hf E w Hw. destruct (Hb E w Hw) as (H1 & (evs & Ht & Hp) & H3).
  unfold try_finally. destruct (body E w) as [r w1]; simpl in *.
  destruct (Hf E w1 H1) as (K1 & (evs' & Ht' & Hp') & _).
  assert (G : exists l, trace (snd (final E w1)) = trace w ++ l /\ Forall P l).
  { exists (evs ++ evs'). rewrite Ht', Ht, app_assoc. split; [reflexivity|].
    apply Forall_app; split; assumption. }
  destruct r as [a| |e|];
    try (destruct (final E w1) as [[[]| |e'|] w2]; simpl in *;
         (split; [exact K1|]); (split; [exact G|]);
         intros a' Ha; try discriminate Ha;
         injection Ha as <-; apply H3; reflexivity).
  split; [exact H1|]. split; [exists evs; split; assumption|intros a' [=]].
Qed.

Lemma obeys_try_except {A} (Q : A -> Prop) (body : M A) (handler : exn -> M A) :
  obeys s P Q body -> (forall e, obeys s P Q (handler e)) ->
  obeys s P Q (try_except body handler).
Proof.
  intros Hb Hh E w Hw. destruct (Hb E w Hw) as (H1 & (evs & Ht & Hp) & H3).
  unfold try_except. destruct (body E w) as [[a| |e|] w1]; simpl in *;
    try (split; [exact H1|]; split; [exists evs; split; assumption|];
         solve [exact H3 | intros a' [=]]).
  destruct (is_Exception e); simpl;
    [|split; [exact H1|]; split; [exists evs; split; assumption|intros a' [=]]].
  destruct (Hh e E w1 H1) as (K1 & (evs' & Ht' & Hp') & K3).
  split; [exact K1|]. split; [|exact K3].
  exists (evs ++ evs'). rewrite Ht', Ht, app_assoc. split; [reflexivity|].
  apply Forall_app; split; assumption.
Qed.

Lemma obeys_coroutine (Q : unit -> Prop) (body : M unit) :
  obeys s P Q body -> obeys s P (fun _ => True) (coroutine body).
Proof.
  intros Hb E w Hw. destruct (Hb E w Hw) as (H1 & H2 & _).
  unfold coroutine. destruct (body E w) as [[a| |e|] w1]; simpl in *; auto.
Qed.

Lemma obeys_modify (f : App -> App) :
  keeps_handles f -> obeys s P (fun _ => True) (modify f).
Proof.
  intros Hf E w (Hs & Hc & H1 & H2 & Ha & Hm).
  split; [|split; [exact (grows_nil P w)|auto]].
  unfold well_formed; simpl. destruct (Hf (app w)) as (-> & -> & -> & ->).
  auto 7.
Qed.

Lemma obeys_await_call ev :
  P ev -> obeys s P (fun _ => True) (await_call ev).
Proof.
  intros Hp E w Hw. rewrite await_call_world.
  split; [apply well_formed_suspend, Hw|]. split; [|auto].
  apply (grows_one P w _ ev); [apply suspend_trace|exact Hp].
Qed.

Lemma obeys_sleep secs :
  P (Sleep secs) -> obeys s P (fun _ => True) (sleep secs).
Proof.
  intros Hp E w Hw.
  assert (Hw' : snd (sleep secs E w) = suspend (Sleep secs) w (E (awaits w))).
  { unfold sleep. destruct (cancelled _); reflexivity. }
  rewrite Hw'. split; [apply well_formed_suspend, Hw|]. split; [|auto].
  apply (grows_one P w _ (Sleep secs)); [apply suspend_trace|exact Hp].
Qed.

Lemma obeys_post g : P (After g) -> obeys s P (fun _ => True) (post g).
Proof.
  intros Hp E w Hw. split; [exact Hw|]. split; [|auto].
  apply (grows_one P w _ (After g)); [reflexivity|exact Hp].
Qed.

Lemma obeys_print e : P (Stdout e) -> obeys s P (fun _ => True) (print e).
Proof.
  intros Hp E w Hw. split; [exact Hw|]. split; [|auto].
  apply (grows_one P w _ (Stdout e)); [reflexivity|exact Hp].
Qed.

Lemma obeys_enter : obeys s P (fun _ => True) enter.
Proof.
  intros E w (Hs & Hc & _ & _ & Ha & Hm).
  split; [|split; [exact (grows_nil P w)|auto]].
  unfold well_formed; simpl. repeat split; auto; intros c [=].
Qed.

Lemma obeys_local_c1 : obeys s P (fun c => id c = 1) local_c1.
Proof.
  intros E w Hw. unfold local_c1.
  destruct (c1 (locals w)) as [c|] eqn:Hc; simpl;
    (split; [exact Hw|]); (split; [apply grows_nil|]); intros a [=]. subst a.
  destruct Hw as (_ & _ & H1 & _). apply H1, Hc.
Qed.

Lemma obeys_local_c2 : obeys s P (fun c => id c = 2) local_c2.
Proof.
  intros E w Hw. unfold local_c2.
  destruct (c2 (locals w)) as [c|] eqn:Hc; simpl;
    (split; [exact Hw|]); (split; [apply grows_nil|]); intros a [=]. subst a.
  destruct Hw as (_ & _ & _ & H2 & _). apply H2, Hc.
Qed.

Lemma obeys_getitem i : obeys s P (fun c => id c = i) (getitem i).
Proof.
  intros E w Hw. unfold getitem. rewrite bind_gets.
  destruct (controllers (app w) !! i) as [c|] eqn:Hc; simpl;
    (split; [exact Hw|]); (split; [apply grows_nil|]); intros a [=]. subst a.
  destruct Hw as (_ & H & _ & _). apply (H i), Hc.
Qed.

(** Creating a controller sends it one stop command. *)
Lemma obeys_ensure_controller i :
  (forall c, id c = i -> P (Call c set_stop)) ->
  obeys s P (fun _ => True) (ensure_controller i).
Proof.
  intros Hp E w Hw. split; [|split; [|auto]].
  - rewrite ensure_controller_world.
    destruct (controllers (app w) !! i) as [c|] eqn:Hc; [exact Hw|].
    apply well_formed_suspend. destruct Hw as (Hs & Hm & H1 & H2 & Ha & Hg).
    unfold well_formed; simpl. repeat split; auto.
    intros j c. destruct (Z.eq_dec i j) as [->|Hne].
    + rewrite lookup_insert_eq. intros [= <-]. reflexivity.
    + rewrite lookup_insert_ne by exact Hne. apply Hm.
  - rewrite ensure_controller_world.
    destruct (controllers (app w) !! i) as [c|] eqn:Hc; [apply grows_nil|].
    eapply grows_one; [rewrite suspend_trace; reflexivity|].
    apply Hp. reflexivity.
Qed.

Hypothesis P_stop : forall c, id c = 1 \/ id c = 2 -> P (Call c set_stop).

Lemma obeys_initialize_controllers :
  obeys s P (fun ks => id (fst ks) = 1 /\ id (snd ks) = 2) initialize_controllers.
Proof.
  unfold initialize_controllers.
  apply (obeys_bind (fun _ => True));
    [apply obeys_ensure_controller; intros c Hc; apply P_stop; auto|intros _ _].
  apply (obeys_bind (fun _ => True));
    [apply obeys_ensure_controller; intros c Hc; apply P_stop; auto|intros _ _].
  apply (obeys_bind (fun c => id c = 1)); [apply obeys_getitem|intros k1 H1].
  apply (obeys_bind (fun c => id c = 2)); [apply obeys_getitem|intros k2 H2].
  apply obeys_ret. split; assumption.
Qed.

Lemma obeys_bind_locals : obeys s P (fun _ => True) bind_locals.
Proof.
  unfold bind_locals.
  apply (obeys_bind (fun ks => id (fst ks) = 1 /\ id (snd ks) = 2));
    [apply obeys_initialize_controllers|].
  intros ks [H1 H2] E w (Hs & Hc & _ & _ & Ha & Hm).
  split; [|split; [exact (grows_nil P w)|auto]].
  unfold well_formed; simpl. repeat split; auto; intros c [= <-]; assumption.
Qed.

Hypothesis P_query : forall c, id c = 1 \/ id c = 2 -> P (Call c query).
Hypothesis P_sleep : forall secs, P (Sleep secs).
Hypothesis P_after : forall g, P (After g).
Hypothesis P_stdout : forall e, P (Stdout e).

Lemma obeys_monitor_iteration : obeys s P (fun _ => True) monitor_iteration.
Proof.
  unfold monitor_iteration.
  apply obeys_try_except.
  - unfold monitor_try.
    apply (obeys_bind (fun ks => id (fst ks) = 1 /\ id (snd ks) = 2));
      [apply obeys_initialize_controllers|intros [k1 k2] [H1 H2]].
    simpl in H1, H2.
    apply (obeys_bind (fun _ => True));
      [apply obeys_await_call, P_query; auto|intros s1 _].
    apply (obeys_bind (fun _ => True));
      [apply obeys_await_call, P_query; auto|intros s2 _].
    apply (obeys_bind (fun _ => True)); [|intros _ _; apply obeys_sleep, P_sleep].
    destruct s1, s2;
      solve [apply obeys_post, P_after | apply obeys_ret; exact Logic.I].
  - intros e. apply (obeys_bind (fun _ => True));
      [apply obeys_print, P_stdout|intros _ _].
    apply obeys_sleep, P_sleep.
Qed.

Lemma obeys_monitor_motors n : obeys s P (fun _ => True) (monitor_motors n).
Proof.
  induction n as [|n IH]; cbn [monitor_motors];
    (apply (obeys_bind (fun _ => True));
       [apply obeys_gets; auto|intros [] _]);
    try (apply obeys_ret; exact Logic.I); try apply obeys_still_running.
  apply (obeys_bind (fun _ => True)); [apply obeys_monitor_iteration|].
  intros _ _. exact IH.
Qed.
Hypothesis P_hold :
  forall c, id c = 1 -> P (Call c (set_position nan (Some nan) 0.015)).
Hypothesis P_follow :
  forall c x, id c = 2 -> P (Call c (set_position (7 - x) None 0.1)).

Lemma obeys_control_iteration k1 k2 :
  id k1 = 1 -> id k2 = 2 ->
  obeys s P (fun _ => True) (control_iteration k1 k2).
Proof.
  intros H1 H2. unfold control_iteration.
  apply (obeys_bind (fun _ => True));
    [apply obeys_await_call, P_hold, H1|intros st _].
  apply (obeys_bind (fun _ => True));
    [destruct st; [apply obeys_ret; exact Logic.I|apply obeys_raise]|intros p _].
  apply (obeys_bind (fun _ => True)); [apply obeys_gets; auto|intros a _].
  apply (obeys_bind (fun _ => True)); [apply obeys_gets; auto|intros [prev|] _];
    [|apply obeys_raise].
  apply (obeys_bind (fun _ => True));
    [apply obeys_await_call, P_follow, H2|intros _ _].
  apply (obeys_bind (fun _ => True));
    [apply obeys_modify; intros a0; repeat split|intros _ _].
  apply obeys_sleep, P_sleep.
Qed.

Lemma obeys_control_loop n k1 k2 :
  id k1 = 1 -> id k2 = 2 ->
  obeys s P (fun _ => True) (control_loop n k1 k2).
Proof.
  intros H1 H2. induction n as [|n IH]; cbn [control_loop];
    (apply (obeys_bind (fun _ => True));
       [apply obeys_gets; auto|intros [] _]);
    try (apply obeys_ret; exact Logic.I); try apply obeys_still_running.
  apply (obeys_bind (fun _ => True));
    [apply obeys_control_iteration; assumption|].
  intros _ _. exact IH.
Qed.

Lemma obeys_motor_control n : obeys s P (fun _ => True) (motor_control n).
Proof.
  unfold motor_control. apply (obeys_coroutine (fun _ => True)).
  apply (obeys_bind (fun ks => id (fst ks) = 1 /\ id (snd ks) = 2));
    [apply obeys_initialize_controllers|intros [k1 k2] [H1 H2]].
  simpl in H1, H2.
  apply (obeys_bind (fun _ => True));
    [apply obeys_await_call, P_query; auto|intros st _].
  apply (obeys_bind (fun _ => True));
    [destruct st; [apply obeys_ret; exact Logic.I|apply obeys_raise]|intros p _].
  apply (obeys_bind (fun _ => True));
    [apply obeys_modify; intros a0; repeat split|intros _ _].
  apply obeys_try_finally; [apply obeys_control_loop; assumption|].
  unfold control_finally.
  apply (obeys_bind (fun _ => True));
    [apply obeys_await_call, P_stop; auto|intros _ _].
  apply (obeys_bind (fun _ => True));
    [apply obeys_await_call, P_stop; auto|intros _ _].
  apply obeys_ret. exact Logic.I.
Qed.

Lemma obeys_start_control n : obeys s P (fun _ => True) (start_control n).
Proof.
  unfold start_control.
  apply (obeys_bind (fun _ => True)); [apply obeys_gets; auto|intros [] _];
    [apply obeys_ret; exact Logic.I|].
  do 3 (apply (obeys_bind (fun _ => True));
          [apply obeys_modify; intros a0; repeat split|intros _ _]).
  apply obeys_motor_control.
Qed.

Lemma obeys_stop_control : obeys s P (fun _ => True) stop_control.
Proof. apply obeys_modify. intros a0; repeat split. Qed.

(** The one write to [alpha]: a value that passed the range test. *)
Lemma obeys_set_alpha v :
  in_unit_interval v = true -> obeys s P (fun _ => True) (modify (with_alpha v)).
Proof.
  intros Hv E w (Hs & Hc & H1 & H2 & Ha & Hm).
  split; [|split; [exact (grows_nil P w)|auto]].
  unfold well_formed; simpl. auto 7.
Qed.

Lemma obeys_update_alpha : obeys s P (fun _ => True) update_alpha.
Proof.
  unfold update_alpha.
  apply (obeys_bind (fun _ => True)); [apply obeys_gets; auto|intros [v|] _].
  - destruct ((0 <=? v)%float && (v <=? 1)%float)%bool eqn:Hv.
    + apply obeys_set_alpha. exact Hv.
    + apply (obeys_bind (fun _ => True)); [apply obeys_gets; auto|intros a _].
      apply obeys_modify. intros a0; repeat split.
  - apply (obeys_bind (fun _ => True)); [apply obeys_gets; auto|intros a _].
    apply obeys_modify. intros a0; repeat split.
Qed.

Hypothesis P_probe_trigger :
  forall c, id c = 1 -> P (Call c (set_position nan (Some (-0.5)%float) 0.03)).
Hypothesis P_probe_gripper :
  forall c, id c = 2 -> P (Call c (set_position nan (Some 0.5%float) 0.05)).
Hypothesis P_reference :
  forall data, data = "d exact 0"%string \/ data = "d exact 7"%string ->
               P (StreamCommand s data).

Lemma obeys_stream_command data :
  data = "d exact 0"%string \/ data = "d exact 7"%string ->
  obeys s P (fun _ => True) (stream_command data).
Proof.
  intros Hd. unfold stream_command.
  apply (obeys_bind (fun s' => s' = s));
    [apply obeys_gets; intros w Hw; apply Hw|intros s' ->].
  apply (obeys_bind (fun _ => True));
    [apply obeys_await_call, P_reference, Hd|intros _ _].
  apply obeys_ret. exact Logic.I.
Qed.

Lemma obeys_trigger_seek n : obeys s P (fun _ => True) (trigger_seek n).
Proof.
  induction n as [|n IH]; cbn [trigger_seek];
    (apply (obeys_bind (fun _ => True));
       [apply obeys_gets; auto|intros [] _]);
    try (apply obeys_ret; exact Logic.I); try apply obeys_still_running.
  apply (obeys_bind (fun c => id c = 1)); [apply obeys_local_c1|intros k1 H1].
  apply (obeys_bind (fun _ => True));
    [apply obeys_await_call, P_probe_trigger, H1|intros st _].
  destruct (torque_below _ _).
  - apply (obeys_bind (fun _ => True));
      [apply obeys_stream_command; auto|intros _ _].
    apply (obeys_bind (fun _ => True)); [apply obeys_sleep, P_sleep|intros _ _].
    apply obeys_ret. exact Logic.I.
  - apply (obeys_bind (fun _ => True)); [apply obeys_sleep, P_sleep|intros _ _].
    exact IH.
Qed.

Lemma obeys_gripper_seek n : obeys s P (fun _ => True) (gripper_seek n).
Proof.
  induction n as [|n IH]; cbn [gripper_seek];
    (apply (obeys_bind (fun _ => True));
       [apply obeys_gets; auto|intros [] _]);
    try (apply obeys_ret; exact Logic.I); try apply obeys_still_running.
  apply (obeys_bind (fun c => id c = 2)); [apply obeys_local_c2|intros k2 H2].
  apply (obeys_bind (fun _ => True));
    [apply obeys_await_call, P_probe_gripper, H2|intros st _].
  destruct (torque_above _ _).
  - apply (obeys_bind (fun _ => True));
      [apply obeys_stream_command; auto|intros _ _].
    apply (obeys_bind (fun _ => True)); [apply obeys_sleep, P_sleep|intros _ _].
    apply obeys_ret. exact Logic.I.
  - apply (obeys_bind (fun _ => True)); [apply obeys_sleep, P_sleep|intros _ _].
    exact IH.
Qed.

Lemma obeys_home_trigger n : obeys s P (fun _ => True) (home_trigger n).
Proof.
  unfold home_trigger. apply (obeys_coroutine (fun _ => True)).
  apply (obeys_bind (fun _ => True)); [apply obeys_enter|intros _ _].
  apply obeys_try_finally.
  - apply obeys_try_except; [|intros e; apply obeys_post, P_after].
    apply (obeys_bind (fun _ => True)); [apply obeys_gets; auto|intros [] _];
      [apply obeys_return|].
    do 2 (apply (obeys_bind (fun _ => True));
            [apply obeys_modify; intros a0; repeat split|intros _ _]).
    apply (obeys_bind (fun _ => True)); [apply obeys_bind_locals|intros _ _].
    apply (obeys_bind (fun c => id c = 1)); [apply obeys_local_c1|intros k1 H1].
    apply (obeys_bind (fun _ => True));
      [apply obeys_await_call, P_stop; auto|intros _ _].
    apply (obeys_bind (fun _ => True)); [apply obeys_sleep, P_sleep|intros _ _].
    apply (obeys_bind (fun _ => True)); [apply obeys_trigger_seek|intros [] _];
      [apply obeys_post, P_after|apply obeys_ret; exact Logic.I].
  - apply (obeys_bind (fun _ => True));
      [apply obeys_modify; intros a0; repeat split|intros _ _].
    apply (obeys_bind (fun _ => True)); [apply obeys_post, P_after|intros _ _].
    apply (obeys_bind (fun c => id c = 1)); [apply obeys_local_c1|intros k1 H1].
    apply (obeys_bind (fun _ => True));
      [apply obeys_await_call, P_stop; auto|intros _ _].
    apply obeys_ret. exact Logic.I.
Qed.

Lemma obeys_home_gripper n : obeys s P (fun _ => True) (home_gripper n).
Proof.
  unfold home_gripper. apply (obeys_coroutine (fun _ => True)).
  apply (obeys_bind (fun _ => True)); [apply obeys_enter|intros _ _].
  apply obeys_try_finally.
  - apply obeys_try_except; [|intros e; apply obeys_post, P_after].
    apply (obeys_bind (fun _ => True)); [apply obeys_gets; auto|intros [] _];
      [apply obeys_return|].
    do 2 (apply (obeys_bind (fun _ => True));
            [apply obeys_modify; intros a0; repeat split|intros _ _]).
    apply (obeys_bind (fun _ => True)); [apply obeys_bind_locals|intros _ _].
    apply (obeys_bind (fun c => id c = 2)); [apply obeys_local_c2|intros k2 H2].
    apply (obeys_bind (fun _ => True));
      [apply obeys_await_call, P_stop; auto|intros _ _].
    apply (obeys_bind (fun _ => True)); [apply obeys_sleep, P_sleep|intros _ _].
    apply (obeys_bind (fun _ => True)); [apply obeys_gripper_seek|intros [] _];
      [apply obeys_post, P_after|apply obeys_ret; exact Logic.I].
  - apply (obeys_bind (fun _ => True));
      [apply obeys_modify; intros a0; repeat split|intros _ _].
    apply (obeys_bind (fun _ => True)); [apply obeys_post, P_after|intros _ _].
    apply (obeys_bind (fun c => id c = 2)); [apply obeys_local_c2|intros k2 H2].
    apply (obeys_bind (fun _ => True));
      [apply obeys_await_call, P_stop; auto|intros _ _].
    apply obeys_ret. exact Logic.I.
Qed.

Lemma obeys_perform a : obeys s P (fun _ => True) (perform a).
Proof.
  destruct a as [n| | |typed|n|n|n]; simpl.
  - apply obeys_start_control.
  - apply obeys_stop_control.
  - apply obeys_stop_control.
  - apply (obeys_bind (fun _ => True));
      [apply obeys_modify; intros a0; repeat split|intros _ _].
    apply obeys_update_alpha.
  - apply obeys_home_trigger.
  - apply obeys_home_gripper.
  - apply obeys_monitor_motors.
Qed.

Lemma obeys_session E acts w :
  well_formed s w ->
  well_formed s (session E acts w) /\
  exists evs, trace (session E acts w) = trace w ++ evs /\ Forall P evs.
Proof.
  revert w. induction acts as [|a acts IH]; intros w Hw; simpl.
  - split; [exact Hw|apply grows_nil].
  - destruct (obeys_perform a E w Hw) as (H1 & (evs & Ht & Hp) & _).
    destruct (IH _ H1) as (K1 & evs' & Ht' & Hp').
    split; [exact K1|]. exists (evs ++ evs').
    rewrite Ht', Ht, app_assoc. split; [reflexivity|].
    apply Forall_app; split; assumption.
Qed.
End Discipline.

Lemma well_formed_init : well_formed (stream (app init)) init.
Proof.
  unfold well_formed. repeat split; try (intros c [=]).
  intros i c H. simpl in H. rewrite lookup_empty in H. discriminate.
Qed.

(** Whatever the operator and the driver do in a session, every command
    the application sends has one of the shapes of [permitted]: commands go
    to bus id 1 or 2 only; the leader gets nothing but its hold command
    (torque cap 0.015) and the trigger's homing probe (velocity -0.5, cap
    0.03), the follower nothing but mirror targets [7 - x] (cap 0.1) and the
    gripper's homing probe (velocity 0.5, cap 0.05); reference commands are
    [d exact 0] or [d exact 7] on the stream built in [__init__]. *)
Theorem session_commands_permitted (E : env) (acts : list action) :
  Forall (permitted (stream (app init))) (trace (session E acts init)).
Proof.
  destruct (obeys_session (stream (app init)) (permitted (stream (app init))))
    with (E := E) (acts := acts) (w := init) as (_ & evs & Ht & Hp).
  - intros c H. exact H.
  - intros c H. exact H.
  - intros secs. exact Logic.I.
  - intros g. exact Logic.I.
  - intros e. exact Logic.I.
  - intros c H. left. auto.
  - intros c x H. right; left. eauto 6.
  - intros c H. right; right; left. auto.
  - intros c H. right; right; right. auto.
  - intros data H. split; [reflexivity|exact H].
  - exact well_formed_init.
  - rewrite Ht. exact Hp.
Qed.

(** No motion command of any session carries a torque cap above 0.1. *)
Theorem session_torque_capped (E : env) (acts : list action) :
  Forall within_torque_cap (trace (session E acts init)).
Proof.
  eapply Forall_impl; [apply session_commands_permitted|].
  intros [c [| |p v t]|s' data|secs|g|e]; simpl; auto.
  intros [(_ & _ & _ & ->)|[(_ & _ & _ & ->)|[(_ & _ & _ & ->)|(_ & _ & _ & ->)]]];
    reflexivity.
Qed.

(** Every reference command of any session is addressed to bus id 2: the
    trigger (bus id 1) is never sent one, also not by [home_trigger]. *)
Theorem reference_commands_reach_gripper_only (E : env) (acts : list action) :
  Forall reference_to_gripper (trace (session E acts init)).
Proof.
  eapply Forall_impl; [apply session_commands_permitted|].
  intros [c cmd|s' data|secs|g|e]; simpl; auto.
  intros [-> _]. reflexivity.
Qed.

(** At any point of a session the monitor loop is an observer: it sends no
    motion command and no reference command, whatever the driver answers. *)
Theorem monitor_only_observes (E E' : env) (acts : list action) (n : nat) :
  let w := session E acts init in
  Forall observing (since w (snd (monitor_motors n E' w))).
Proof.
  intros w.
  assert (Hw : well_formed (stream (app init)) w).
  { apply (obeys_session (stream (app init)) (fun _ => True)); auto.
    exact well_formed_init. }
  destruct (obeys_monitor_motors (stream (app init)) observing) with
    (n := n) (E := E') (w := w) as (_ & (evs & Ht & Hp) & _);
    try (intros; exact Logic.I); [exact Hw|].
  rewrite (since_app _ _ _ Ht). exact Hp.
Qed.

(** The filter coefficient stays in the unit interval throughout any
    session: it starts at 0.95 and [update_alpha], the only writer, stores
    only values that passed its range test. *)
Theorem session_alpha_in_unit_interval (E : env) (acts : list action) :
  in_unit_interval (alpha (app (session E acts init))) = true.
Proof.
  destruct (obeys_session (stream (app init)) (fun _ => True)) with
    (E := E) (acts := acts) (w := init) as ((_ & _ & _ & _ & Ha & _) & _);
    auto. exact well_formed_init.
Qed.

(** Nothing in a session clears [self.monitoring]: the monitor loop has no
    way to end but the cancellation of its task. *)
Theorem session_never_clears_monitoring (E : env) (acts : list action) :
  monitoring (app (session E acts init)) = true.
Proof.
  destruct (obeys_session (stream (app init)) (fun _ => True)) with
    (E := E) (acts := acts) (w := init) as ((_ & _ & _ & _ & _ & Hm) & _);
    auto. exact well_formed_init.
Qed.

(** ** Leaving and entering the mirror loop *)

Lemma suspend_running_kept ev w t :
  stop_pressed t = false -> running (app (suspend ev w t)) = running (app w).
Proof. intros H. suspend_cases t; try discriminate H; reflexivity. Qed.

Lemma suspend_running_stop ev w t :
  stop_pressed t = true -> running (app (suspend ev w t)) = false.
Proof. intros H. suspend_cases t; try discriminate H; reflexivity. Qed.

Lemma suspend_running_false ev w t :
  running (app w) = false -> running (app (suspend ev w t)) = false.
Proof. intros H. suspend_cases t; first [reflexivity|exact H]. Qed.

Lemma suspend_enabled_kept ev w t :
  stop_pressed t = false -> enabled (app (suspend ev w t)) = enabled (app w).
Proof. intros H. suspend_cases t; try discriminate H; reflexivity. Qed.

Lemma try_finally_world {A} (body : M A) (final : M unit) E w :
  left_loop (fst (body E w)) = true ->
  snd (try_finally body final E w) = snd (final E (snd (body E w))).
Proof.
  unfold try_finally. destruct (body E w) as [[a| |e|] w1]; simpl;
    try discriminate; intros _;
    destruct (final E w1) as [[[]| |e'|] w2]; reflexivity.
Qed.

(** The [finally:] block: the leader's stop, and the follower's only when
    the leader's has returned. *)
Lemma control_finally_trace k1 k2 E w :
  trace (snd (control_finally k1 k2 E w)) =
    trace w ++ Call k1 set_stop ::
      (if returns_normally (E (awaits w)) then [Call k2 set_stop] else []).
Proof.
  unfold control_finally, returns_normally, bind, await_call.
  destruct (cancelled (E (awaits w))); simpl;
    [rewrite suspend_trace; reflexivity|].
  destruct (answer (E (awaits w))); simpl;
    [|rewrite suspend_trace; reflexivity].
  destruct (cancelled _); [|destruct (answer _)]; simpl;
    rewrite !suspend_trace, <- app_assoc; reflexivity.
Qed.

(** However the mirror loop is left (flag cleared, exception, cancellation),
    the leader is sent a stop command next; the follower is sent one after
    it exactly when the leader's stop returned. *)
Theorem mirror_loop_exit_stops (n : nat) (E : env) (w : World)
    (k1 k2 : Controller) :
  left_loop (fst (control_loop n k1 k2 E w)) = true ->
  let wl := snd (control_loop n k1 k2 E w) in
  since wl (snd (try_finally (control_loop n k1 k2) (control_finally k1 k2) E w))
  = Call k1 set_stop ::
      (if returns_normally (E (awaits wl)) then [Call k2 set_stop] else []).
Proof.
  intros Hleft wl. rewrite (try_finally_world _ _ _ _ Hleft). fold wl.
  apply since_app, control_finally_trace.
Qed.

(** Two ways out of a loop that was entered.  STOP pressed during the
    sleep of the first pass: the loop is left at its head and both actuators
    are stopped.  The leader's command raising in the first pass, and its
    stop command raising too: the leader's stop is all that is sent. *)
Lemma mirror_loop_exit_stops_witness :
  (running (app seeded) = true /\
   fst (control_loop 5 (mkController 1 1) (mkController 2 2) stopped_in_sleep seeded)
   = Val tt /\
   length (since seeded
             (snd (control_loop 5 (mkController 1 1) (mkController 2 2)
                     stopped_in_sleep seeded))) = 3%nat /\
   since (snd (control_loop 5 (mkController 1 1) (mkController 2 2)
                 stopped_in_sleep seeded))
         (snd (try_finally
                 (control_loop 5 (mkController 1 1) (mkController 2 2))
                 (control_finally (mkController 1 1) (mkController 2 2))
                 stopped_in_sleep seeded))
   = [Call (mkController 1 1) set_stop; Call (mkController 2 2) set_stop]) /\
  (fst (control_loop 5 (mkController 1 1) (mkController 2 2) leader_lost seeded)
   = Exn TransportError /\
   since (snd (control_loop 5 (mkController 1 1) (mkController 2 2)
                 leader_lost seeded))
         (snd (try_finally
                 (control_loop 5 (mkController 1 1) (mkController 2 2))
                 (control_finally (mkController 1 1) (mkController 2 2))
                 leader_lost seeded))
   = [Call (mkController 1 1) set_stop]).
Proof.
  assert (H1 : left_loop (fst (control_loop 5 (mkController 1 1) (mkController 2 2)
                                 stopped_in_sleep seeded)) = true)
    by (vm_compute; reflexivity).
  assert (H2 : left_loop (fst (control_loop 5 (mkController 1 1) (mkController 2 2)
                                 leader_lost seeded)) = true)
    by (vm_compute; reflexivity).
  split.
  - do 3 (split; [vm_compute; reflexivity|]).
    etransitivity;
      [exact (mirror_loop_exit_stops 5 stopped_in_sleep seeded
                (mkController 1 1) (mkController 2 2) H1)
      |vm_compute; reflexivity].
  - split; [vm_compute; reflexivity|].
    etransitivity;
      [exact (mirror_loop_exit_stops 5 leader_lost seeded
                (mkController 1 1) (mkController 2 2) H2)
      |vm_compute; reflexivity].
Defined.

(** GO with an unreachable leader: the seeding query raises before the
    [try:] is entered, so no stop command is sent; [start_control] has
    already set [running] and disabled GO, and nothing resets them: pressing
    GO again does nothing until STOP is pressed. *)
Theorem failed_seeding_leaves_running_set (n : nat) (E : env) (w : World)
    (k1 k2 : Controller) :
  running (app w) = false ->
  controllers (app w) !! 1 = Some k1 ->
  controllers (app w) !! 2 = Some k2 ->
  cancelled (E (awaits w)) = false ->
  answer (E (awaits w)) = Fails ->
  stop_pressed (E (awaits w)) = false ->
  let r := perform (PressGo n) E w in
  fst r = Exn TransportError /\
  since w (snd r) = [Call k1 query] /\
  running (app (snd r)) = true /\
  enabled (app (snd r)) go_btn = false /\
  forall m E', perform (PressGo m) E' (snd r) = (Val tt, snd r).
Proof.
  intros Hr H1 H2 Hc Ha Hs r.
  assert (Hrun : r = (Exn TransportError,
                      suspend (Call k1 query)
                        (with_app (with_button stop_btn true)
                           (with_app (with_button go_btn false)
                              (with_app (with_running true) w)))
                        (E (awaits w)))).
  { unfold r. simpl. unfold start_control. rewrite bind_gets, Hr, !bind_modify.
    unfold motor_control, coroutine.
    erewrite (bind_Val initialize_controllers);
      [|apply (initialize_controllers_cached _ _ k1 k2); [exact H1|exact H2]].
    cbv beta iota.
    erewrite (bind_Exn (await_call _));
      [|apply await_call_fails; [exact Hc|exact Ha]].
    reflexivity. }
  rewrite Hrun. simpl fst. simpl snd.
  assert (Hrunning : running (app (suspend (Call k1 query)
                        (with_app (with_button stop_btn true)
                           (with_app (with_button go_btn false)
                              (with_app (with_running true) w)))
                        (E (awaits w)))) = true).
  { rewrite suspend_running_kept by exact Hs. reflexivity. }
  split; [reflexivity|]. split; [|split; [exact Hrunning|split]].
  - apply since_app. rewrite suspend_trace. reflexivity.
  - rewrite suspend_enabled_kept by exact Hs. reflexivity.
  - intros m E'. simpl. unfold start_control. rewrite bind_gets, Hrunning.
    reflexivity.
Qed.

Lemma failed_seeding_leaves_running_set_witness :
  running (app (snd (perform (PressGo 5)
                       (script [answers 0 0; answers 0 0; answers 0 0;
                                answers 0 0; answers 0 0] driver_fails)
                       launched))) = true.
Proof.
  exact (proj1 (proj2 (proj2
           (failed_seeding_leaves_running_set 5
              (script [answers 0 0; answers 0 0; answers 0 0;
                       answers 0 0; answers 0 0] driver_fails)
              launched (mkController 1 1) (mkController 2 2)
              eq_refl eq_refl eq_refl eq_refl eq_refl eq_refl)))).
Defined.

Lemma control_iteration_completes k1 k2 E w r prev :
  cancelled (E (awaits w)) = false ->
  answer (E (awaits w)) = Returns (Some r) ->
  prevfiltpos (app w) = Some prev ->
  returns_normally (E (S (awaits w))) = true ->
  cancelled (E (S (S (awaits w)))) = false ->
  control_iteration k1 k2 E w = (Val tt, after_iteration k1 k2 E w r prev).
Proof.
  intros Hc Ha Hp H1 H2. apply returns_normally_inv in H1 as (Hc1 & r1 & Ha1).
  unfold control_iteration.
  rewrite (bind_Val _ _ _ _ _ _ (await_call_returns _ _ _ _ Hc Ha)).
  cbn [values_POSITION]. rewrite bind_ret, !bind_gets.
  rewrite suspend_prevfiltpos, suspend_alpha, Hp.
  erewrite (bind_Val (await_call _));
    [|apply (await_call_returns _ _ _ r1); rewrite suspend_awaits; assumption].
  rewrite bind_modify.
  rewrite sleep_done;
    [|cbn [awaits with_app]; rewrite !suspend_awaits; exact H2].
  unfold after_iteration. cbn [awaits with_app]. rewrite !suspend_awaits.
  reflexivity.
Qed.

Lemma after_iteration_trace k1 k2 E w r prev :
  trace (after_iteration k1 k2 E w r prev) =
    trace w ++
    [Call k1 (set_position nan (Some nan) 0.015);
     Call k2 (set_position
                (7 - filter_step (alpha_after (E (awaits w)) (alpha (app w)))
                                 prev (POSITION r))
                None 0.1);
     Sleep (1 / 1000)].
Proof.
  unfold after_iteration. rewrite suspend_trace. cbn [trace with_app].
  rewrite !suspend_trace, <- !app_assoc. reflexivity.
Qed.

Lemma after_iteration_awaits k1 k2 E w r prev :
  awaits (after_iteration k1 k2 E w r prev) = (awaits w + 3)%nat.
Proof.
  unfold after_iteration. rewrite suspend_awaits. cbn [awaits with_app].
  rewrite !suspend_awaits. lia.
Qed.

Lemma after_iteration_prevfiltpos k1 k2 E w r prev :
  prevfiltpos (app (after_iteration k1 k2 E w r prev)) = Some (POSITION r).
Proof. unfold after_iteration. rewrite suspend_prevfiltpos. reflexivity. Qed.

Lemma alpha_after_kept t a : alpha_pressed t = None -> alpha_after t a = a.
Proof. intros H. unfold alpha_after. rewrite H. reflexivity. Qed.

Lemma after_iteration_alpha k1 k2 E w r prev :
  (forall j, alpha_pressed (E j) = None) ->
  alpha (app (after_iteration k1 k2 E w r prev)) = alpha (app w).
Proof.
  intros Hq. unfold after_iteration. rewrite suspend_alpha_kept by apply Hq.
  cbn [app with_app alpha with_prevfiltpos].
  rewrite !suspend_alpha_kept by apply Hq. reflexivity.
Qed.

Lemma with_prevfiltpos_running p w :
  running (app (with_app (with_prevfiltpos p) w)) = running (app w).
Proof. reflexivity. Qed.

Lemma after_iteration_running_kept k1 k2 E w r prev :
  (forall j, stop_pressed (E j) = false) ->
  running (app (after_iteration k1 k2 E w r prev)) = running (app w).
Proof.
  intros Hs. unfold after_iteration.
  rewrite suspend_running_kept by apply Hs. rewrite with_prevfiltpos_running.
  rewrite !suspend_running_kept by apply Hs. reflexivity.
Qed.

Lemma after_iteration_running_stopped k1 k2 E w r prev :
  stop_pressed (E (awaits w)) = true ->
  running (app (after_iteration k1 k2 E w r prev)) = false.
Proof.
  intros Hs. unfold after_iteration.
  apply suspend_running_false. rewrite with_prevfiltpos_running.
  apply suspend_running_false, suspend_running_stop, Hs.
Qed.

(** STOP is observed at the head of the loop only: pressed while the leader
    is being read, it lets the pass finish (the follower is commanded once
    more, with the coefficient in force when the leader's reply arrives, and
    the period is slept) before the loop is left and both actuators are
    stopped. *)
Theorem stop_takes_effect_after_iteration (n : nat) (E : env) (w : World)
    (k1 k2 : Controller) (r : Result) (prev : float) :
  running (app w) = true ->
  prevfiltpos (app w) = Some prev ->
  cancelled (E (awaits w)) = false ->
  answer (E (awaits w)) = Returns (Some r) ->
  stop_pressed (E (awaits w)) = true ->
  (forall j, (1 <= j <= 4)%nat -> returns_normally (E (awaits w + j)%nat) = true) ->
  let out := try_finally (control_loop (S n) k1 k2) (control_finally k1 k2) E w in
  fst out = Val tt /\
  since w (snd out) =
    [Call k1 (set_position nan (Some nan) 0.015);
     Call k2 (set_position
                (7 - filter_step (alpha_after (E (awaits w)) (alpha (app w)))
                                 prev (POSITION r))
                None 0.1);
     Sleep (1 / 1000);
     Call k1 set_stop;
     Call k2 set_stop] /\
  running (app (snd out)) = false.
Proof.
  intros Hr Hp Hc Ha Hs HE out.
  assert (T1 : returns_normally (E (S (awaits w))) = true)
    by (rewrite <- Nat.add_1_r; apply HE; lia).
  assert (T2 : returns_normally (E (S (S (awaits w)))) = true)
    by (replace (S (S (awaits w))) with (awaits w + 2)%nat by lia; apply HE; lia).
  assert (T3 : returns_normally (E (awaits w + 3)%nat) = true) by (apply HE; lia).
  assert (T4 : returns_normally (E (awaits w + 4)%nat) = true) by (apply HE; lia).
  pose proof (proj1 (returns_normally_inv _ T2)) as C2.
  set (w3 := after_iteration k1 k2 E w r prev).
  assert (Hloop : control_loop (S n) k1 k2 E w = (Val tt, w3)).
  { cbn [control_loop]. rewrite bind_gets, Hr.
    rewrite (bind_Val _ _ _ _ _ _
               (control_iteration_completes k1 k2 E w r prev Hc Ha Hp T1 C2)).
    fold w3. destruct n; cbn [control_loop]; rewrite bind_gets;
      unfold w3; rewrite (after_iteration_running_stopped _ _ _ _ _ _ Hs);
      reflexivity. }
  assert (A3 : awaits w3 = (awaits w + 3)%nat) by apply after_iteration_awaits.
  apply returns_normally_inv in T3 as (C3 & r3 & R3).
  apply returns_normally_inv in T4 as (C4 & r4 & R4).
  assert (Hfin : control_finally k1 k2 E w3 =
                 (Val tt, suspend (Call k2 set_stop)
                            (suspend (Call k1 set_stop) w3 (E (awaits w3)))
                            (E (S (awaits w3))))).
  { unfold control_finally.
    erewrite (bind_Val (await_call _));
      [|apply (await_call_returns _ _ _ r3); rewrite A3; assumption].
    erewrite (bind_Val (await_call _));
      [|apply (await_call_returns _ _ _ r4); rewrite suspend_awaits, A3;
        replace (S (awaits w + 3)) with (awaits w + 4)%nat by lia; assumption].
    rewrite suspend_awaits. reflexivity. }
  assert (Hout : out = (Val tt, suspend (Call k2 set_stop)
                            (suspend (Call k1 set_stop) w3 (E (awaits w3)))
                            (E (S (awaits w3))))).
  { unfold out, try_finally. rewrite Hloop, Hfin. reflexivity. }
  rewrite Hout. cbn [fst snd]. split; [reflexivity|]. split.
  - apply since_app. rewrite !suspend_trace. unfold w3.
    rewrite after_iteration_trace, <- !app_assoc. reflexivity.
  - do 2 apply suspend_running_false. unfold w3.
    apply after_iteration_running_stopped, Hs.
Qed.

Lemma stop_takes_effect_after_iteration_witness :
  running (app (snd (try_finally
                       (control_loop 5 (mkController 1 1) (mkController 2 2))
                       (control_finally (mkController 1 1) (mkController 2 2))
                       (script [pressed_stop_reading] (answers 0 0))
                       (with_app (with_prevfiltpos (Some 0%float))
                                 (with_app (with_running true) init)))))
  = false.
Proof.
  refine (proj2 (proj2
            (stop_takes_effect_after_iteration 4
               (script [pressed_stop_reading] (answers 0 0))
               (with_app (with_prevfiltpos (Some 0%float))
                         (with_app (with_running true) init))
               (mkController 1 1) (mkController 2 2) (mkResult 1 0) 0%float
               eq_refl eq_refl eq_refl eq_refl eq_refl _))).
  intros [|[|[|[|[|j]]]]] Hj; try reflexivity; lia.
Defined.

Lemma last_default_irrelevant {A} (a : A) (l : list A) (d d' : A) :
  List.last (a :: l) d = List.last (a :: l) d'.
Proof.
  revert a. induction l as [|b l IH]; intros a; [reflexivity|].
  change (List.last (b :: l) d = List.last (b :: l) d'). apply IH.
Qed.

(** While nothing is cancelled, nothing fails, STOP is not pressed and the
    coefficient is not changed, the loop turns the leader readings [rs] into
    follower targets two readings at a time: with [alpha] the coefficient,
    the target for a reading [p] is [7 - (alpha * q + (1 - alpha) * p)]
    where [q] is the reading before it (the seed for the first), not the
    previous filtered value; after the passes the history is the last
    reading. *)
Theorem mirror_targets_from_last_two_readings (rs : list Result) (E : env)
    (w : World) (k1 k2 : Controller) (prev : float) :
  running (app w) = true ->
  prevfiltpos (app w) = Some prev ->
  (forall j, cancelled (E j) = false) ->
  (forall j, stop_pressed (E j) = false) ->
  (forall j, alpha_pressed (E j) = None) ->
  (forall j, answer (E j) <> Fails) ->
  (forall i r, rs !! i = Some r ->
     answer (E (awaits w + 3 * i)%nat) = Returns (Some r)) ->
  let out := control_loop (length rs) k1 k2 E w in
  fst out = Running /\
  since w (snd out) = mirror_events k1 k2 (alpha (app w)) prev (map POSITION rs) /\
  prevfiltpos (app (snd out)) = Some (List.last (map POSITION rs) prev).
Proof.
  intros Hr Hp Hc Hs Hq Hf. revert w prev Hr Hp.
  induction rs as [|r rs IH]; intros w prev Hr Hp Hrs out.
  - unfold out. cbn [length control_loop]. rewrite bind_gets, Hr.
    cbn [fst snd map mirror_events List.last]. split; [reflexivity|].
    split; [|exact Hp]. unfold since. apply drop_all.
  - assert (Ha : answer (E (awaits w)) = Returns (Some r)).
    { specialize (Hrs 0%nat r eq_refl). rewrite Nat.mul_0_r, Nat.add_0_r in Hrs.
      exact Hrs. }
    assert (T1 : returns_normally (E (S (awaits w))) = true).
    { unfold returns_normally. rewrite Hc. simpl.
      destruct (answer (E (S (awaits w)))) eqn:Hx; [reflexivity|].
      destruct (Hf _ Hx). }
    set (w3 := after_iteration k1 k2 E w r prev).
    assert (Hstep : control_loop (length (r :: rs)) k1 k2 E w
                    = control_loop (length rs) k1 k2 E w3).
    { cbn [length control_loop]. rewrite bind_gets, Hr.
      rewrite (bind_Val _ _ _ _ _ _
                 (control_iteration_completes k1 k2 E w r prev
                    (Hc _) Ha Hp T1 (Hc _))).
      reflexivity. }
    assert (R3 : running (app w3) = true).
    { unfold w3. rewrite after_iteration_running_kept by exact Hs. exact Hr. }
    assert (P3 : prevfiltpos (app w3) = Some (POSITION r))
      by apply after_iteration_prevfiltpos.
    assert (Hrs3 : forall i r', rs !! i = Some r' ->
               answer (E (awaits w3 + 3 * i)%nat) = Returns (Some r')).
    { intros i r' Hi. unfold w3. rewrite after_iteration_awaits.
      replace (awaits w + 3 + 3 * i)%nat with (awaits w + 3 * S i)%nat by lia.
      apply Hrs. exact Hi. }
    destruct (IH w3 (POSITION r) R3 P3 Hrs3) as (I1 & I2 & I3).
    unfold out. rewrite Hstep. split; [exact I1|]. split.
    + cbn [map mirror_events].
      unfold since in *.
      assert (Ht : trace w3 = trace w ++
                 [Call k1 (set_position nan (Some nan) 0.015);
                  Call k2 (set_position
                             (7 - (alpha (app w) * prev
                                   + (1 - alpha (app w)) * POSITION r))
                             None 0.1);
                  Sleep (1 / 1000)]).
      { unfold w3. rewrite after_iteration_trace.
        rewrite alpha_after_kept by apply Hq. reflexivity. }
      destruct (control_loop_events (length rs) k1 k2 E w3) as (evs & Hev & _).
      rewrite Hev in I2 |- *. rewrite drop_app_length in I2.
      rewrite Ht, <- app_assoc, drop_app_length. cbn [app].
      unfold w3 in I2. rewrite after_iteration_alpha in I2 by exact Hq.
      rewrite <- I2. reflexivity.
    + rewrite I3. destruct rs as [|r0 rs]; [reflexivity|].
      cbn [map]. f_equal.
      change (List.last (POSITION r0 :: map POSITION rs) (POSITION r)
              = List.last (POSITION r0 :: map POSITION rs) prev).
      apply last_default_irrelevant.
Qed.

(** Alpha 0.5, seed 0, the leader reading 1 and then 2: the targets are
    7 - (0.5 * 0 + 0.5 * 1) = 6.5 and 7 - (0.5 * 1 + 0.5 * 2) = 5.5, where
    the filter recurrence would give 7 - (0.5 * 0.5 + 0.5 * 2) = 5.75 for
    the second. *)
Lemma mirror_targets_from_last_two_readings_witness :
  alpha (app seeded) = 0.5%float /\
  since seeded
        (snd (control_loop 2 (mkController 1 1) (mkController 2 2) climbing seeded))
  = [Call (mkController 1 1) (set_position nan (Some nan) 0.015);
     Call (mkController 2 2) (set_position 6.5 None 0.1);
     Sleep (1 / 1000);
     Call (mkController 1 1) (set_position nan (Some nan) 0.015);
     Call (mkController 2 2) (set_position 5.5 None 0.1);
     Sleep (1 / 1000)].
Proof.
  assert (Hr : running (app seeded) = true) by (vm_compute; reflexivity).
  assert (Hp : prevfiltpos (app seeded) = Some 0%float) by (vm_compute; reflexivity).
  split; [vm_compute; reflexivity|].
  etransitivity;
    [refine (proj1 (proj2
               (mirror_targets_from_last_two_readings
                  [mkResult 1 0; mkResult 2 0] climbing seeded
                  (mkController 1 1) (mkController 2 2) 0%float
                  Hr Hp _ _ _ _ _)))
    |vm_compute; reflexivity].
  - intros j. unfold climbing, next, script.
    do 10 (destruct j as [|j]; [reflexivity|]). destruct j; reflexivity.
  - intros j. unfold climbing, next, script.
    do 10 (destruct j as [|j]; [reflexivity|]). destruct j; reflexivity.
  - intros j. unfold climbing, next, script.
    do 10 (destruct j as [|j]; [reflexivity|]). destruct j; reflexivity.
  - intros j. unfold climbing, next, script.
    do 10 (destruct j as [|j]; [discriminate|]). destruct j; discriminate.
  - assert (Ha : awaits seeded = 6%nat) by (vm_compute; reflexivity).
    rewrite Ha.
    intros [|[|i]] r H; try discriminate H; injection H as <-; reflexivity.
Defined.

(** ** A stop command that fails at controller creation *)

Lemma ensure_missing_raises i E w :
  controllers (app w) !! i = None ->
  returns_normally (E (awaits w)) = false ->
  exists e, ensure_controller i E w = (Exn e, created i E w).
Proof.
  intros Hi Ht. unfold ensure_controller. rewrite bind_gets, Hi.
  unfold new_Controller. unfold bind at 1. rewrite bind_modify.
  erewrite (bind_Val (getitem i));
    [|apply (getitem_cached i (mkController (length (heap w)) i));
      cbn [app with_app controllers with_controllers]; apply lookup_insert_eq].
  unfold returns_normally in Ht. unfold bind, await_call.
  cbn [awaits with_app].
  destruct (cancelled (E (awaits w))); [eexists; reflexivity|].
  destruct (answer (E (awaits w))); [discriminate Ht|eexists; reflexivity].
Qed.

(** With the leader's controller cached, [initialize_controllers] sends at
    most the stop command of a newly created follower controller. *)
Lemma initialize_controllers_leader_cached E w k1 :
  controllers (app w) !! 1 = Some k1 ->
  trace (snd (initialize_controllers E w)) =
    trace w ++
    match controllers (app w) !! 2 with
    | Some _ => []
    | None => [Call (mkController (length (heap w)) 2) set_stop]
    end.
Proof.
  intros H1. destruct (controllers (app w) !! 2) as [k2|] eqn:H2.
  - rewrite (initialize_controllers_cached _ _ _ _ H1 H2), app_nil_r. reflexivity.
  - unfold initialize_controllers.
    rewrite (bind_Val _ _ _ _ _ _ (ensure_cached _ _ _ _ H1)).
    destruct (returns_normally (E (awaits w))) eqn:Ht.
    + rewrite (bind_Val _ _ _ _ _ _ (ensure_creates _ _ _ H2 Ht)).
      rewrite (initialize_controllers_returns E (created 2 E w) k1
                 (mkController (length (heap w)) 2)).
      * apply created_trace.
      * rewrite created_controllers, lookup_insert_ne; [exact H1|discriminate].
      * rewrite created_controllers. apply lookup_insert_eq.
    + destruct (ensure_missing_raises 2 E w H2 Ht) as [e He].
      rewrite (bind_Exn _ _ _ _ _ _ He). apply created_trace.
Qed.

(** The cache entry is written before the stop command is awaited: when
    the leader's first stop command raises, its controller stays cached (and
    the follower's is not created in this call), so no later call of
    [initialize_controllers] sends the leader a stop command again. *)
Theorem failed_first_stop_is_not_retried (E : env) (w : World) :
  controllers (app w) !! 1 = None ->
  cancelled (E (awaits w)) = false ->
  answer (E (awaits w)) = Fails ->
  let c := mkController (length (heap w)) 1 in
  let w1 := snd (initialize_controllers E w) in
  fst (initialize_controllers E w) = Exn TransportError /\
  since w w1 = [Call c set_stop] /\
  controllers (app w1) !! 1 = Some c /\
  controllers (app w1) !! 2 = controllers (app w) !! 2 /\
  forall E', count (is_stop_on 1)
               (since w1 (snd (initialize_controllers E' w1))) = 0%nat.
Proof.
  intros H1 Hc Ha c w1.
  assert (Ht : returns_normally (E (awaits w)) = false).
  { unfold returns_normally. rewrite Hc, Ha. reflexivity. }
  assert (Hrun : initialize_controllers E w
                 = (Exn TransportError, created 1 E w)).
  { unfold initialize_controllers.
    apply bind_Exn. unfold ensure_controller. rewrite bind_gets, H1.
    unfold new_Controller. unfold bind at 1. rewrite bind_modify.
    erewrite (bind_Val (getitem 1));
      [|apply (getitem_cached 1 (mkController (length (heap w)) 1));
        cbn [app with_app controllers with_controllers]; apply lookup_insert_eq].
    apply bind_Exn. apply await_call_fails; assumption. }
  unfold w1. rewrite Hrun. cbn [fst snd].
  assert (G1 : controllers (app (created 1 E w)) !! 1 = Some c).
  { rewrite created_controllers. apply lookup_insert_eq. }
  split; [reflexivity|]. split; [|split; [exact G1|split]].
  - apply since_app, created_trace.
  - rewrite created_controllers. apply lookup_insert_ne. discriminate.
  - intros E'.
    rewrite (since_app _ _ _ (initialize_controllers_leader_cached E' _ c G1)).
    destruct (controllers (app (created 1 E w)) !! 2); reflexivity.
Qed.

Lemma failed_first_stop_is_not_retried_witness :
  fst (initialize_controllers (always driver_fails) init) = Exn TransportError.
Proof.
  exact (proj1 (failed_first_stop_is_not_retried (always driver_fails) init
                  eq_refl eq_refl eq_refl)).
Defined.

(** ** The homing procedures, poll by poll *)

Lemma after_quiet_polls_trace k probe E w :
  trace (after_quiet_polls k probe E w) = trace w ++ quiet_polls k probe.
Proof.
  revert w. induction k as [|k IH]; intros w; cbn [after_quiet_polls quiet_polls].
  - rewrite app_nil_r. reflexivity.
  - rewrite IH, !suspend_trace, <- !app_assoc. reflexivity.
Qed.

Lemma after_quiet_polls_awaits k probe E w :
  awaits (after_quiet_polls k probe E w) = (awaits w + 2 * k)%nat.
Proof.
  revert w. induction k as [|k IH]; intros w; cbn [after_quiet_polls]; [lia|].
  rewrite IH, !suspend_awaits. lia.
Qed.

Lemma after_quiet_polls_locals k probe E w :
  locals (after_quiet_polls k probe E w) = locals w.
Proof.
  revert w. induction k as [|k IH]; intros w; cbn [after_quiet_polls];
    [reflexivity|]. rewrite IH, !suspend_locals. reflexivity.
Qed.

Lemma after_quiet_polls_stream k probe E w :
  stream (app (after_quiet_polls k probe E w)) = stream (app w).
Proof.
  revert w. induction k as [|k IH]; intros w; cbn [after_quiet_polls];
    [reflexivity|]. rewrite IH, !suspend_stream. reflexivity.
Qed.

Lemma after_quiet_polls_homing_gripper k probe E w :
  homing_gripper (app (after_quiet_polls k probe E w)) = homing_gripper (app w).
Proof.
  revert w. induction k as [|k IH]; intros w; cbn [after_quiet_polls];
    [reflexivity|]. rewrite IH, !suspend_homing_gripper. reflexivity.
Qed.

Lemma after_quiet_polls_homing_trigger k probe E w :
  homing_trigger (app (after_quiet_polls k probe E w)) = homing_trigger (app w).
Proof.
  revert w. induction k as [|k IH]; intros w; cbn [after_quiet_polls];
    [reflexivity|]. rewrite IH, !suspend_homing_trigger. reflexivity.
Qed.

Lemma local_c2_bound E w c :
  c2 (locals w) = Some c -> local_c2 E w = (Val c, w).
Proof. intros H. unfold local_c2. rewrite H. reflexivity. Qed.

Lemma local_c1_bound E w c :
  c1 (locals w) = Some c -> local_c1 E w = (Val c, w).
Proof. intros H. unfold local_c1. rewrite H. reflexivity. Qed.

Lemma await_call_reading ev E w :
  returns_normally (E (awaits w)) = true ->
  await_call ev E w = (Val (reading (E (awaits w))), suspend ev w (E (awaits w))).
Proof.
  intros H. apply returns_normally_inv in H as (Hc & r & Ha).
  unfold reading. rewrite Ha. apply await_call_returns; assumption.
Qed.

Lemma sleep_returns secs E w :
  returns_normally (E (awaits w)) = true ->
  sleep secs E w = (Val tt, suspend (Sleep secs) w (E (awaits w))).
Proof.
  intros H. apply returns_normally_inv in H as (Hc & _). apply sleep_done, Hc.
Qed.

(** Polls that find no crossing leave the loop where it was, [k] probes
    and sleeps later. *)
Lemma gripper_seek_quiet k n E w c :
  homing_gripper (app w) = true ->
  c2 (locals w) = Some c ->
  (forall j, (j < 2 * k)%nat -> returns_normally (E (awaits w + j)%nat) = true) ->
  (forall i, (i < k)%nat ->
     torque_above (reading (E (awaits w + 2 * i)%nat)) 0.03 = false) ->
  gripper_seek (k + n) E w
  = gripper_seek n E (after_quiet_polls k (gripper_probe c) E w).
Proof.
  revert w. induction k as [|k IH]; intros w Hh Hl HE Hq; [reflexivity|].
  assert (T0 : returns_normally (E (awaits w)) = true).
  { rewrite <- (Nat.add_0_r (awaits w)). apply HE. lia. }
  assert (T1 : returns_normally (E (S (awaits w))) = true).
  { rewrite <- Nat.add_1_r. apply HE. lia. }
  assert (Q0 : torque_above (reading (E (awaits w))) 0.03 = false).
  { specialize (Hq 0%nat). rewrite Nat.mul_0_r, Nat.add_0_r in Hq. apply Hq. lia. }
  cbn [Nat.add gripper_seek after_quiet_polls]. rewrite bind_gets, Hh.
  rewrite (bind_Val _ _ _ _ _ _ (local_c2_bound E w c Hl)).
  rewrite (bind_Val _ _ _ _ _ _ (await_call_reading _ E w T0)).
  rewrite Q0.
  erewrite (bind_Val (sleep _));
    [|apply sleep_returns; rewrite suspend_awaits; exact T1].
  rewrite suspend_awaits. apply IH.
  - rewrite !suspend_homing_gripper. exact Hh.
  - rewrite !suspend_locals. exact Hl.
  - intros j Hj. rewrite !suspend_awaits.
    replace (S (S (awaits w)) + j)%nat with (awaits w + (2 + j))%nat by lia.
    apply HE. lia.
  - intros i Hi. rewrite !suspend_awaits.
    replace (S (S (awaits w)) + 2 * i)%nat with (awaits w + 2 * S i)%nat by lia.
    apply Hq. lia.
Qed.

(** Peeling a statement that falls through off the front of a guarded
    block. *)
Lemma try_except_step {A B} (m : M A) (k : A -> M B) h E w a w' :
  m E w = (Val a, w') ->
  try_except (bind m k) h E w = try_except (k a) h E w'.
Proof. intros H. unfold try_except. rewrite (bind_Val _ _ _ _ _ _ H). reflexivity. Qed.

Lemma try_finally_except_step {A B} (m : M A) (k : A -> M B) h f E w a w' :
  m E w = (Val a, w') ->
  try_finally (try_except (bind m k) h) f E w
  = try_finally (try_except (k a) h) f E w'.
Proof.
  intros H. unfold try_finally. rewrite (try_except_step _ _ _ _ _ _ _ H).
  reflexivity.
Qed.

Lemma coroutine_step {A} (m : M A) (k : A -> M unit) E w a w' :
  m E w = (Val a, w') -> coroutine (bind m k) E w = coroutine (k a) E w'.
Proof. intros H. unfold coroutine. rewrite (bind_Val _ _ _ _ _ _ H). reflexivity. Qed.

Lemma coroutine_congr (body body' : M unit) E w w' :
  body E w = body' E w' -> coroutine body E w = coroutine body' E w'.
Proof. intros H. unfold coroutine. rewrite H. reflexivity. Qed.

(** The start of [home_gripper] up to the loop. *)
Lemma home_gripper_starts n E w k1 k2 :
  homing_gripper (app w) = false ->
  controllers (app w) !! 1 = Some k1 ->
  controllers (app w) !! 2 = Some k2 ->
  returns_normally (E (awaits w)) = true ->
  returns_normally (E (S (awaits w))) = true ->
  home_gripper n E w =
    coroutine (gripper_homing_rest n) E
      (seeking_from (with_homing_gripper true) homegrip_btn k1 k2 k2 E w).
Proof.
  intros Hh H1 H2 T0 T1. unfold home_gripper.
  erewrite (coroutine_step enter); [|reflexivity].
  apply coroutine_congr.
  erewrite (try_finally_except_step (gets homing_gripper)); [|reflexivity].
  cbn [app with_locals]. rewrite Hh.
  erewrite (try_finally_except_step (modify _)); [|reflexivity].
  erewrite (try_finally_except_step (modify _)); [|reflexivity].
  erewrite (try_finally_except_step bind_locals);
    [|unfold bind_locals;
      erewrite (bind_Val initialize_controllers);
        [reflexivity
        |apply (initialize_controllers_cached _ _ k1 k2); [exact H1|exact H2]]].
  erewrite (try_finally_except_step local_c2);
    [|apply (local_c2_bound _ _ k2); reflexivity].
  erewrite (try_finally_except_step (await_call _));
    [|apply await_call_reading; exact T0].
  erewrite (try_finally_except_step (sleep _));
    [|apply sleep_returns; rewrite suspend_awaits; exact T1].
  unfold gripper_homing_rest, seeking_from.
  cbn [awaits with_locals with_app fst snd]. rewrite suspend_awaits.
  reflexivity.
Qed.

Lemma try_finally_eval {A} (body : M A) (final : M unit) E w (r : ctl A) w1 w2 :
  body E w = (r, w1) -> left_loop r = true -> final E w1 = (Val tt, w2) ->
  try_finally body final E w = (r, w2).
Proof.
  intros Hb Hl Hf. unfold try_finally. rewrite Hb.
  destruct r; try discriminate Hl; rewrite Hf; reflexivity.
Qed.

Lemma try_except_raise {A B} (m : M A) (k : A -> M B) h E w e w1 :
  m E w = (Exn e, w1) ->
  try_except (bind m k) h E w
  = if is_Exception e then h e E w1 else (Exn e, w1).
Proof. intros H. unfold try_except. rewrite (bind_Exn _ _ _ _ _ _ H). reflexivity. Qed.

Lemma seeking_from_trace flag btn k1 k2 k E w :
  trace (seeking_from flag btn k1 k2 k E w)
  = trace w ++ [Call k set_stop; Sleep 0.1].
Proof.
  unfold seeking_from. rewrite !suspend_trace, <- app_assoc. reflexivity.
Qed.

Lemma seeking_from_awaits flag btn k1 k2 k E w :
  awaits (seeking_from flag btn k1 k2 k E w) = (awaits w + 2)%nat.
Proof. unfold seeking_from. rewrite !suspend_awaits. simpl. lia. Qed.

Lemma seeking_from_locals flag btn k1 k2 k E w :
  locals (seeking_from flag btn k1 k2 k E w) = mkFrame (Some k1) (Some k2).
Proof. unfold seeking_from. rewrite !suspend_locals. reflexivity. Qed.

Lemma seeking_from_stream flag btn k1 k2 k E w :
  (forall a, stream (flag a) = stream a) ->
  stream (app (seeking_from flag btn k1 k2 k E w)) = stream (app w).
Proof.
  intros Hf. unfold seeking_from. rewrite !suspend_stream. simpl. apply Hf.
Qed.

Lemma stream_command_returns data E w :
  returns_normally (E (awaits w)) = true ->
  stream_command data E w
  = (Val tt, suspend (StreamCommand (stream (app w)) data) w (E (awaits w))).
Proof.
  intros T. unfold stream_command. rewrite bind_gets.
  rewrite (bind_Val _ _ _ _ _ _ (await_call_reading _ E w T)). reflexivity.
Qed.

(** The three ways a poll can end the gripper's loop. *)
Lemma gripper_seek_crossing n E w c :
  homing_gripper (app w) = true ->
  c2 (locals w) = Some c ->
  returns_normally (E (awaits w)) = true ->
  returns_normally (E (S (awaits w))) = true ->
  returns_normally (E (S (S (awaits w)))) = true ->
  torque_above (reading (E (awaits w))) 0.03 = true ->
  gripper_seek (S n) E w =
    (Val true,
     suspend (Sleep 0.1)
       (suspend (StreamCommand (stream (app w)) "d exact 7")
          (suspend (gripper_probe c) w (E (awaits w)))
          (E (S (awaits w))))
       (E (S (S (awaits w))))).
Proof.
  intros Hh Hl T0 T1 T2 Hq. cbn [gripper_seek]. rewrite bind_gets, Hh.
  rewrite (bind_Val _ _ _ _ _ _ (local_c2_bound E w c Hl)).
  rewrite (bind_Val _ _ _ _ _ _ (await_call_reading _ E w T0)).
  rewrite Hq.
  erewrite (bind_Val (stream_command _));
    [|apply stream_command_returns; rewrite suspend_awaits; exact T1].
  rewrite suspend_stream.
  erewrite (bind_Val (sleep _));
    [|apply sleep_returns; rewrite !suspend_awaits; exact T2].
  rewrite !suspend_awaits. reflexivity.
Qed.

Lemma gripper_seek_probe_fails n E w c :
  homing_gripper (app w) = true ->
  c2 (locals w) = Some c ->
  cancelled (E (awaits w)) = false ->
  answer (E (awaits w)) = Fails ->
  gripper_seek (S n) E w
  = (Exn TransportError, suspend (gripper_probe c) w (E (awaits w))).
Proof.
  intros Hh Hl Hc Ha. cbn [gripper_seek]. rewrite bind_gets, Hh.
  rewrite (bind_Val _ _ _ _ _ _ (local_c2_bound E w c Hl)).
  apply bind_Exn, await_call_fails; assumption.
Qed.

Lemma gripper_seek_probe_cancelled n E w c :
  homing_gripper (app w) = true ->
  c2 (locals w) = Some c ->
  cancelled (E (awaits w)) = true ->
  gripper_seek (S n) E w
  = (Exn CancelledError, suspend (gripper_probe c) w (E (awaits w))).
Proof.
  intros Hh Hl Hc. cbn [gripper_seek]. rewrite bind_gets, Hh.
  rewrite (bind_Val _ _ _ _ _ _ (local_c2_bound E w c Hl)).
  apply bind_Exn, await_call_cancelled; assumption.
Qed.

(** The [finally:] block of [home_gripper] when its stop command returns. *)
Lemma gripper_finally_returns E w c :
  c2 (locals w) = Some c ->
  returns_normally (E (awaits w)) = true ->
  (modify (with_homing_gripper false) >>
   post (config homegrip_btn true) >>
   let! k := local_c2 in
   await_call (Call k set_stop) >> ret tt) E w
  = (Val tt,
     suspend (Call c set_stop)
       (emit (After (config homegrip_btn true))
             (with_app (with_homing_gripper false) w))
       (E (awaits w))).
Proof.
  intros Hl T. rewrite bind_modify, bind_post.
  erewrite (bind_Val local_c2); [|apply (local_c2_bound _ _ c); exact Hl].
  erewrite (bind_Val (await_call _)); [|apply await_call_reading; exact T].
  reflexivity.
Qed.

(** The seeking world of the gripper after [k] quiet polls. *)
Lemma gripper_polls_world k E w k1 k2 :
  let ws := seeking_from (with_homing_gripper true) homegrip_btn k1 k2 k2 E w in
  let wk := after_quiet_polls k (gripper_probe k2) E ws in
  homing_gripper (app wk) = true /\
  c2 (locals wk) = Some k2 /\
  awaits wk = (awaits w + 2 + 2 * k)%nat /\
  stream (app wk) = stream (app w) /\
  trace wk = trace w ++ [Call k2 set_stop; Sleep 0.1]
                     ++ quiet_polls k (gripper_probe k2).
Proof.
  intros ws wk. unfold wk.
  rewrite after_quiet_polls_homing_gripper, after_quiet_polls_locals,
    after_quiet_polls_awaits, after_quiet_polls_stream, after_quiet_polls_trace.
  unfold ws.
  rewrite seeking_from_locals, seeking_from_awaits, seeking_from_trace,
    seeking_from_stream by reflexivity.
  repeat split; try reflexivity.
  - unfold seeking_from. rewrite !suspend_homing_gripper. reflexivity.
  - rewrite <- app_assoc. reflexivity.
Qed.

(** [home_gripper] up to the poll that ends the loop. *)
Lemma home_gripper_polls k n E w k1 k2 :
  homing_gripper (app w) = false ->
  controllers (app w) !! 1 = Some k1 ->
  controllers (app w) !! 2 = Some k2 ->
  (forall j, (j < awaits w + 2 + 2 * k)%nat -> returns_normally (E j) = true) ->
  (forall i, (i < k)%nat ->
     torque_above (reading (E (awaits w + 2 + 2 * i)%nat)) 0.03 = false) ->
  home_gripper (k + S n) E w =
    coroutine
      (try_finally
         (try_except
            (let! success := gripper_seek (S n) in
             if success then post (showinfo "Success" "Gripper homing completed")
             else ret tt)
            (fun e => post (showerror "Error" e)))
         (modify (with_homing_gripper false) >>
          post (config homegrip_btn true) >>
          let! k := local_c2 in
          await_call (Call k set_stop) >> ret tt))
      E
      (after_quiet_polls k (gripper_probe k2) E
         (seeking_from (with_homing_gripper true) homegrip_btn k1 k2 k2 E w)).
Proof.
  intros Hh H1 H2 HE Hq.
  rewrite (home_gripper_starts _ E w k1 k2 Hh H1 H2)
    by (apply HE; lia).
  apply coroutine_congr. unfold gripper_homing_rest.
  unfold try_finally, try_except, bind at 1 3.
  rewrite (gripper_seek_quiet k (S n) E _ k2).
  - reflexivity.
  - unfold seeking_from. rewrite !suspend_homing_gripper. reflexivity.
  - rewrite seeking_from_locals. reflexivity.
  - intros j Hj. rewrite seeking_from_awaits. apply HE. lia.
  - intros i Hi. rewrite seeking_from_awaits. apply Hq. exact Hi.
Qed.

(** [home_gripper] with a torque crossing on poll [k+1]: it succeeds, having
    sent [k+1] probes, then exactly one [d exact 7], and nothing to the
    actuator afterwards but the final stop command; the flag is cleared. *)
Theorem home_gripper_succeeds (k n : nat) (E : env) (w : World)
    (k1 k2 : Controller) :
  homing_gripper (app w) = false ->
  controllers (app w) !! 1 = Some k1 ->
  controllers (app w) !! 2 = Some k2 ->
  (forall j, returns_normally (E j) = true) ->
  (forall i, (i < k)%nat ->
     torque_above (reading (E (awaits w + 2 + 2 * i)%nat)) 0.03 = false) ->
  torque_above (reading (E (awaits w + 2 + 2 * k)%nat)) 0.03 = true ->
  let out := home_gripper (k + S n) E w in
  fst out = Val tt /\
  since w (snd out) =
    [Call k2 set_stop; Sleep 0.1] ++ quiet_polls k (gripper_probe k2) ++
    [gripper_probe k2;
     StreamCommand (stream (app w)) "d exact 7";
     Sleep 0.1;
     After (showinfo "Success" "Gripper homing completed");
     After (config homegrip_btn true);
     Call k2 set_stop] /\
  homing_gripper (app (snd out)) = false.
Proof.
  intros Hh H1 H2 HE Hq Hx out. unfold out.
  rewrite (home_gripper_polls k n E w k1 k2 Hh H1 H2 (fun j _ => HE j) Hq).
  destruct (gripper_polls_world k E w k1 k2) as (Fh & Fl & Fa & Fs & Ft).
  set (wk := after_quiet_polls k (gripper_probe k2) E
               (seeking_from (with_homing_gripper true) homegrip_btn k1 k2 k2 E w))
    in *.
  rewrite <- Fa in Hx.
  pose proof (gripper_seek_crossing n E wk k2 Fh Fl (HE _) (HE _) (HE _) Hx) as Hseek.
  set (we := suspend (Sleep 0.1)
               (suspend (StreamCommand (stream (app wk)) "d exact 7")
                  (suspend (gripper_probe k2) wk (E (awaits wk)))
                  (E (S (awaits wk))))
               (E (S (S (awaits wk))))) in *.
  set (w5 := emit (After (showinfo "Success" "Gripper homing completed")) we).
  assert (L5 : c2 (locals w5) = Some k2).
  { unfold w5, we. cbn [locals emit]. rewrite !suspend_locals. exact Fl. }
  unfold coroutine.
  erewrite (try_finally_eval _ _ E wk (Val tt) w5);
    [|rewrite (try_except_step _ _ _ _ _ _ _ Hseek); reflexivity
     |reflexivity
     |apply (gripper_finally_returns E w5 k2 L5), HE].
  cbn [fst snd]. split; [reflexivity|]. split.
  - apply since_app. rewrite suspend_trace. unfold w5, we.
    cbn [trace emit with_app]. rewrite !suspend_trace, Ft, Fs.
    unfold gripper_probe. rewrite <- !app_assoc. reflexivity.
  - rewrite suspend_homing_gripper. reflexivity.
Qed.

(** [home_gripper] with a probe that raises on poll [k+1]: the error is
    reported, not propagated; the flag is cleared, the button re-enabled and
    the actuator sent its stop command; no reference command is issued. *)
Theorem home_gripper_probe_failure (k n : nat) (E : env) (w : World)
    (k1 k2 : Controller) :
  homing_gripper (app w) = false ->
  controllers (app w) !! 1 = Some k1 ->
  controllers (app w) !! 2 = Some k2 ->
  (forall j, j <> (awaits w + 2 + 2 * k)%nat -> returns_normally (E j) = true) ->
  (forall i, (i < k)%nat ->
     torque_above (reading (E (awaits w + 2 + 2 * i)%nat)) 0.03 = false) ->
  cancelled (E (awaits w + 2 + 2 * k)%nat) = false ->
  answer (E (awaits w + 2 + 2 * k)%nat) = Fails ->
  let out := home_gripper (k + S n) E w in
  fst out = Val tt /\
  since w (snd out) =
    [Call k2 set_stop; Sleep 0.1] ++ quiet_polls k (gripper_probe k2) ++
    [gripper_probe k2;
     After (showerror "Error" TransportError);
     After (config homegrip_btn true);
     Call k2 set_stop] /\
  homing_gripper (app (snd out)) = false.
Proof.
  intros Hh H1 H2 HE Hq Hc Ha out. unfold out.
  rewrite (home_gripper_polls k n E w k1 k2 Hh H1 H2) by
    (try exact Hq; intros j Hj; apply HE; lia).
  destruct (gripper_polls_world k E w k1 k2) as (Fh & Fl & Fa & Fs & Ft).
  set (wk := after_quiet_polls k (gripper_probe k2) E
               (seeking_from (with_homing_gripper true) homegrip_btn k1 k2 k2 E w))
    in *.
  rewrite <- Fa in Hc, Ha.
  pose proof (gripper_seek_probe_fails n E wk k2 Fh Fl Hc Ha) as Hseek.
  set (w5 := emit (After (showerror "Error" TransportError))
                  (suspend (gripper_probe k2) wk (E (awaits wk)))).
  assert (L5 : c2 (locals w5) = Some k2).
  { unfold w5. cbn [locals emit]. rewrite !suspend_locals. exact Fl. }
  assert (T5 : returns_normally (E (awaits w5)) = true).
  { apply HE. unfold w5. cbn [awaits emit]. rewrite suspend_awaits, Fa. lia. }
  unfold coroutine.
  erewrite (try_finally_eval _ _ E wk (Val tt) w5);
    [|rewrite (try_except_raise _ _ _ _ _ _ _ Hseek); reflexivity
     |reflexivity
     |apply (gripper_finally_returns E w5 k2 L5), T5].
  cbn [fst snd]. split; [reflexivity|]. split.
  - apply since_app. rewrite suspend_trace. unfold w5.
    cbn [trace emit with_app]. rewrite !suspend_trace, Ft.
    unfold gripper_probe. rewrite <- !app_assoc. reflexivity.
  - rewrite suspend_homing_gripper. reflexivity.
Qed.

(** [home_gripper] cancelled while it awaits the probe of poll [k+1]: the
    cancellation is no [Exception], so no error is reported and it
    propagates; the [finally:] block still clears the flag, re-enables the
    button and sends the actuator its stop command. *)
Theorem home_gripper_cancelled (k n : nat) (E : env) (w : World)
    (k1 k2 : Controller) :
  homing_gripper (app w) = false ->
  controllers (app w) !! 1 = Some k1 ->
  controllers (app w) !! 2 = Some k2 ->
  (forall j, j <> (awaits w + 2 + 2 * k)%nat -> returns_normally (E j) = true) ->
  (forall i, (i < k)%nat ->
     torque_above (reading (E (awaits w + 2 + 2 * i)%nat)) 0.03 = false) ->
  cancelled (E (awaits w + 2 + 2 * k)%nat) = true ->
  let out := home_gripper (k + S n) E w in
  fst out = Exn CancelledError /\
  since w (snd out) =
    [Call k2 set_stop; Sleep 0.1] ++ quiet_polls k (gripper_probe k2) ++
    [gripper_probe k2;
     After (config homegrip_btn true);
     Call k2 set_stop] /\
  homing_gripper (app (snd out)) = false.
Proof.
  intros Hh H1 H2 HE Hq Hc out. unfold out.
  rewrite (home_gripper_polls k n E w k1 k2 Hh H1 H2) by
    (try exact Hq; intros j Hj; apply HE; lia).
  destruct (gripper_polls_world k E w k1 k2) as (Fh & Fl & Fa & Fs & Ft).
  set (wk := after_quiet_polls k (gripper_probe k2) E
               (seeking_from (with_homing_gripper true) homegrip_btn k1 k2 k2 E w))
    in *.
  rewrite <- Fa in Hc.
  pose proof (gripper_seek_probe_cancelled n E wk k2 Fh Fl Hc) as Hseek.
  set (w5 := suspend (gripper_probe k2) wk (E (awaits wk))).
  assert (L5 : c2 (locals w5) = Some k2).
  { unfold w5. rewrite suspend_locals. exact Fl. }
  assert (T5 : returns_normally (E (awaits w5)) = true).
  { apply HE. unfold w5. rewrite suspend_awaits, Fa. lia. }
  unfold coroutine.
  erewrite (try_finally_eval _ _ E wk (Exn CancelledError) w5);
    [|rewrite (try_except_raise _ _ _ _ _ _ _ Hseek); reflexivity
     |reflexivity
     |apply (gripper_finally_returns E w5 k2 L5), T5].
  cbn [fst snd]. split; [reflexivity|]. split.
  - apply since_app. rewrite suspend_trace. unfold w5.
    cbn [trace emit with_app]. rewrite !suspend_trace, Ft.
    unfold gripper_probe. rewrite <- !app_assoc. reflexivity.
  - rewrite suspend_homing_gripper. reflexivity.
Qed.


(** ** The trigger's homing procedure *)

(** Polls that find no crossing leave the loop where it was, [k] probes
    and sleeps later. *)
Lemma trigger_seek_quiet k n E w c :
  homing_trigger (app w) = true ->
  c1 (locals w) = Some c ->
  (forall j, (j < 2 * k)%nat -> returns_normally (E (awaits w + j)%nat) = true) ->
  (forall i, (i < k)%nat ->
     torque_below (reading (E (awaits w + 2 * i)%nat)) (-0.02)%float = false) ->
  trigger_seek (k + n) E w
  = trigger_seek n E (after_quiet_polls k (trigger_probe c) E w).
Proof.
  revert w. induction k as [|k IH]; intros w Hh Hl HE Hq; [reflexivity|].
  assert (T0 : returns_normally (E (awaits w)) = true).
  { rewrite <- (Nat.add_0_r (awaits w)). apply HE. lia. }
  assert (T1 : returns_normally (E (S (awaits w))) = true).
  { rewrite <- Nat.add_1_r. apply HE. lia. }
  assert (Q0 : torque_below (reading (E (awaits w))) (-0.02)%float = false).
  { specialize (Hq 0%nat). rewrite Nat.mul_0_r, Nat.add_0_r in Hq. apply Hq. lia. }
  cbn [Nat.add trigger_seek after_quiet_polls]. rewrite bind_gets, Hh.
  rewrite (bind_Val _ _ _ _ _ _ (local_c1_bound E w c Hl)).
  rewrite (bind_Val _ _ _ _ _ _ (await_call_reading _ E w T0)).
  rewrite Q0.
  erewrite (bind_Val (sleep _));
    [|apply sleep_returns; rewrite suspend_awaits; exact T1].
  rewrite suspend_awaits. apply IH.
  - rewrite !suspend_homing_trigger. exact Hh.
  - rewrite !suspend_locals. exact Hl.
  - intros j Hj. rewrite !suspend_awaits.
    replace (S (S (awaits w)) + j)%nat with (awaits w + (2 + j))%nat by lia.
    apply HE. lia.
  - intros i Hi. rewrite !suspend_awaits.
    replace (S (S (awaits w)) + 2 * i)%nat with (awaits w + 2 * S i)%nat by lia.
    apply Hq. lia.
Qed.

(** The start of [home_trigger] up to the loop. *)
Lemma home_trigger_starts n E w k1 k2 :
  homing_trigger (app w) = false ->
  controllers (app w) !! 1 = Some k1 ->
  controllers (app w) !! 2 = Some k2 ->
  returns_normally (E (awaits w)) = true ->
  returns_normally (E (S (awaits w))) = true ->
  home_trigger n E w =
    coroutine (trigger_homing_rest n) E
      (seeking_from (with_homing_trigger true) hometrig_btn k1 k2 k1 E w).
Proof.
  intros Hh H1 H2 T0 T1. unfold home_trigger.
  erewrite (coroutine_step enter); [|reflexivity].
  apply coroutine_congr.
  erewrite (try_finally_except_step (gets homing_trigger)); [|reflexivity].
  cbn [app with_locals]. rewrite Hh.
  erewrite (try_finally_except_step (modify _)); [|reflexivity].
  erewrite (try_finally_except_step (modify _)); [|reflexivity].
  erewrite (try_finally_except_step bind_locals);
    [|unfold bind_locals;
      erewrite (bind_Val initialize_controllers);
        [reflexivity
        |apply (initialize_controllers_cached _ _ k1 k2); [exact H1|exact H2]]].
  erewrite (try_finally_except_step local_c1);
    [|apply (local_c1_bound _ _ k1); reflexivity].
  erewrite (try_finally_except_step (await_call _));
    [|apply await_call_reading; exact T0].
  erewrite (try_finally_except_step (sleep _));
    [|apply sleep_returns; rewrite suspend_awaits; exact T1].
  unfold trigger_homing_rest, seeking_from.
  cbn [awaits with_locals with_app fst snd]. rewrite suspend_awaits.
  reflexivity.
Qed.

(** The three ways a poll can end the trigger's loop. *)
Lemma trigger_seek_crossing n E w c :
  homing_trigger (app w) = true ->
  c1 (locals w) = Some c ->
  returns_normally (E (awaits w)) = true ->
  returns_normally (E (S (awaits w))) = true ->
  returns_normally (E (S (S (awaits w)))) = true ->
  torque_below (reading (E (awaits w))) (-0.02)%float = true ->
  trigger_seek (S n) E w =
    (Val true,
     suspend (Sleep 0.1)
       (suspend (StreamCommand (stream (app w)) "d exact 0")
          (suspend (trigger_probe c) w (E (awaits w)))
          (E (S (awaits w))))
       (E (S (S (awaits w))))).
Proof.
  intros Hh Hl T0 T1 T2 Hq. cbn [trigger_seek]. rewrite bind_gets, Hh.
  rewrite (bind_Val _ _ _ _ _ _ (local_c1_bound E w c Hl)).
  rewrite (bind_Val _ _ _ _ _ _ (await_call_reading _ E w T0)).
  rewrite Hq.
  erewrite (bind_Val (stream_command _));
    [|apply stream_command_returns; rewrite suspend_awaits; exact T1].
  rewrite suspend_stream.
  erewrite (bind_Val (sleep _));
    [|apply sleep_returns; rewrite !suspend_awaits; exact T2].
  rewrite !suspend_awaits. reflexivity.
Qed.

Lemma trigger_seek_probe_fails n E w c :
  homing_trigger (app w) = true ->
  c1 (locals w) = Some c ->
  cancelled (E (awaits w)) = false ->
  answer (E (awaits w)) = Fails ->
  trigger_seek (S n) E w
  = (Exn TransportError, suspend (trigger_probe c) w (E (awaits w))).
Proof.
  intros Hh Hl Hc Ha. cbn [trigger_seek]. rewrite bind_gets, Hh.
  rewrite (bind_Val _ _ _ _ _ _ (local_c1_bound E w c Hl)).
  apply bind_Exn, await_call_fails; assumption.
Qed.

Lemma trigger_seek_probe_cancelled n E w c :
  homing_trigger (app w) = true ->
  c1 (locals w) = Some c ->
  cancelled (E (awaits w)) = true ->
  trigger_seek (S n) E w
  = (Exn CancelledError, suspend (trigger_probe c) w (E (awaits w))).
Proof.
  intros Hh Hl Hc. cbn [trigger_seek]. rewrite bind_gets, Hh.
  rewrite (bind_Val _ _ _ _ _ _ (local_c1_bound E w c Hl)).
  apply bind_Exn, await_call_cancelled; assumption.
Qed.

(** The [finally:] block of [home_trigger] when its stop command returns. *)
Lemma trigger_finally_returns E w c :
  c1 (locals w) = Some c ->
  returns_normally (E (awaits w)) = true ->
  (modify (with_homing_trigger false) >>
   post (config hometrig_btn true) >>
   let! k := local_c1 in
   await_call (Call k set_stop) >> ret tt) E w
  = (Val tt,
     suspend (Call c set_stop)
       (emit (After (config hometrig_btn true))
             (with_app (with_homing_trigger false) w))
       (E (awaits w))).
Proof.
  intros Hl T. rewrite bind_modify, bind_post.
  erewrite (bind_Val local_c1); [|apply (local_c1_bound _ _ c); exact Hl].
  erewrite (bind_Val (await_call _)); [|apply await_call_reading; exact T].
  reflexivity.
Qed.

(** The seeking world of the gripper after [k] quiet polls. *)
Lemma trigger_polls_world k E w k1 k2 :
  let ws := seeking_from (with_homing_trigger true) hometrig_btn k1 k2 k1 E w in
  let wk := after_quiet_polls k (trigger_probe k1) E ws in
  homing_trigger (app wk) = true /\
  c1 (locals wk) = Some k1 /\
  awaits wk = (awaits w + 2 + 2 * k)%nat /\
  stream (app wk) = stream (app w) /\
  trace wk = trace w ++ [Call k1 set_stop; Sleep 0.1]
                     ++ quiet_polls k (trigger_probe k1).
Proof.
  intros ws wk. unfold wk.
  rewrite after_quiet_polls_homing_trigger, after_quiet_polls_locals,
    after_quiet_polls_awaits, after_quiet_polls_stream, after_quiet_polls_trace.
  unfold ws.
  rewrite seeking_from_locals, seeking_from_awaits, seeking_from_trace,
    seeking_from_stream by reflexivity.
  repeat split; try reflexivity.
  - unfold seeking_from. rewrite !suspend_homing_trigger. reflexivity.
  - rewrite <- app_assoc. reflexivity.
Qed.

(** [home_trigger] up to the poll that ends the loop. *)
Lemma home_trigger_polls k n E w k1 k2 :
  homing_trigger (app w) = false ->
  controllers (app w) !! 1 = Some k1 ->
  controllers (app w) !! 2 = Some k2 ->
  (forall j, (j < awaits w + 2 + 2 * k)%nat -> returns_normally (E j) = true) ->
  (forall i, (i < k)%nat ->
     torque_below (reading (E (awaits w + 2 + 2 * i)%nat)) (-0.02)%float = false) ->
  home_trigger (k + S n) E w =
    coroutine
      (try_finally
         (try_except
            (let! success := trigger_seek (S n) in
             if success then post (showinfo "Success" "Trigger homing completed")
             else ret tt)
            (fun e => post (showerror "Error" e)))
         (modify (with_homing_trigger false) >>
          post (config hometrig_btn true) >>
          let! k := local_c1 in
          await_call (Call k set_stop) >> ret tt))
      E
      (after_quiet_polls k (trigger_probe k1) E
         (seeking_from (with_homing_trigger true) hometrig_btn k1 k2 k1 E w)).
Proof.
  intros Hh H1 H2 HE Hq.
  rewrite (home_trigger_starts _ E w k1 k2 Hh H1 H2)
    by (apply HE; lia).
  apply coroutine_congr. unfold trigger_homing_rest.
  unfold try_finally, try_except, bind at 1 3.
  rewrite (trigger_seek_quiet k (S n) E _ k1).
  - reflexivity.
  - unfold seeking_from. rewrite !suspend_homing_trigger. reflexivity.
  - rewrite seeking_from_locals. reflexivity.
  - intros j Hj. rewrite seeking_from_awaits. apply HE. lia.
  - intros i Hi. rewrite seeking_from_awaits. apply Hq. exact Hi.
Qed.

(** [home_trigger] with a torque crossing on poll [k+1]: it succeeds, having
    sent the trigger [k+1] probes and then exactly one [d exact 0], which
    goes through [self.stream], and nothing afterwards but the trigger's
    final stop command; the flag is cleared. *)
Theorem home_trigger_succeeds (k n : nat) (E : env) (w : World)
    (k1 k2 : Controller) :
  homing_trigger (app w) = false ->
  controllers (app w) !! 1 = Some k1 ->
  controllers (app w) !! 2 = Some k2 ->
  (forall j, returns_normally (E j) = true) ->
  (forall i, (i < k)%nat ->
     torque_below (reading (E (awaits w + 2 + 2 * i)%nat)) (-0.02)%float = false) ->
  torque_below (reading (E (awaits w + 2 + 2 * k)%nat)) (-0.02)%float = true ->
  let out := home_trigger (k + S n) E w in
  fst out = Val tt /\
  since w (snd out) =
    [Call k1 set_stop; Sleep 0.1] ++ quiet_polls k (trigger_probe k1) ++
    [trigger_probe k1;
     StreamCommand (stream (app w)) "d exact 0";
     Sleep 0.1;
     After (showinfo "Success" "Trigger homing completed");
     After (config hometrig_btn true);
     Call k1 set_stop] /\
  homing_trigger (app (snd out)) = false.
Proof.
  intros Hh H1 H2 HE Hq Hx out. unfold out.
  rewrite (home_trigger_polls k n E w k1 k2 Hh H1 H2 (fun j _ => HE j) Hq).
  destruct (trigger_polls_world k E w k1 k2) as (Fh & Fl & Fa & Fs & Ft).
  set (wk := after_quiet_polls k (trigger_probe k1) E
               (seeking_from (with_homing_trigger true) hometrig_btn k1 k2 k1 E w))
    in *.
  rewrite <- Fa in Hx.
  pose proof (trigger_seek_crossing n E wk k1 Fh Fl (HE _) (HE _) (HE _) Hx) as Hseek.
  set (we := suspend (Sleep 0.1)
               (suspend (StreamCommand (stream (app wk)) "d exact 0")
                  (suspend (trigger_probe k1) wk (E (awaits wk)))
                  (E (S (awaits wk))))
               (E (S (S (awaits wk))))) in *.
  set (w5 := emit (After (showinfo "Success" "Trigger homing completed")) we).
  assert (L5 : c1 (locals w5) = Some k1).
  { unfold w5, we. cbn [locals emit]. rewrite !suspend_locals. exact Fl. }
  unfold coroutine.
  erewrite (try_finally_eval _ _ E wk (Val tt) w5);
    [|rewrite (try_except_step _ _ _ _ _ _ _ Hseek); reflexivity
     |reflexivity
     |apply (trigger_finally_returns E w5 k1 L5), HE].
  cbn [fst snd]. split; [reflexivity|]. split.
  - apply since_app. rewrite suspend_trace. unfold w5, we.
    cbn [trace emit with_app]. rewrite !suspend_trace, Ft, Fs.
    unfold trigger_probe. rewrite <- !app_assoc. reflexivity.
  - rewrite suspend_homing_trigger. reflexivity.
Qed.

(** [home_trigger] with a probe that raises on poll [k+1]: the error is
    reported, not propagated; the flag is cleared, the button re-enabled and
    the actuator sent its stop command; no reference command is issued. *)
Theorem home_trigger_probe_failure (k n : nat) (E : env) (w : World)
    (k1 k2 : Controller) :
  homing_trigger (app w) = false ->
  controllers (app w) !! 1 = Some k1 ->
  controllers (app w) !! 2 = Some k2 ->
  (forall j, j <> (awaits w + 2 + 2 * k)%nat -> returns_normally (E j) = true) ->
  (forall i, (i < k)%nat ->
     torque_below (reading (E (awaits w + 2 + 2 * i)%nat)) (-0.02)%float = false) ->
  cancelled (E (awaits w + 2 + 2 * k)%nat) = false ->
  answer (E (awaits w + 2 + 2 * k)%nat) = Fails ->
  let out := home_trigger (k + S n) E w in
  fst out = Val tt /\
  since w (snd out) =
    [Call k1 set_stop; Sleep 0.1] ++ quiet_polls k (trigger_probe k1) ++
    [trigger_probe k1;
     After (showerror "Error" TransportError);
     After (config hometrig_btn true);
     Call k1 set_stop] /\
  homing_trigger (app (snd out)) = false.
Proof.
  intros Hh H1 H2 HE Hq Hc Ha out. unfold out.
  rewrite (home_trigger_polls k n E w k1 k2 Hh H1 H2) by
    (try exact Hq; intros j Hj; apply HE; lia).
  destruct (trigger_polls_world k E w k1 k2) as (Fh & Fl & Fa & Fs & Ft).
  set (wk := after_quiet_polls k (trigger_probe k1) E
               (seeking_from (with_homing_trigger true) hometrig_btn k1 k2 k1 E w))
    in *.
  rewrite <- Fa in Hc, Ha.
  pose proof (trigger_seek_probe_fails n E wk k1 Fh Fl Hc Ha) as Hseek.
  set (w5 := emit (After (showerror "Error" TransportError))
                  (suspend (trigger_probe k1) wk (E (awaits wk)))).
  assert (L5 : c1 (locals w5) = Some k1).
  { unfold w5. cbn [locals emit]. rewrite !suspend_locals. exact Fl. }
  assert (T5 : returns_normally (E (awaits w5)) = true).
  { apply HE. unfold w5. cbn [awaits emit]. rewrite suspend_awaits, Fa. lia. }
  unfold coroutine.
  erewrite (try_finally_eval _ _ E wk (Val tt) w5);
    [|rewrite (try_except_raise _ _ _ _ _ _ _ Hseek); reflexivity
     |reflexivity
     |apply (trigger_finally_returns E w5 k1 L5), T5].
  cbn [fst snd]. split; [reflexivity|]. split.
  - apply since_app. rewrite suspend_trace. unfold w5.
    cbn [trace emit with_app]. rewrite !suspend_trace, Ft.
    unfold trigger_probe. rewrite <- !app_assoc. reflexivity.
  - rewrite suspend_homing_trigger. reflexivity.
Qed.

(** [home_trigger] cancelled while it awaits the probe of poll [k+1]: the
    cancellation is no [Exception], so no error is reported and it
    propagates; the [finally:] block still clears the flag, re-enables the
    button and sends the actuator its stop command. *)
Theorem home_trigger_cancelled (k n : nat) (E : env) (w : World)
    (k1 k2 : Controller) :
  homing_trigger (app w) = false ->
  controllers (app w) !! 1 = Some k1 ->
  controllers (app w) !! 2 = Some k2 ->
  (forall j, j <> (awaits w + 2 + 2 * k)%nat -> returns_normally (E j) = true) ->
  (forall i, (i < k)%nat ->
     torque_below (reading (E (awaits w + 2 + 2 * i)%nat)) (-0.02)%float = false) ->
  cancelled (E (awaits w + 2 + 2 * k)%nat) = true ->
  let out := home_trigger (k + S n) E w in
  fst out = Exn CancelledError /\
  since w (snd out) =
    [Call k1 set_stop; Sleep 0.1] ++ quiet_polls k (trigger_probe k1) ++
    [trigger_probe k1;
     After (config hometrig_btn true);
     Call k1 set_stop] /\
  homing_trigger (app (snd out)) = false.
Proof.
  intros Hh H1 H2 HE Hq Hc out. unfold out.
  rewrite (home_trigger_polls k n E w k1 k2 Hh H1 H2) by
    (try exact Hq; intros j Hj; apply HE; lia).
  destruct (trigger_polls_world k E w k1 k2) as (Fh & Fl & Fa & Fs & Ft).
  set (wk := after_quiet_polls k (trigger_probe k1) E
               (seeking_from (with_homing_trigger true) hometrig_btn k1 k2 k1 E w))
    in *.
  rewrite <- Fa in Hc.
  pose proof (trigger_seek_probe_cancelled n E wk k1 Fh Fl Hc) as Hseek.
  set (w5 := suspend (trigger_probe k1) wk (E (awaits wk))).
  assert (L5 : c1 (locals w5) = Some k1).
  { unfold w5. rewrite suspend_locals. exact Fl. }
  assert (T5 : returns_normally (E (awaits w5)) = true).
  { apply HE. unfold w5. rewrite suspend_awaits, Fa. lia. }
  unfold coroutine.
  erewrite (try_finally_eval _ _ E wk (Exn CancelledError) w5);
    [|rewrite (try_except_raise _ _ _ _ _ _ _ Hseek); reflexivity
     |reflexivity
     |apply (trigger_finally_returns E w5 k1 L5), T5].
  cbn [fst snd]. split; [reflexivity|]. split.
  - apply since_app. rewrite suspend_trace. unfold w5.
    cbn [trace emit with_app]. rewrite !suspend_trace, Ft.
    unfold trigger_probe. rewrite <- !app_assoc. reflexivity.
  - rewrite suspend_homing_trigger. reflexivity.
Qed.


(** ** The homing theorems at work

    The session is [launched]: both controllers cached, five suspension
    points passed; the second poll of a homing procedure is the await
    number 9. *)

Lemma home_gripper_succeeds_witness :
  fst (home_gripper 2 (crossing_at 9 0.035) launched) = Val tt.
Proof.
  refine (proj1 (home_gripper_succeeds 1 0 (crossing_at 9 0.035) launched
                   (mkController 1 1) (mkController 2 2)
                   eq_refl eq_refl eq_refl _ _ eq_refl)).
  - intros j. unfold crossing_at. destruct (Nat.eqb j 9); reflexivity.
  - intros [|i] Hi; [reflexivity|lia].
Defined.

Lemma home_gripper_probe_failure_witness :
  fst (home_gripper 2 (failing_at 9) launched) = Val tt.
Proof.
  refine (proj1 (home_gripper_probe_failure 1 0 (failing_at 9) launched
                   (mkController 1 1) (mkController 2 2)
                   eq_refl eq_refl eq_refl _ _ eq_refl eq_refl)).
  - intros j Hj. unfold failing_at.
    destruct (Nat.eqb_spec j 9) as [->|_]; [destruct (Hj eq_refl)|reflexivity].
  - intros [|i] Hi; [reflexivity|lia].
Defined.

Lemma home_gripper_cancelled_witness :
  fst (home_gripper 2 (cancelled_at 9) launched) = Exn CancelledError.
Proof.
  refine (proj1 (home_gripper_cancelled 1 0 (cancelled_at 9) launched
                   (mkController 1 1) (mkController 2 2)
                   eq_refl eq_refl eq_refl _ _ eq_refl)).
  - intros j Hj. unfold cancelled_at.
    destruct (Nat.eqb_spec j 9) as [->|_]; [destruct (Hj eq_refl)|reflexivity].
  - intros [|i] Hi; [reflexivity|lia].
Defined.

Lemma home_trigger_succeeds_witness :
  fst (home_trigger 2 (crossing_at 9 (-0.025)) launched) = Val tt.
Proof.
  refine (proj1 (home_trigger_succeeds 1 0 (crossing_at 9 (-0.025)) launched
                   (mkController 1 1) (mkController 2 2)
                   eq_refl eq_refl eq_refl _ _ eq_refl)).
  - intros j. unfold crossing_at. destruct (Nat.eqb j 9); reflexivity.
  - intros [|i] Hi; [reflexivity|lia].
Defined.

Lemma home_trigger_probe_failure_witness :
  fst (home_trigger 2 (failing_at 9) launched) = Val tt.
Proof.
  refine (proj1 (home_trigger_probe_failure 1 0 (failing_at 9) launched
                   (mkController 1 1) (mkController 2 2)
                   eq_refl eq_refl eq_refl _ _ eq_refl eq_refl)).
  - intros j Hj. unfold failing_at.
    destruct (Nat.eqb_spec j 9) as [->|_]; [destruct (Hj eq_refl)|reflexivity].
  - intros [|i] Hi; [reflexivity|lia].
Defined.

Lemma home_trigger_cancelled_witness :
  fst (home_trigger 2 (cancelled_at 9) launched) = Exn CancelledError.
Proof.
  refine (proj1 (home_trigger_cancelled 1 0 (cancelled_at 9) launched
                   (mkController 1 1) (mkController 2 2)
                   eq_refl eq_refl eq_refl _ _ eq_refl)).
  - intros j Hj. unfold cancelled_at.
    destruct (Nat.eqb_spec j 9) as [->|_]; [destruct (Hj eq_refl)|reflexivity].
  - intros [|i] Hi; [reflexivity|lia].
Defined.

(** * Properties of [MotorController] of [software/open_close.py] *)
Section OpenCloseProperties.
Import OpenClose.


Lemma seq_Val {A B} (m : C A) (k : A -> C B) E s a s' :
  m E s = (Val a, s') -> seq m k E s = k a E s'.
Proof. intros H. unfold seq. rewrite H. reflexivity. Qed.

Lemma seq_Exn {A B} (m : C A) (k : A -> C B) E s e s' :
  m E s = (Exn e, s') -> seq m k E s = (Exn e, s').
Proof. intros H. unfold seq. rewrite H. reflexivity. Qed.

Lemma new_events_app s0 s evs :
  issued s = issued s0 ++ evs -> new_events s0 s = evs.
Proof. intros H. unfold new_events. rewrite H. apply drop_app_length. Qed.

Lemma pass_quiet ev s t :
  stop_pressed t = false ->
  pass ev s t = mkSession (motor s) (issued s ++ [ev]) (S (passed s)).
Proof. intros H. unfold pass. rewrite H. reflexivity. Qed.

Lemma await_returns ev E s :
  returns_normally (E (passed s)) = true ->
  stop_pressed (E (passed s)) = false ->
  exists r, await ev E s
            = (Val r, mkSession (motor s) (issued s ++ [ev]) (S (passed s))).
Proof.
  intros Ht Hs. apply returns_normally_inv in Ht as (Hc & r & Ha).
  exists r. unfold await. rewrite Hc, Ha, (pass_quiet _ _ _ Hs). reflexivity.
Qed.

Lemma asleep_returns secs E s :
  returns_normally (E (passed s)) = true ->
  stop_pressed (E (passed s)) = false ->
  asleep secs E s
  = (Val tt, mkSession (motor s) (issued s ++ [Sleep secs]) (S (passed s))).
Proof.
  intros Ht Hs. apply returns_normally_inv in Ht as (Hc & _).
  unfold asleep. rewrite Hc, (pass_quiet _ _ _ Hs). reflexivity.
Qed.

(** Iterations in which nothing happens but the command and the sleep. *)
Lemma run_loop_cycles k n v mt E s :
  running (motor s) = true ->
  (forall j, (j < 2 * k)%nat ->
     returns_normally (E (passed s + j)%nat) = true /\
     stop_pressed (E (passed s + j)%nat) = false) ->
  run_loop (k + n) v mt E s =
    run_loop n v mt E
      (mkSession (motor s) (issued s ++ cycles k (controller (motor s)) v mt)
                 (passed s + 2 * k)).
Proof.
  revert s. induction k as [|k IH]; intros s Hr HE.
  - cbn [Nat.add cycles]. rewrite app_nil_r, Nat.mul_0_r, Nat.add_0_r.
    destruct s; reflexivity.
  - destruct (HE 0%nat ltac:(lia)) as [T0 S0]. rewrite Nat.add_0_r in T0, S0.
    destruct (HE 1%nat ltac:(lia)) as [T1 S1]. rewrite Nat.add_1_r in T1, S1.
    cbn [Nat.add run_loop].
    rewrite (seq_Val read_running _ E s true s) by (unfold read_running; rewrite Hr; reflexivity).
    rewrite (seq_Val self_controller _ E s (controller (motor s)) s) by reflexivity.
    destruct (await_returns (motion (controller (motor s)) v mt) E s T0 S0) as [r Hr0].
    rewrite (seq_Val _ _ _ _ _ _ Hr0).
    erewrite (seq_Val (asleep _)); [|apply asleep_returns; assumption].
    rewrite IH.
    + cbn [motor issued passed cycles]. rewrite <- !app_assoc.
      replace (S (S (passed s)) + 2 * k)%nat with (passed s + 2 * S k)%nat by lia.
      reflexivity.
    + exact Hr.
    + intros j Hj. cbn [passed].
      replace (S (S (passed s)) + j)%nat with (passed s + (2 + j))%nat by lia.
      apply HE. lia.
Qed.

(** The start of [_run] when the stop command and the pause return. *)
Lemma run_starts n v mt E s :
  returns_normally (E (passed s)) = true ->
  stop_pressed (E (passed s)) = false ->
  returns_normally (E (S (passed s))) = true ->
  stop_pressed (E (S (passed s))) = false ->
  _run n v mt E s =
    run_loop n v mt E
      (mkSession (mkMotorController (controller (motor s)) true)
                 (issued s ++ [Call (controller (motor s)) set_stop; Sleep 0.02])
                 (S (S (passed s)))).
Proof.
  intros T0 S0 T1 S1. unfold _run.
  rewrite (seq_Val (assign_running false) _ E s tt (set_running false s)) by reflexivity.
  rewrite (seq_Val self_controller _ E _ (controller (motor s)) (set_running false s))
    by reflexivity.
  destruct (await_returns (Call (controller (motor s)) set_stop) E
              (set_running false s) T0 S0) as [r Hr0].
  rewrite (seq_Val _ _ _ _ _ _ Hr0).
  erewrite (seq_Val (asleep _)); [|apply asleep_returns; assumption].
  erewrite (seq_Val (assign_running true)); [|reflexivity].
  unfold set_running. cbn [motor issued passed controller].
  rewrite <- app_assoc. reflexivity.
Qed.


Lemma pass_extends ev s t :
  exists tl, issued (pass ev s t) = issued s ++ ev :: tl.
Proof.
  unfold pass, _stop, log, set_running.
  destruct (stop_pressed t); cbn [issued motor controller];
    rewrite <- ?app_assoc; eauto.
Qed.

Lemma extends_seq {A B} (m : C A) (k : A -> C B) :
  extends m -> (forall a, extends (k a)) -> extends (seq m k).
Proof.
  intros Hm Hk E s. destruct (Hm E s) as [e1 H1]. unfold seq.
  destruct (m E s) as [[a| |e|] s1]; cbn [snd] in *; eauto.
  destruct (Hk a E s1) as [e2 H2]. exists (e1 ++ e2).
  rewrite H2, H1, app_assoc. reflexivity.
Qed.

Lemma extends_await ev : extends (await ev).
Proof.
  intros E s. destruct (pass_extends ev s (E (passed s))) as [tl H].
  exists (ev :: tl). unfold await.
  destruct (cancelled _); [exact H|]. destruct (answer _); exact H.
Qed.

Lemma extends_asleep secs : extends (asleep secs).
Proof.
  intros E s. destruct (pass_extends (Sleep secs) s (E (passed s))) as [tl H].
  exists (Sleep secs :: tl). unfold asleep.
  destruct (cancelled _); exact H.
Qed.

Lemma extends_pure {A} (f : Session -> A) (g : Session -> Session) :
  (forall s, issued (g s) = issued s) -> extends (fun _ s => (Val (f s), g s)).
Proof. intros H E s. exists []. cbn [snd]. rewrite H, app_nil_r. reflexivity. Qed.

Lemma extends_run_loop n v mt : extends (run_loop n v mt).
Proof.
  induction n as [|n IH]; cbn [run_loop].
  - apply extends_seq; [apply (extends_pure (fun s => running (motor s)) (fun s => s)); reflexivity|].
    intros [|].
    + intros E s. exists []. cbn [snd]. rewrite app_nil_r. reflexivity.
    + apply (extends_pure (fun _ => tt) (fun s => s)). reflexivity.
  - apply extends_seq; [apply (extends_pure (fun s => running (motor s)) (fun s => s)); reflexivity|].
    intros [|].
    + apply extends_seq;
        [apply (extends_pure (fun s => controller (motor s)) (fun s => s)); reflexivity|].
      intros c. apply extends_seq; [apply extends_await|].
      intros _. apply extends_seq; [apply extends_asleep|].
      intros _. exact IH.
    + apply (extends_pure (fun _ => tt) (fun s => s)). reflexivity.
Qed.

(** What follows an await comes after its event. *)
Lemma await_then_extends {B} ev (k : option Result -> C B) E s :
  (forall a, extends (k a)) ->
  exists tl, issued (snd (seq (await ev) k E s)) = issued s ++ ev :: tl.
Proof.
  intros Hk. destruct (pass_extends ev s (E (passed s))) as [tl H].
  unfold seq, await.
  destruct (cancelled _); cbn [snd]; [eauto|].
  destruct (answer _) as [r|]; cbn [snd]; [|eauto].
  destruct (Hk r E (pass ev s (E (passed s)))) as [e2 H2].
  exists (tl ++ e2). rewrite H2, H, <- app_assoc. reflexivity.
Qed.

(** The loop leaves at its head once the flag is cleared. *)
Lemma run_loop_leaves n v mt E s :
  running (motor s) = false -> run_loop n v mt E s = (Val tt, s).
Proof.
  intros Hr. destruct n; cbn [run_loop];
    rewrite (seq_Val read_running _ E s false s)
      by (unfold read_running; rewrite Hr; reflexivity);
    reflexivity.
Qed.

(** When the stop command that opens [_run] does not return (the
    driver raises, or the task is cancelled there), [_run] ends with that
    exception, the flag is left cleared, and no motion command was sent:
    the only events are that stop command and, if Stop was pressed
    meanwhile, the stop command of [_stop]. *)
Theorem run_failed_first_stop_never_moves
    (n : nat) (v mt : float) (E : env) (s : Session) :
  returns_normally (E (passed s)) = false ->
  let r := _run n v mt E s in
  (exists e, fst r = Exn e) /\
  running (motor (snd r)) = false /\
  new_events s (snd r)
  = Call (controller (motor s)) set_stop
    :: (if stop_pressed (E (passed s))
        then [Call (controller (motor s)) set_stop] else []).
Proof.
  intros Ht. cbv zeta. unfold _run.
  rewrite (seq_Val (assign_running false) _ E s tt (set_running false s)) by reflexivity.
  rewrite (seq_Val self_controller _ E _ (controller (motor s)) (set_running false s))
    by reflexivity.
  assert (Hs : exists e,
             await (Call (controller (motor s)) set_stop) E (set_running false s)
             = (Exn e, pass (Call (controller (motor s)) set_stop)
                            (set_running false s) (E (passed s)))).
  { unfold await. cbn [set_running passed].
    unfold returns_normally in Ht.
    destruct (cancelled (E (passed s))); [eauto|].
    destruct (answer (E (passed s))); [discriminate Ht|eauto]. }
  destruct Hs as [e He]. rewrite (seq_Exn _ _ _ _ _ _ He). cbn [fst snd].
  split; [eauto|].
  unfold pass, _stop, log, set_running. cbn [motor issued passed controller running].
  destruct (stop_pressed (E (passed s)));
    cbn [motor issued passed controller running];
    (split; [reflexivity|]); apply new_events_app;
    rewrite <- ?app_assoc; reflexivity.
Qed.

(** When a motion command raises after [k] completed iterations,
    [_run] ends with the exception and does nothing more: the last event is
    the motion command that failed, no stop command follows it, and the
    [running] flag is still set. *)
Theorem run_command_failure_leaves_flag_set
    (k n : nat) (v mt : float) (E : env) (s : Session) :
  (forall j, (j < 2 + 2 * k)%nat ->
     returns_normally (E (passed s + j)%nat) = true /\
     stop_pressed (E (passed s + j)%nat) = false) ->
  cancelled (E (passed s + (2 + 2 * k))%nat) = false ->
  answer (E (passed s + (2 + 2 * k))%nat) = Fails ->
  stop_pressed (E (passed s + (2 + 2 * k))%nat) = false ->
  let r := _run (k + S n) v mt E s in
  fst r = Exn TransportError /\
  running (motor (snd r)) = true /\
  new_events s (snd r)
  = [Call (controller (motor s)) set_stop; Sleep 0.02]
    ++ cycles k (controller (motor s)) v mt
    ++ [motion (controller (motor s)) v mt].
Proof.
  intros HE Hc Ha Hs. cbv zeta.
  destruct (HE 0%nat ltac:(lia)) as [T0 S0]. rewrite Nat.add_0_r in T0, S0.
  destruct (HE 1%nat ltac:(lia)) as [T1 S1]. rewrite Nat.add_1_r in T1, S1.
  rewrite (run_starts _ _ _ _ _ T0 S0 T1 S1).
  rewrite run_loop_cycles.
  2: reflexivity.
  2: { intros j Hj. cbn [passed].
       replace (S (S (passed s)) + j)%nat with (passed s + (2 + j))%nat by lia.
       apply HE. lia. }
  cbn [motor issued passed controller run_loop].
  replace (S (S (passed s)) + 2 * k)%nat with (passed s + (2 + 2 * k))%nat by lia.
  erewrite (seq_Val read_running); [|reflexivity]. cbn [running motor].
  erewrite (seq_Val self_controller); [|reflexivity]. cbn [controller motor].
  erewrite (seq_Exn (await _)).
  2: { unfold await. cbn [passed]. rewrite Hc, Ha, (pass_quiet _ _ _ Hs).
       reflexivity. }
  cbn [fst snd motor issued running].
  split; [reflexivity|]. split; [reflexivity|].
  apply new_events_app. rewrite <- !app_assoc. reflexivity.
Qed.

(** Stop pressed during the 20 ms pause at the start of [_run] is
    overridden: [_stop] clears the flag and sends its stop command, then
    [_run] sets the flag again and commands the motor. *)
Theorem stop_during_startup_pause_is_overridden
    (n : nat) (v mt : float) (E : env) (s : Session) :
  returns_normally (E (passed s)) = true ->
  stop_pressed (E (passed s)) = false ->
  returns_normally (E (S (passed s))) = true ->
  stop_pressed (E (S (passed s))) = true ->
  exists rest,
    new_events s (snd (_run (S n) v mt E s))
    = [Call (controller (motor s)) set_stop; Sleep 0.02;
       Call (controller (motor s)) set_stop;
       motion (controller (motor s)) v mt] ++ rest.
Proof.
  intros T0 S0 T1 S1. unfold _run.
  rewrite (seq_Val (assign_running false) _ E s tt (set_running false s)) by reflexivity.
  rewrite (seq_Val self_controller _ E _ (controller (motor s)) (set_running false s))
    by reflexivity.
  destruct (await_returns (Call (controller (motor s)) set_stop) E
              (set_running false s) T0 S0) as [r Hr0].
  rewrite (seq_Val _ _ _ _ _ _ Hr0).
  apply returns_normally_inv in T1 as (Hc1 & _).
  erewrite (seq_Val (asleep _)).
  2: { unfold asleep. cbn [passed set_running]. rewrite Hc1.
       unfold pass. rewrite S1. reflexivity. }
  erewrite (seq_Val (assign_running true)); [|reflexivity].
  unfold _stop, log, set_running.
  cbn [motor issued passed controller running run_loop].
  erewrite (seq_Val read_running); [|reflexivity]. cbn [running motor].
  erewrite (seq_Val self_controller); [|reflexivity]. cbn [controller motor].
  set (s2 := mkSession _ _ _).
  destruct (await_then_extends (motion (controller (motor s)) v mt)
              (fun _ => do! _ := asleep (1 / 300) in run_loop n v mt) E s2)
    as [tl Htl].
  { intros _. apply extends_seq; [apply extends_asleep|].
    intros _. apply extends_run_loop. }
  exists tl. apply new_events_app. rewrite Htl. subst s2. cbn [issued].
  rewrite <- !app_assoc. reflexivity.
Qed.

(** Stop pressed while a motion command of the loop is awaited ends
    [_run]: [_stop] sends its stop command, [_run] sleeps out the period,
    finds the flag cleared and returns.  The stop command is the last
    command the motor receives. *)
Theorem stop_in_loop_ends_run
    (k n : nat) (v mt : float) (E : env) (s : Session) :
  (forall j, (j < 2 + 2 * k)%nat ->
     returns_normally (E (passed s + j)%nat) = true /\
     stop_pressed (E (passed s + j)%nat) = false) ->
  returns_normally (E (passed s + (2 + 2 * k))%nat) = true ->
  stop_pressed (E (passed s + (2 + 2 * k))%nat) = true ->
  returns_normally (E (passed s + (3 + 2 * k))%nat) = true ->
  stop_pressed (E (passed s + (3 + 2 * k))%nat) = false ->
  let r := _run (k + S n) v mt E s in
  fst r = Val tt /\
  running (motor (snd r)) = false /\
  new_events s (snd r)
  = [Call (controller (motor s)) set_stop; Sleep 0.02]
    ++ cycles k (controller (motor s)) v mt
    ++ [motion (controller (motor s)) v mt;
        Call (controller (motor s)) set_stop;
        Sleep (1 / 300)].
Proof.
  intros HE Tm Sm Tp Sp. cbv zeta.
  destruct (HE 0%nat ltac:(lia)) as [T0 S0]. rewrite Nat.add_0_r in T0, S0.
  destruct (HE 1%nat ltac:(lia)) as [T1 S1]. rewrite Nat.add_1_r in T1, S1.
  rewrite (run_starts _ _ _ _ _ T0 S0 T1 S1).
  rewrite run_loop_cycles.
  2: reflexivity.
  2: { intros j Hj. cbn [passed].
       replace (S (S (passed s)) + j)%nat with (passed s + (2 + j))%nat by lia.
       apply HE. lia. }
  cbn [motor issued passed controller run_loop].
  replace (S (S (passed s)) + 2 * k)%nat with (passed s + (2 + 2 * k))%nat by lia.
  erewrite (seq_Val read_running); [|reflexivity]. cbn [running motor].
  erewrite (seq_Val self_controller); [|reflexivity]. cbn [controller motor].
  apply returns_normally_inv in Tm as (Hcm & rm & Ham).
  erewrite (seq_Val (await _)).
  2: { unfold await. cbn [passed]. rewrite Hcm, Ham. unfold pass. rewrite Sm.
       reflexivity. }
  unfold _stop, log, set_running. cbn [motor issued passed controller].
  erewrite (seq_Val (asleep _)).
  2: { apply asleep_returns; cbn [passed];
       replace (S (passed s + (2 + 2 * k)))%nat with (passed s + (3 + 2 * k))%nat by lia;
       assumption. }
  rewrite run_loop_leaves by reflexivity.
  cbn [fst snd motor issued running].
  split; [reflexivity|]. split; [reflexivity|].
  apply new_events_app. rewrite <- !app_assoc. reflexivity.
Qed.

(** *** Instances *)


Lemma run_failed_first_stop_never_moves_witness :
  returns_normally (quiet_but 0 failing (passed fresh)) = false /\
  running (motor (snd (_run 3 1 0.01 (quiet_but 0 failing) fresh))) = false.
Proof.
  split; [reflexivity|].
  apply (run_failed_first_stop_never_moves 3 1 0.01 (quiet_but 0 failing) fresh).
  reflexivity.
Defined.

Lemma run_command_failure_leaves_flag_set_witness :
  fst (_run (1 + 3) 1 0.01 (quiet_but 4 failing) fresh) = Exn TransportError /\
  running (motor (snd (_run (1 + 3) 1 0.01 (quiet_but 4 failing) fresh))) = true.
Proof.
  destruct (run_command_failure_leaves_flag_set 1 2 1 0.01
              (quiet_but 4 failing) fresh) as (H1 & H2 & _).
  - intros j Hj. cbn [passed fresh Nat.add].
    do 4 (destruct j as [|j]; [split; reflexivity|]). lia.
  - reflexivity.
  - reflexivity.
  - reflexivity.
  - split; [exact H1|exact H2].
Defined.

Lemma stop_during_startup_pause_is_overridden_witness :
  exists rest,
    new_events fresh (snd (_run 2 1 0.01 (quiet_but 1 stopping) fresh))
    = [Call (mkController 0 2) set_stop; Sleep 0.02;
       Call (mkController 0 2) set_stop;
       motion (mkController 0 2) 1 0.01] ++ rest.
Proof.
  apply (stop_during_startup_pause_is_overridden 1 1 0.01
           (quiet_but 1 stopping) fresh); reflexivity.
Defined.

Lemma stop_in_loop_ends_run_witness :
  fst (_run (1 + 3) (-1) 0.01 (quiet_but 4 stopping) fresh) = Val tt /\
  running (motor (snd (_run (1 + 3) (-1) 0.01 (quiet_but 4 stopping) fresh)))
  = false.
Proof.
  destruct (stop_in_loop_ends_run 1 2 (-1) 0.01
              (quiet_but 4 stopping) fresh) as (H1 & H2 & _).
  - intros j Hj. cbn [passed fresh Nat.add].
    do 4 (destruct j as [|j]; [split; reflexivity|]). lia.
  - reflexivity.
  - reflexivity.
  - reflexivity.
  - reflexivity.
  - split; [exact H1|exact H2].
Defined.
End OpenCloseProperties.
